(** * The model/state engine of the 3D model builder

    A shallow embedding of [store/modelActions.ts] (the reducer, the history
    post-processing and the initial state), of [types/model.ts] and
    [types/threejs.ts] (the data model) and of [constants/primitives.ts],
    followed by the properties of the reducer.

    Conventions of the embedding:
    - a JavaScript object used as a dictionary ([Record<NodeId, ModelNode>],
      [BasePrimitiveProps]) is a [gmap] with string keys;
    - a node is one record with the fields of both variants of the tagged
      union, the variant-specific ones optional, so that object spreads
      ([{...node, ...updates}]) are field-wise updates and a read of a field
      that is absent is visible as [None];
    - an entry of a [children] array is a [ChildRef]: the array can hold
      [undefined] (after a splice that removed nothing) and [null] (after
      the JSON round trip of such an array);
    - a [number] that is used as an array index is an integer of [Z]; the
      other numbers are rationals that the reducer only copies;
    - a call that raises ([TypeError] on a property read of [undefined],
      [RangeError] on unbounded recursion) ends in [Throw];
    - [generateId] reads a counter that is threaded through the reducer. *)

From Stdlib Require Import ZArith QArith.
From stdpp Require Import base option list strings pretty gmap sets relations.

Set Warnings "-register-all".

(** ** Data model ([types/model.ts], [types/threejs.ts]) *)

Abbreviation NodeId := string.

Inductive PrimitiveType := box | cylinder | cone | sphere | torus | pyramid.

Definition number := Q.

Abbreviation BasePrimitiveProps := (gmap string number).

(** [{ x: number; y: number; z: number }]; the fields are [vx], [vy], [vz]. *)
Record Vec3 := { vx : number; vy : number; vz : number }.

Record Transform := { position : Vec3; rotation : Vec3; scale : Vec3 }.

(** The [type] tag of a node. *)
Inductive NodeType := primitive | assembly.

Global Instance NodeType_eq_dec : EqDecision NodeType.
Proof. solve_decision. Defined.

(** What a slot of a [children] array can hold at run time. *)
Inductive ChildRef := Ref (k : NodeId) | Undefined | Null.

Global Instance ChildRef_eq_dec : EqDecision ChildRef.
Proof. solve_decision. Defined.

(** The property key JavaScript uses for [nodes[c]]. *)
Definition toKey (c : ChildRef) : NodeId :=
  match c with
  | Ref k => k
  | Undefined => "undefined"
  | Null => "null"
  end.

(** [PrimitiveNode | AssemblyNode] as one object: [nid] is the [id] field;
    [primitiveType], [properties], [color] belong to primitives and
    [children] to assemblies. *)
Record ModelNode := {
  nid : NodeId;
  type : NodeType;
  name : string;
  transform : Transform;
  visible : bool;
  primitiveType : option PrimitiveType;
  properties : option BasePrimitiveProps;
  color : option string;
  children : option (list ChildRef)
}.

Abbreviation Nodes := (gmap NodeId ModelNode).

Record Model := { rootId : NodeId; nodes : Nodes }.

Record SelectionState := {
  selectedNodeId : option NodeId;
  hoveredNodeId : option NodeId
}.

(** [history: ModelState[]]: the entries are states themselves. *)
Inductive ModelState := {
  model : Model;
  selection : SelectionState;
  history : list ModelState;
  historyIndex : Z
}.

(** ** Partial values carried by actions *)

(** A partial [{x, y, z}] as the spread in UPDATE_TRANSFORM reads it. *)
Record PartialVec3 := {
  px : option number; py : option number; pz : option number
}.

(** [Partial<Transform>]. *)
Record PartialTransform := {
  pposition : option PartialVec3;
  protation : option PartialVec3;
  pscale : option PartialVec3
}.

(** [Partial<ModelNode>]: any subset of the fields. *)
Record NodeUpdates := {
  u_id : option NodeId;
  u_type : option NodeType;
  u_name : option string;
  u_transform : option Transform;
  u_visible : option bool;
  u_primitiveType : option PrimitiveType;
  u_properties : option BasePrimitiveProps;
  u_color : option string;
  u_children : option (list NodeId)
}.

Inductive ModelAction :=
  | ADD_PRIMITIVE (parentId : NodeId) (primitiveType : PrimitiveType)
                  (name : string)
  | ADD_ASSEMBLY (parentId : NodeId) (name : string)
  | DELETE_NODE (nodeId : NodeId)
  | UPDATE_NODE (nodeId : NodeId) (updates : NodeUpdates)
  | UPDATE_TRANSFORM (nodeId : NodeId) (transform : PartialTransform)
  | REORDER_CHILDREN (parentId : NodeId) (fromIndex toIndex : Z)
  | MOVE_NODE (nodeId newParentId : NodeId)
  | SELECT_NODE (nodeId : option NodeId)
  | RENAME_NODE (nodeId : NodeId) (name : string)
  | TOGGLE_VISIBILITY (nodeId : NodeId)
  | UPDATE_PRIMITIVE_PROPERTIES (nodeId : NodeId)
                                (properties : BasePrimitiveProps)
  | DUPLICATE_NODE (nodeId : NodeId)
  | UNDO
  | REDO.

(** ** Constants ([constants/primitives.ts]) *)

Definition PRIMITIVE_DEFAULTS (t : PrimitiveType) : BasePrimitiveProps :=
  match t with
  | box => {[ "width" := 1%Q; "height" := 1%Q; "depth" := 1%Q ]}
  | cylinder => {[ "radius" := (1#2)%Q; "height" := 1%Q; "segments" := 32%Q ]}
  | cone => {[ "radius" := (1#2)%Q; "height" := 1%Q; "segments" := 32%Q ]}
  | sphere => {[ "radius" := (1#2)%Q; "segments" := 32%Q ]}
  | torus => {[ "radius" := (1#2)%Q; "tube" := (1#5)%Q; "segments" := 32%Q ]}
  | pyramid => {[ "width" := 1%Q; "height" := 1%Q; "depth" := 1%Q ]}
  end.

Definition DEFAULT_TRANSFORM : Transform :=
  {| position := {| vx := 0%Q; vy := 0%Q; vz := 0%Q |};
     rotation := {| vx := 0%Q; vy := 0%Q; vz := 0%Q |};
     scale := {| vx := 1%Q; vy := 1%Q; vz := 1%Q |} |}.

(** ** Outcomes and the identity generator *)

Inductive JsError := TypeError | RangeError.

(** What a call produces: a value, a raised error, or (for UNDO and REDO on
    an index without a history entry) an object that has no [model] and no
    [selection], the spread of [undefined] contributing nothing. *)
Inductive Outcome (A : Type) :=
  | Ok (a : A)
  | Throw (e : JsError)
  | NoModel.
Arguments Ok {A} a.
Arguments Throw {A} e.
Arguments NoModel {A}.

(** Computations that may call [generateId]: the counter goes in and out. *)
Definition Gen (A : Type) : Type := nat → Outcome A * nat.

Definition ret {A} (a : A) : Gen A := λ g, (Ok a, g).

Definition lift {A} (o : Outcome A) : Gen A := λ g, (o, g).

Definition bind {A B} (c : Gen A) (k : A → Gen B) : Gen B :=
  λ g, match c g with
       | (Ok a, g') => k a g'
       | (Throw e, g') => (Throw e, g')
       | (NoModel, g') => (NoModel, g')
       end.

Notation "'let*' x ':=' c 'in' k" := (bind c (λ x, k))
  (at level 10, x pattern, c at level 100, k at level 200,
   format "'[v' 'let*'  x  ':='  c  'in' '/' k ']'").

(** Modelled from the spec: [generateId] of [utils/uuid.ts], which is not
    among the sources. The spec requires a value "distinct from every
    previously generated value for the lifetime of the process" and allows
    a monotonic scheme: the n-th identifier is the counter printed after a
    fixed prefix. *)
Definition idOf (n : nat) : NodeId := "node-" +:+ pretty n.

Definition generateId : Gen NodeId := λ g, (Ok (idOf g), S g).

(** ** JavaScript array primitives on integer indices *)

(** The position [Array.prototype.splice] and [slice] compute from a
    relative index: negative indices count from the end, and the result is
    clamped to [0 .. len]. *)
Definition relativeIndex (len : nat) (i : Z) : nat :=
  if (i <? 0)%Z then Z.to_nat (Z.max (Z.of_nat len + i) 0)
  else Nat.min (Z.to_nat i) len.

(** [l.splice(start, deleteCount, ...items)]: the array afterwards and the
    array of removed elements. *)
Definition splice {A} (l : list A) (start : Z) (deleteCount : nat)
    (items : list A) : list A * list A :=
  let s := relativeIndex (length l) start in
  let d := Nat.min deleteCount (length l - s) in
  (take s l ++ items ++ drop (s + d) l, take d (drop s l)).

(** [l.slice(0, e)]. *)
Definition slice0 {A} (l : list A) (e : Z) : list A :=
  take (relativeIndex (length l) e) l.

(** [l[i]]: [None] is [undefined]. *)
Definition at_index {A} (l : list A) (i : Z) : option A :=
  if (i <? 0)%Z then None else l !! Z.to_nat i.

(** ** Tree query utilities *)

(** The children list an assembly node carries; on a primitive, or on an
    object without the field, there is none. *)
Definition childrenOf (n : ModelNode) : list ChildRef :=
  match type n with
  | assembly => default [] (children n)
  | primitive => []
  end.

(** Modelled from the spec: [getChildren] of [utils/treeUtils.ts], which is
    not among the sources: "ordered sequence of NodeId: empty sequence for
    primitives or childless assemblies". *)
Definition getChildren (nodeId : NodeId) (m : Model) : list ChildRef :=
  match nodes m !! nodeId with
  | Some n => childrenOf n
  | None => []
  end.

(** Modelled from the spec: [findParent] of [utils/treeUtils.ts], which is
    not among the sources: "scans all assembly nodes' children lists for
    containment; null for the root or an unparented/invalid id". *)
Definition findParent (nodeId : NodeId) (m : Model) : option NodeId :=
  fst <$> head (filter (λ kn, Ref nodeId ∈ childrenOf kn.2)
                       (map_to_list (nodes m))).

(** The transitive children of [nodeId], parents before their children,
    following at most [depth] levels of [children] lists. *)
Fixpoint descendantsWithin (depth : nat) (m : Model) (nodeId : NodeId)
    : list ChildRef :=
  match depth with
  | 0 => []
  | S d =>
      flat_map (λ c, c :: descendantsWithin d m (toKey c))
               (getChildren nodeId m)
  end.

(** Modelled from the spec: [getDescendants] of [utils/treeUtils.ts], which
    is not among the sources: "all transitive children in any consistent
    traversal order". A chain of children without a repeated node is no
    longer than the number of nodes, which bounds the traversal. *)
Definition getDescendants (nodeId : NodeId) (m : Model) : list ChildRef :=
  descendantsWithin (S (size (nodes m))) m nodeId.

(** Modelled from the spec: [validateTreeMove] of [utils/treeUtils.ts],
    which is not among the sources: "true iff [candidateParentId] is not
    [nodeId] itself and not any descendant of [nodeId]". *)
Definition validateTreeMove (nodeId candidateParentId : NodeId) (m : Model)
    : bool :=
  bool_decide (candidateParentId ≠ nodeId)
  && bool_decide (Ref candidateParentId ∉ getDescendants nodeId m).

(** ** The reducer ([store/modelActions.ts]) *)

Definition shouldSaveToHistory (action : ModelAction) : bool :=
  match action with
  | SELECT_NODE _ | UNDO | REDO => false
  | _ => true
  end.

(** Record updates standing for the object spreads of the source. *)
Definition withChildren (n : ModelNode) (cs : list ChildRef) : ModelNode :=
  {| nid := nid n; type := type n; name := name n; transform := transform n;
     visible := visible n; primitiveType := primitiveType n;
     properties := properties n; color := color n; children := Some cs |}.

Definition withName (n : ModelNode) (s : string) : ModelNode :=
  {| nid := nid n; type := type n; name := s; transform := transform n;
     visible := visible n; primitiveType := primitiveType n;
     properties := properties n; color := color n; children := children n |}.

Definition withVisible (n : ModelNode) (b : bool) : ModelNode :=
  {| nid := nid n; type := type n; name := name n; transform := transform n;
     visible := b; primitiveType := primitiveType n;
     properties := properties n; color := color n; children := children n |}.

Definition withTransform (n : ModelNode) (t : Transform) : ModelNode :=
  {| nid := nid n; type := type n; name := name n; transform := t;
     visible := visible n; primitiveType := primitiveType n;
     properties := properties n; color := color n; children := children n |}.

Definition withProperties (n : ModelNode) (p : BasePrimitiveProps)
    : ModelNode :=
  {| nid := nid n; type := type n; name := name n; transform := transform n;
     visible := visible n; primitiveType := primitiveType n;
     properties := Some p; color := color n; children := children n |}.

Definition withNodes (s : ModelState) (ns : Nodes) : ModelState :=
  {| model := {| rootId := rootId (model s); nodes := ns |};
     selection := selection s;
     history := history s; historyIndex := historyIndex s |}.

Definition withSelected (sel : SelectionState) (k : option NodeId)
    : SelectionState :=
  {| selectedNodeId := k; hoveredNodeId := hoveredNodeId sel |}.

Definition withNodesSelected (s : ModelState) (ns : Nodes)
    (k : option NodeId) : ModelState :=
  {| model := {| rootId := rootId (model s); nodes := ns |};
     selection := withSelected (selection s) k;
     history := history s; historyIndex := historyIndex s |}.

(** [nodes[k]] followed by a read of a property of the result: a
    [TypeError] when the key is absent. *)
Definition deref (ns : Nodes) (k : NodeId) : Outcome ModelNode :=
  match ns !! k with
  | Some n => Ok n
  | None => Throw TypeError
  end.

(** A use of [n.children] as an array (spread, [filter], [for .. of]): a
    [TypeError] when the object has no such field. *)
Definition childArray (n : ModelNode) : Outcome (list ChildRef) :=
  match children n with
  | Some cs => Ok cs
  | None => Throw TypeError
  end.

Definition obind {A B} (o : Outcome A) (k : A → Outcome B) : Outcome B :=
  match o with
  | Ok a => k a
  | Throw e => Throw e
  | NoModel => NoModel
  end.

Notation "'do*' x ':=' o 'in' k" := (obind o (λ x, k))
  (at level 10, x pattern, o at level 100, k at level 200,
   format "'[v' 'do*'  x  ':='  o  'in' '/' k ']'").

(** JavaScript truthiness of a [NodeId | null]. *)
Definition truthy (o : option NodeId) : bool :=
  match o with
  | Some k => negb (String.eqb k "")
  | None => false
  end.

(** [case "ADD_PRIMITIVE"], after [generateId()] returned [newNodeId]. *)
Definition addPrimitive (newNodeId : NodeId) (state : ModelState)
    (parentId : NodeId) (pt : PrimitiveType) (nm : string)
    : Outcome ModelState :=
  do* parent := deref (nodes (model state)) parentId in
  if decide (type parent ≠ assembly) then Ok state
  else
    let newPrimitive :=
      {| nid := newNodeId; type := primitive; name := nm;
         transform := DEFAULT_TRANSFORM; visible := true;
         primitiveType := Some pt;
         properties := Some (PRIMITIVE_DEFAULTS pt);
         color := Some "#ffffff"; children := None |} in
    do* cs := childArray parent in
    Ok (withNodesSelected state
          (<[parentId := withChildren parent (cs ++ [Ref newNodeId])]>
             (<[newNodeId := newPrimitive]> (nodes (model state))))
          (Some newNodeId)).

(** [case "ADD_ASSEMBLY"], after [generateId()] returned [newNodeId]. *)
Definition addAssembly (newNodeId : NodeId) (state : ModelState)
    (parentId : NodeId) (nm : string) : Outcome ModelState :=
  do* parent := deref (nodes (model state)) parentId in
  if decide (type parent ≠ assembly) then Ok state
  else
    let newAssembly :=
      {| nid := newNodeId; type := assembly; name := nm;
         transform := DEFAULT_TRANSFORM; visible := true;
         primitiveType := None; properties := None; color := None;
         children := Some [] |} in
    do* cs := childArray parent in
    Ok (withNodes state
          (<[parentId := withChildren parent (cs ++ [Ref newNodeId])]>
             (<[newNodeId := newAssembly]> (nodes (model state))))).

(** [allIdsToDelete.forEach((id) => delete nodes[id])]. *)
Definition deleteAll (ids : list ChildRef) (ns : Nodes) : Nodes :=
  foldl (λ acc c, delete (toKey c) acc) ns ids.

(** [case "DELETE_NODE"]. *)
Definition deleteNode (state : ModelState) (nodeId : NodeId)
    : Outcome ModelState :=
  match nodes (model state) !! nodeId with
  | None => Ok state
  | Some _ =>
      let descendants := getDescendants nodeId (model state) in
      let allIdsToDelete := Ref nodeId :: descendants in
      let parent := findParent nodeId (model state) in
      if truthy parent then
        let parentKey := default "" parent in
        do* parentNode := deref (nodes (model state)) parentKey in
        if decide (type parentNode = assembly) then
          do* pcs := childArray parentNode in
          let newChildren := filter (λ c, c ≠ Ref nodeId) pcs in
          let ns := deleteAll allIdsToDelete (nodes (model state)) in
          Ok {| model :=
                  {| rootId := rootId (model state);
                     nodes := <[parentKey :=
                                  withChildren parentNode newChildren]> ns |};
                selection :=
                  if decide (selectedNodeId (selection state) = Some nodeId)
                  then withSelected (selection state) None
                  else selection state;
                history := history state;
                historyIndex := historyIndex state |}
        else Ok state
      else Ok state
  end.

(** [{...node, ...updates}]. *)
Definition mergeUpdates (n : ModelNode) (u : NodeUpdates) : ModelNode :=
  {| nid := default (nid n) (u_id u);
     type := default (type n) (u_type u);
     name := default (name n) (u_name u);
     transform := default (transform n) (u_transform u);
     visible := default (visible n) (u_visible u);
     primitiveType :=
       match u_primitiveType u with Some v => Some v
       | None => primitiveType n end;
     properties :=
       match u_properties u with Some v => Some v | None => properties n end;
     color := match u_color u with Some v => Some v | None => color n end;
     children :=
       match u_children u with
       | Some v => Some (Ref <$> v)
       | None => children n
       end |}.

(** [case "UPDATE_NODE"]. *)
Definition updateNode (state : ModelState) (nodeId : NodeId)
    (u : NodeUpdates) : Outcome ModelState :=
  match nodes (model state) !! nodeId with
  | None => Ok state
  | Some node =>
      Ok (withNodes state
            (<[nodeId := mergeUpdates node u]> (nodes (model state))))
  end.

(** [{...v, ...(p || {})}] on one of position, rotation, scale. *)
Definition mergeVec3 (v : Vec3) (p : option PartialVec3) : Vec3 :=
  match p with
  | None => v
  | Some q =>
      {| vx := default (vx v) (px q);
         vy := default (vy v) (py q);
         vz := default (vz v) (pz q) |}
  end.

Definition mergeTransform (t : Transform) (p : PartialTransform)
    : Transform :=
  {| position := mergeVec3 (position t) (pposition p);
     rotation := mergeVec3 (rotation t) (protation p);
     scale := mergeVec3 (scale t) (pscale p) |}.

(** [case "UPDATE_TRANSFORM"]. *)
Definition updateTransform (state : ModelState) (nodeId : NodeId)
    (p : PartialTransform) : Outcome ModelState :=
  match nodes (model state) !! nodeId with
  | None => Ok state
  | Some node =>
      Ok (withNodes state
            (<[nodeId := withTransform node
                           (mergeTransform (transform node) p)]>
               (nodes (model state))))
  end.

(** The two splices of REORDER_CHILDREN on a copy of the children. *)
Definition reorder (cs : list ChildRef) (fromIndex toIndex : Z)
    : list ChildRef :=
  let '(rest, removed) := splice cs fromIndex 1 [] in
  let moved := default Undefined (head removed) in
  fst (splice rest toIndex 0 [moved]).

(** [case "REORDER_CHILDREN"]. *)
Definition reorderChildren (state : ModelState) (parentId : NodeId)
    (fromIndex toIndex : Z) : Outcome ModelState :=
  do* parent := deref (nodes (model state)) parentId in
  if decide (type parent ≠ assembly) then Ok state
  else
    do* cs := childArray parent in
    Ok (withNodes state
          (<[parentId := withChildren parent (reorder cs fromIndex toIndex)]>
             (nodes (model state)))).

(** [case "MOVE_NODE"]. *)
Definition moveNode (state : ModelState) (nodeId newParentId : NodeId)
    : Outcome ModelState :=
  if negb (validateTreeMove nodeId newParentId (model state)) then Ok state
  else
    let oldParent := findParent nodeId (model state) in
    do* newParent := deref (nodes (model state)) newParentId in
    if decide (type newParent ≠ assembly) then Ok state
    else
      do* ns :=
        (if truthy oldParent then
           let oldKey := default "" oldParent in
           do* oldParentNode := deref (nodes (model state)) oldKey in
           if decide (type oldParentNode = assembly) then
             do* ocs := childArray oldParentNode in
             Ok (<[oldKey := withChildren oldParentNode
                               (filter (λ c, c ≠ Ref nodeId) ocs)]>
                   (nodes (model state)))
           else Ok (nodes (model state))
         else Ok (nodes (model state))) in
      do* ncs := childArray newParent in
      Ok (withNodes state
            (<[newParentId := withChildren newParent (ncs ++ [Ref nodeId])]>
               ns)).

(** [case "SELECT_NODE"]. *)
Definition selectNode (state : ModelState) (k : option NodeId) : ModelState :=
  {| model := model state;
     selection := withSelected (selection state) k;
     history := history state; historyIndex := historyIndex state |}.

(** [case "RENAME_NODE"]. *)
Definition renameNode (state : ModelState) (nodeId : NodeId) (nm : string)
    : Outcome ModelState :=
  match nodes (model state) !! nodeId with
  | None => Ok state
  | Some node =>
      Ok (withNodes state
            (<[nodeId := withName node nm]> (nodes (model state))))
  end.

(** [case "TOGGLE_VISIBILITY"]. *)
Definition toggleVisibility (state : ModelState) (nodeId : NodeId)
    : Outcome ModelState :=
  match nodes (model state) !! nodeId with
  | None => Ok state
  | Some node =>
      Ok (withNodes state
            (<[nodeId := withVisible node (negb (visible node))]>
               (nodes (model state))))
  end.

(** [case "UPDATE_PRIMITIVE_PROPERTIES"]; the spread of a node's missing
    [properties] contributes nothing. *)
Definition updatePrimitiveProperties (state : ModelState) (nodeId : NodeId)
    (props : BasePrimitiveProps) : Outcome ModelState :=
  match nodes (model state) !! nodeId with
  | None => Ok state
  | Some node =>
      if decide (type node ≠ primitive) then Ok state
      else
        Ok (withNodes state
              (<[nodeId := withProperties node
                             (props ∪ default ∅ (properties node))]>
                 (nodes (model state))))
  end.

(** The clone of a node under a new identifier: [{...sourceNode, id: newId,
    name: `${sourceNode.name} (copy)`, ...}]. *)
Definition copyName (s : string) : string := s +:+ " (copy)".

Definition clonePrimitive (sourceNode : ModelNode) (newId : NodeId)
    : ModelNode :=
  {| nid := newId; type := type sourceNode;
     name := copyName (name sourceNode);
     transform := transform sourceNode; visible := visible sourceNode;
     primitiveType := primitiveType sourceNode;
     properties := properties sourceNode;
     color := color sourceNode; children := children sourceNode |}.

Definition cloneAssembly (sourceNode : ModelNode) (newId : NodeId)
    (cs : list ChildRef) : ModelNode :=
  {| nid := newId; type := type sourceNode;
     name := copyName (name sourceNode);
     transform := transform sourceNode; visible := visible sourceNode;
     primitiveType := primitiveType sourceNode;
     properties := properties sourceNode;
     color := color sourceNode; children := Some cs |}.

(** The block "Add to parent" at the end of [duplicateNode]. *)
Definition addToParent (newId newParentId : NodeId) (ns : Nodes)
    : Outcome Nodes :=
  match ns !! newParentId with
  | Some newParentNode =>
      if decide (type newParentNode = assembly) then
        do* pcs := childArray newParentNode in
        Ok (<[newParentId := withChildren newParentNode
                               (pcs ++ [Ref newId])]> ns)
      else Ok ns
  | None => Ok ns
  end.

(** The loop [for (const childId of sourceNode.children)] of
    [duplicateNode], over the recursive call [dup]: [todo] are the children
    still to duplicate and [newChildren] the identifiers pushed so far. *)
Definition duplicateChildren
    (dup : ChildRef → NodeId → Nodes → Gen (ChildRef * Nodes))
    (newId : NodeId)
    : list ChildRef → list ChildRef → Nodes → Gen (list ChildRef * Nodes) :=
  fix loop (todo newChildren : list ChildRef) (ns : Nodes) :=
    match todo with
    | [] => ret (newChildren, ns)
    | childId :: rest =>
        let* (duplicatedChildId, ns') := dup childId newId ns in
        loop rest (newChildren ++ [duplicatedChildId]) ns'
    end.

(** The closure [duplicateNode] of [case "DUPLICATE_NODE"]. It mutates the
    [nodes] object it is given, which is passed in and out here. The
    recursion of the source has no bound of its own; [fuel] is the depth
    left before the call stack is exhausted. *)
Fixpoint duplicateNode (fuel : nat) (sourceId : ChildRef)
    (newParentId : NodeId) (ns : Nodes) : Gen (ChildRef * Nodes) :=
  match fuel with
  | 0 => lift (Throw RangeError)
  | S fuel' =>
      match ns !! toKey sourceId with
      | None => ret (sourceId, ns)
      | Some sourceNode =>
          let* newId := generateId in
          let* ns1 :=
            match type sourceNode with
            | primitive => ret (<[newId := clonePrimitive sourceNode newId]> ns)
            | assembly =>
                let ns0 := <[newId := cloneAssembly sourceNode newId []]> ns in
                let* cs := lift (childArray sourceNode) in
                let* (newChildren, ns') :=
                  duplicateChildren (duplicateNode fuel') newId cs [] ns0 in
                let* duplicatedAssembly := lift (deref ns' newId) in
                ret (if decide (type duplicatedAssembly = assembly)
                     then <[newId := withChildren duplicatedAssembly
                                       newChildren]> ns'
                     else ns')
            end in
          let* ns2 := lift (addToParent newId newParentId ns1) in
          ret (Ref newId, ns2)
      end
  end.

(** The value stored in [selectedNodeId: NodeId | null]. *)
Definition asSelected (c : ChildRef) : option NodeId :=
  match c with
  | Ref k => Some k
  | _ => None
  end.

(** [case "DUPLICATE_NODE"]. The call stack admits more nested calls than
    the model has nodes, and only a cycle of [children] makes the recursion
    deeper than that. *)
Definition duplicate (state : ModelState) (nodeId : NodeId)
    : Gen ModelState :=
  match nodes (model state) !! nodeId with
  | None => ret state
  | Some _ =>
      if decide (nodeId = rootId (model state)) then ret state
      else
        let parent := findParent nodeId (model state) in
        if negb (truthy parent) then ret state
        else
          let parentKey := default "" parent in
          let* parentNode := lift (deref (nodes (model state)) parentKey) in
          if decide (type parentNode ≠ assembly) then ret state
          else
            let* (duplicatedId, newNodes) :=
              duplicateNode (S (size (nodes (model state)))) (Ref nodeId)
                            parentKey (nodes (model state)) in
            ret (withNodesSelected state newNodes (asSelected duplicatedId))
  end.

(** ** History *)

(** [JSON.parse(JSON.stringify(nodes))]: a deep copy in which an
    [undefined] array element comes back as [null]. *)
Definition jsonChild (c : ChildRef) : ChildRef :=
  match c with
  | Undefined => Null
  | _ => c
  end.

Definition jsonNode (n : ModelNode) : ModelNode :=
  {| nid := nid n; type := type n; name := name n; transform := transform n;
     visible := visible n; primitiveType := primitiveType n;
     properties := properties n; color := color n;
     children :=
       match children n with
       | Some cs => Some (jsonChild <$> cs)
       | None => None
       end |}.

Definition jsonClone (ns : Nodes) : Nodes := jsonNode <$> ns.

(** The snapshot of a state: model and selection, without history. *)
Definition snapshot (s : ModelState) : ModelState :=
  {| model := {| rootId := rootId (model s);
                 nodes := jsonClone (nodes (model s)) |};
     selection := selection s;
     history := [];
     historyIndex := -1 |}.

(** The post-processing step of the reducer for actions that are saved. *)
Definition saveToHistory (state newState : ModelState) : ModelState :=
  let trimmedHistory := slice0 (history state) (historyIndex state + 1) in
  let pushed := trimmedHistory ++ [snapshot newState] in
  if 50 <? length pushed then
    {| model := model newState; selection := selection newState;
       history := tail pushed; historyIndex := 49 |}
  else
    {| model := model newState; selection := selection newState;
       history := pushed;
       historyIndex := Z.of_nat (length pushed) - 1 |}.

(** [{...entry, history: state.history, historyIndex: i}]. *)
Definition restore (state : ModelState) (entry : option ModelState) (i : Z)
    : Outcome ModelState :=
  match entry with
  | Some e =>
      Ok {| model := model e; selection := selection e;
            history := history state; historyIndex := i |}
  | None => NoModel
  end.

Definition undo (state : ModelState) : Outcome ModelState :=
  if (0 <? historyIndex state)%Z then
    restore state (at_index (history state) (historyIndex state - 1))
            (historyIndex state - 1)
  else Ok state.

Definition redo (state : ModelState) : Outcome ModelState :=
  if (historyIndex state <? Z.of_nat (length (history state)) - 1)%Z then
    restore state (at_index (history state) (historyIndex state + 1))
            (historyIndex state + 1)
  else Ok state.

(** The [switch] of the reducer. UNDO and REDO are handled before it. *)
Definition applyAction (state : ModelState) (action : ModelAction)
    : Gen ModelState :=
  match action with
  | ADD_PRIMITIVE parentId pt nm =>
      let* newNodeId := generateId in
      lift (addPrimitive newNodeId state parentId pt nm)
  | ADD_ASSEMBLY parentId nm =>
      let* newNodeId := generateId in
      lift (addAssembly newNodeId state parentId nm)
  | DELETE_NODE nodeId => lift (deleteNode state nodeId)
  | UPDATE_NODE nodeId u => lift (updateNode state nodeId u)
  | UPDATE_TRANSFORM nodeId p => lift (updateTransform state nodeId p)
  | REORDER_CHILDREN parentId i j => lift (reorderChildren state parentId i j)
  | MOVE_NODE nodeId newParentId => lift (moveNode state nodeId newParentId)
  | SELECT_NODE k => ret (selectNode state k)
  | RENAME_NODE nodeId nm => lift (renameNode state nodeId nm)
  | TOGGLE_VISIBILITY nodeId => lift (toggleVisibility state nodeId)
  | UPDATE_PRIMITIVE_PROPERTIES nodeId props =>
      lift (updatePrimitiveProperties state nodeId props)
  | DUPLICATE_NODE nodeId => duplicate state nodeId
  | UNDO | REDO => ret state
  end.

(** [modelReducer]. SELECT_NODE returns from inside the [switch]; it is not
    saved to history, so that the common exit below returns the same. *)
Definition modelReducer (state : ModelState) (action : ModelAction)
    : Gen ModelState :=
  match action with
  | UNDO => lift (undo state)
  | REDO => lift (redo state)
  | _ =>
      let* newState := applyAction state action in
      ret (if shouldSaveToHistory action
           then saveToHistory state newState
           else newState)
  end.

(** [createInitialState]. *)
Definition createInitialState : Gen ModelState :=
  let* rootId := generateId in
  let rootNode :=
    {| nid := rootId; type := assembly; name := "Root";
       transform := DEFAULT_TRANSFORM; visible := true;
       primitiveType := None; properties := None; color := None;
       children := Some [] |} in
  let initialState :=
    {| model := {| rootId := rootId; nodes := {[ rootId := rootNode ]} |};
       selection := {| selectedNodeId := None; hoveredNodeId := None |};
       history := []; historyIndex := -1 |} in
  ret {| model := model initialState; selection := selection initialState;
         history := [snapshot initialState]; historyIndex := 0 |}.

(** ** The store: a state and the identity counter

    [useReducer(modelReducer, createInitialState())]: a dispatched action
    replaces the state by what the reducer returns. *)
Record Store := { current : ModelState; counter : nat }.

Definition initialStore : Store :=
  match createInitialState 0 with
  | (Ok s, g) => {| current := s; counter := g |}
  | (_, g) =>
      {| current := {| model := {| rootId := ""; nodes := ∅ |};
                       selection := {| selectedNodeId := None;
                                       hoveredNodeId := None |};
                       history := []; historyIndex := -1 |};
         counter := g |}
  end.

(** One dispatch that the reducer completes. *)
Definition dispatch (w : Store) (action : ModelAction) : Outcome Store :=
  match modelReducer (current w) action (counter w) with
  | (Ok s, g) => Ok {| current := s; counter := g |}
  | (Throw e, _) => Throw e
  | (NoModel, _) => NoModel
  end.

(** The states the application can be in. *)
Inductive reachable : Store → Prop :=
  | reachable_init : reachable initialStore
  | reachable_step w action w' :
      reachable w → dispatch w action = Ok w' → reachable w'.

(** Dispatching a list of actions, all of which the reducer completes. *)
Fixpoint dispatchAll (w : Store) (actions : list ModelAction)
    : Outcome Store :=
  match actions with
  | [] => Ok w
  | a :: rest => do* w' := dispatch w a in dispatchAll w' rest
  end.

(** [n] dispatches of the same action. *)
Definition repeatAction (a : ModelAction) (n : nat) (w : Store)
    : Outcome Store :=
  dispatchAll w (replicate n a).

(** ** Predicates used in the statements *)

(** The actions that are saved to history. *)
Definition significant (a : ModelAction) : Prop := shouldSaveToHistory a = true.

(** The history holds between 1 and 50 entries and the index points at one
    of them. *)
Definition historyOk (s : ModelState) : Prop :=
  1 ≤ length (history s) ≤ 50
  ∧ (0 ≤ historyIndex s < Z.of_nat (length (history s)))%Z.

(** The index points at the last entry. *)
Definition historyAtEnd (s : ModelState) : Prop :=
  historyIndex s = (Z.of_nat (length (history s)) - 1)%Z.

(** The states a run goes through, one per action. *)
Fixpoint dispatchTrace (w : Store) (actions : list ModelAction)
    : Outcome (list Store) :=
  match actions with
  | [] => Ok []
  | a :: rest =>
      do* w' := dispatch w a in
      do* tr := dispatchTrace w' rest in
      Ok (w' :: tr)
  end.

(** The state that UNDO and REDO build from the history entry at [i]. *)
Definition restored (s : ModelState) (i : nat) : option ModelState :=
  (λ e, {| model := model e; selection := selection e;
           history := history s; historyIndex := Z.of_nat i |})
  <$> history s !! i.

(** No [children] array of the nodes holds [undefined]. *)
Definition noUndefined (ns : Nodes) : Prop :=
  ∀ k n cs, ns !! k = Some n → children n = Some cs → Undefined ∉ cs.


(** Whether a call returned a value. *)
Definition completes {A} (o : Outcome A) : bool :=
  match o with
  | Ok _ => true
  | _ => false
  end.


(** The three vectors of a transform and the three axes of a vector, to
    speak of one coordinate at a time. *)
Inductive Field := Position | Rotation | Scale.

Inductive Axis := AxisX | AxisY | AxisZ.

Definition fieldOf (f : Field) (t : Transform) : Vec3 :=
  match f with
  | Position => position t
  | Rotation => rotation t
  | Scale => scale t
  end.

Definition axisOf (a : Axis) (v : Vec3) : number :=
  match a with
  | AxisX => vx v
  | AxisY => vy v
  | AxisZ => vz v
  end.

Definition partialField (f : Field) (p : PartialTransform)
    : option PartialVec3 :=
  match f with
  | Position => pposition p
  | Rotation => protation p
  | Scale => pscale p
  end.

Definition partialAxis (a : Axis) (q : PartialVec3) : option number :=
  match a with
  | AxisX => px q
  | AxisY => py q
  | AxisZ => pz q
  end.

(** The value a partial transform gives for a coordinate, if it mentions
    it. *)
Definition mentioned (p : PartialTransform) (f : Field) (a : Axis)
    : option number :=
  partialField f p ≫= partialAxis a.


(** ** The tree of a model *)

(** [k] is an entry of the children list of the assembly stored under
    [p]. *)
Definition child (ns : Nodes) (p k : NodeId) : Prop :=
  ∃ n, ns !! p = Some n ∧ Ref k ∈ childrenOf n.

(** A tree on the keys [D] with edges [E]: every edge joins two keys, a key
    has at most one parent, every key is reached from the root, and no key
    is its own ancestor. *)
Record rooted (root : NodeId) (D : NodeId → Prop) (E : relation NodeId)
    : Prop := {
  rooted_root : D root;
  rooted_closed : ∀ x y, E x y → D x ∧ D y;
  rooted_unique : ∀ p q k, E p k → E q k → p = q;
  rooted_connected : ∀ k, D k → rtc E root k;
  rooted_acyclic : ∀ k, ¬ tc E k k
}.

(** The invariants of a [Model]: identifiers are non-empty strings, the
    assemblies are the nodes that carry a children list, the entries of the
    lists are identifiers of nodes, and the lists form a tree under the
    root, which is an assembly. *)
Record wellFormed (m : Model) : Prop := {
  wf_keys : nodes m !! "" = None;
  wf_shape : ∀ k n, nodes m !! k = Some n →
             (type n = assembly ↔ is_Some (children n));
  wf_entries : ∀ p n cs c, nodes m !! p = Some n → children n = Some cs →
               c ∈ cs → ∃ k, c = Ref k ∧ is_Some (nodes m !! k);
  wf_tree : rooted (rootId m) (λ k, is_Some (nodes m !! k))
                   (child (nodes m));
  wf_root : ∃ r, nodes m !! rootId m = Some r ∧ type r = assembly
}.



(** Every chain of children that starts at [x] has fewer than [f] nodes
    below [x]. *)
Fixpoint heightLt (ns : Nodes) (f : nat) (x : NodeId) : Prop :=
  match f with
  | 0 => False
  | S f' => ∀ k, child ns x k → heightLt ns f' k
  end.


(** The keys that [getDescendants] lists, as a set. *)
Definition descendantSet (nodeId : NodeId) (m : Model) : gset NodeId :=
  list_to_set (toKey <$> getDescendants nodeId m).


(** ** Duplication: the relation between a subtree and its copy *)

(** [k] is one of the identifiers generated from counter [g] up to, but
    not including, [g']. *)
Definition inRange (g g' : nat) (k : NodeId) : Prop :=
  ∃ i, g ≤ i < g' ∧ k = idOf i.

(** [cn], stored under [c], has the fields of [xn] except for its
    identifier, the suffix of its name and its children. *)
Definition isCopy (xn cn : ModelNode) (c : NodeId) : Prop :=
  nid cn = c
  ∧ type cn = type xn
  ∧ name cn = name xn +:+ " (copy)"
  ∧ transform cn = transform xn
  ∧ visible cn = visible xn
  ∧ primitiveType cn = primitiveType xn
  ∧ properties cn = properties xn
  ∧ color cn = color xn.

(** The entries [dst] are, position by position, copies of the entries
    [src], where [copyOf] maps the key of a copy to the key of its
    source. *)
Definition copiedEntries (copyOf : gmap NodeId NodeId)
    (src dst : list ChildRef) : Prop :=
  Forall2 (λ s d, ∃ ks kd, s = Ref ks ∧ d = Ref kd
                           ∧ copyOf !! kd = Some ks) src dst.

(** The children of the copy [cn] of [xn]: none for a primitive, and for
    an assembly the copies of the children of [xn] in the same order. *)
Definition copiedChildren (copyOf : gmap NodeId NodeId)
    (xn cn : ModelNode) : Prop :=
  match type xn with
  | primitive => children cn = children xn
  | assembly => ∃ cs', children cn = Some cs'
                       ∧ copiedEntries copyOf (childrenOf xn) cs'
  end.

(** What "Add to parent" leaves under the key of the parent. *)
Definition attach (o : option ModelNode) (c : NodeId) : option ModelNode :=
  match o with
  | Some qn =>
      if decide (type qn = assembly)
      then Some (withChildren qn (default [] (children qn) ++ [Ref c]))
      else Some qn
  | None => None
  end.

(** The edges between copies. *)
Definition copyEdge (copyOf : gmap NodeId NodeId) (ns : Nodes)
    : relation NodeId :=
  λ x y, is_Some (copyOf !! x) ∧ child ns x y.

(** The nodes [ns'] hold, under the keys of [copyOf], copies of nodes of
    [base], with the children lists of [base] mirrored, each copy under at
    most one copy. *)
Record copies (base ns' : Nodes) (copyOf : gmap NodeId NodeId) : Prop := {
  cp_nodes : ∀ c x, copyOf !! c = Some x →
             ∃ xn cn, base !! x = Some xn ∧ ns' !! c = Some cn
                      ∧ isCopy xn cn c ∧ copiedChildren copyOf xn cn;
  cp_unique : ∀ x1 x2 y, copyEdge copyOf ns' x1 y →
                         copyEdge copyOf ns' x2 y → x1 = x2
}.

(** [ns'] is [ns] with a copy of the subtree of [s] in [base] added under
    the fresh keys of [copyOf], generated from [g] to [g'], the copy of [s]
    itself under the first of them, and attached to [q]. *)
Record copied (base ns ns' : Nodes) (copyOf : gmap NodeId NodeId)
    (s q : NodeId) (g g' : nat) : Prop := {
  cd_range : ∀ c, is_Some (copyOf !! c) ↔ inRange g g' c;
  cd_top : copyOf !! idOf g = Some s;
  cd_source : ∀ c x, copyOf !! c = Some x → rtc (child base) s x;
  cd_cover : ∀ x, rtc (child base) s x → ∃ c, copyOf !! c = Some x;
  cd_copies : copies base ns' copyOf;
  cd_reach : ∀ c, is_Some (copyOf !! c) →
             rtc (copyEdge copyOf ns') (idOf g) c;
  cd_top_orphan : ∀ x, ¬ copyEdge copyOf ns' x (idOf g);
  cd_other : ∀ k, copyOf !! k = None → k ≠ q → ns' !! k = ns !! k;
  cd_attach : ns' !! q = attach (ns !! q) (idOf g)
}.

(** The same for the loop over the children [todo] of a node that is being
    copied under [newId]: [rs] are the copies of the children. *)
Record copiedAll (base ns ns' : Nodes) (copyOf : gmap NodeId NodeId)
    (todo rs : list ChildRef) (newId : NodeId) (g g' : nat) : Prop := {
  ca_range : ∀ c, is_Some (copyOf !! c) ↔ inRange g g' c;
  ca_roots : copiedEntries copyOf todo rs;
  ca_source : ∀ c x, copyOf !! c = Some x →
              ∃ k, Ref k ∈ todo ∧ rtc (child base) k x;
  ca_cover : ∀ k x, Ref k ∈ todo → rtc (child base) k x →
             ∃ c, copyOf !! c = Some x;
  ca_copies : copies base ns' copyOf;
  ca_reach : ∀ c, is_Some (copyOf !! c) →
             ∃ r, Ref r ∈ rs ∧ rtc (copyEdge copyOf ns') r c;
  ca_roots_orphan : ∀ x r, Ref r ∈ rs → ¬ copyEdge copyOf ns' x r;
  ca_roots_range : ∀ r, Ref r ∈ rs → inRange g g' r;
  ca_other : ∀ k, copyOf !! k = None → k ≠ newId → ns' !! k = ns !! k;
  ca_parent : ∀ dn dcs, ns !! newId = Some dn → type dn = assembly →
              children dn = Some dcs →
              ns' !! newId = Some (withChildren dn (dcs ++ rs))
}.

(** What a call of [duplicateNode] can rely on: the nodes [ns] agree with
    [base] on the keys of [base], the identifiers from [g] on are unused,
    and the parent [q], if an assembly, has a children list. *)
Record dupReady (base ns : Nodes) (q : NodeId) (g : nat) : Prop := {
  dr_agree : ∀ x, is_Some (base !! x) → ns !! x = base !! x;
  dr_fresh : ∀ i, g ≤ i → ns !! idOf i = None;
  dr_parent : ∀ i, g ≤ i → q ≠ idOf i;
  dr_shape : ∀ qn, ns !! q = Some qn → type qn = assembly →
             is_Some (children qn)
}.


(** ** The states reached by well-behaved dispatches *)

(** The identifiers that [generateId] returns from counter [g] on are not
    keys of the nodes. *)
Definition unused (g : nat) (ns : Nodes) : Prop :=
  ∀ i, g ≤ i → ns !! idOf i = None.

(** The actions that the invariants of the model are proved for: a
    REORDER_CHILDREN whose [fromIndex] is below the length of the children
    list, so that the removal yields an element, an UPDATE_NODE that leaves
    [type] and [children] alone, a MOVE_NODE of an existing node, and every
    other action. *)
Definition benign (s : ModelState) (a : ModelAction) : Prop :=
  match a with
  | REORDER_CHILDREN parentId fromIndex _ =>
      ∀ n cs, nodes (model s) !! parentId = Some n → children n = Some cs →
              (fromIndex < Z.of_nat (length cs))%Z ∧ cs ≠ []
  | UPDATE_NODE _ u => u_type u = None ∧ u_children u = None
  | MOVE_NODE nodeId _ => is_Some (nodes (model s) !! nodeId)
  | _ => True
  end.

(** The states reached from the initial one by dispatches that the reducer
    completes and that satisfy [P] in the state they are dispatched in. *)
Inductive reachableBy (P : ModelState → ModelAction → Prop)
    : Store → Prop :=
  | reachableBy_init : reachableBy P initialStore
  | reachableBy_step w action w' :
      reachableBy P w → P (current w) action → dispatch w action = Ok w' →
      reachableBy P w'.

(** The invariant of the store: the model is well-formed, the counter is
    ahead of its keys, and the same holds of every history entry. *)
Definition sound (w : Store) : Prop :=
  wellFormed (model (current w))
  ∧ unused (counter w) (nodes (model (current w)))
  ∧ historyOk (current w)
  ∧ Forall (λ e, wellFormed (model e)
                 ∧ unused (counter w) (nodes (model e)))
           (history (current w)).

(** ** Actions that are not applied *)

(** The reducer completes [a], which takes the counter from [g] to [g'],
    without applying it: model and selection are those of [state], and the
    state returned is [state] with the snapshot of the unchanged model
    saved to history. *)
Definition ignored (state : ModelState) (a : ModelAction) (g g' : nat)
    : Prop :=
  ∃ s', modelReducer state a g = (Ok s', g')
        ∧ s' = saveToHistory state state
        ∧ model s' = model state
        ∧ selection s' = selection state.

(** ** The tree panel ([components/ModelTree/ModelTree.tsx],
    [components/ModelTree/TreeControls.tsx]) *)

(** [l.indexOf(k)] for an identifier [k]: the position of the first entry
    that is [k], or -1. *)
Definition indexOf (l : list ChildRef) (k : NodeId) : Z :=
  match list_find (λ c, c = Ref k) l with
  | Some (i, _) => Z.of_nat i
  | None => (-1)%Z
  end.

(** The identifier a drag ends over: [over.id], without the prefix
    ["drop-"] when it is the droppable of an assembly. *)
Definition overTarget (overRaw : string) : NodeId :=
  if String.prefix "drop-" overRaw
  then String.substring 5 (String.length overRaw - 5) overRaw
  else overRaw.

(** [handleDragEnd] of [ModelTree]: the action it dispatches, if any, for
    the dragged node [activeId] and the [over] of the event ([None] is
    [null]). *)
Definition handleDragEnd (state : ModelState) (activeId : NodeId)
    (over : option string) : Outcome (option ModelAction) :=
  match over with
  | None => Ok None
  | Some overRaw =>
      if decide (activeId = overRaw) then Ok None
      else
        let overId := overTarget overRaw in
        let overNode := nodes (model state) !! overId in
        let moved :=
          match overNode with
          | Some n =>
              if decide (type n = assembly) then
                let activeParent := findParent activeId (model state) in
                if decide (activeParent ≠ Some overId) then
                  if validateTreeMove activeId overId (model state)
                  then Some (MOVE_NODE activeId overId)
                  else None
                else None
              else None
          | None => None
          end in
        match moved with
        | Some a => Ok (Some a)
        | None =>
            let activeParent := findParent activeId (model state) in
            let overParent := findParent overId (model state) in
            if truthy activeParent && truthy overParent
               && bool_decide (activeParent = overParent)
               && bool_decide (activeParent ≠ Some overId)
               && bool_decide (Some overId ≠ activeParent)
            then
              let parentKey := default "" activeParent in
              match nodes (model state) !! parentKey with
              | Some parentNode =>
                  if decide (type parentNode = assembly) then
                    do* children := childArray parentNode in
                    let fromIndex := indexOf children activeId in
                    let toIndex := indexOf children overId in
                    if decide (fromIndex ≠ (-1)%Z ∧ toIndex ≠ (-1)%Z)
                    then Ok (Some (REORDER_CHILDREN parentKey
                                     fromIndex toIndex))
                    else Ok None
                  else Ok None
              | None => Ok None
              end
            else Ok None
        end
  end.

(** The [parentId] that [TreeControls] computes: the selected node if it
    is an assembly, the parent of a selected primitive, and the root when
    nothing is selected, the selected node is missing or no parent is
    found. *)
Definition TreeControls_parentId (state : ModelState) : NodeId :=
  let selected :=
    if truthy (selectedNodeId (selection state))
    then default "" (selectedNodeId (selection state))
    else rootId (model state) in
  match nodes (model state) !! selected with
  | Some selectedNode =>
      if decide (type selectedNode = assembly) then selected
      else
        let parent := findParent selected (model state) in
        if truthy parent then default "" parent else rootId (model state)
  | None => rootId (model state)
  end.

(** [handleAddPrimitive] and [handleAddAssembly] of [TreeControls]: the
    action dispatched. The name comes from [getNextPrimitiveName] and
    [getNextAssemblyName] of [utils/nameGenerator.ts], which is not among
    the sources; it is an argument here. *)
Definition handleAddPrimitive (state : ModelState) (pt : PrimitiveType)
    (nm : string) : ModelAction :=
  ADD_PRIMITIVE (TreeControls_parentId state) pt nm.

Definition handleAddAssembly (state : ModelState) (nm : string)
    : ModelAction :=
  ADD_ASSEMBLY (TreeControls_parentId state) nm.

(** ** The colour field of the property panel
    ([components/PropertyPanel/PropertyPanel.tsx]) *)

(** A character of the class [[0-9A-Fa-f]]. *)
Definition isHexDigit (c : Ascii.ascii) : bool :=
  let n := Ascii.nat_of_ascii c in
  (48 <=? n) && (n <=? 57) || (65 <=? n) && (n <=? 70)
  || (97 <=? n) && (n <=? 102).

(** [/^[0-9A-Fa-f]{lo,hi}$/.test(value)]. *)
Definition hexDigits (lo hi : nat) (value : string) : bool :=
  forallb isHexDigit (String.list_ascii_of_string value)
  && (lo <=? String.length value) && (String.length value <=? hi).

(** The updates [{ color: c }]. *)
Definition colorUpdates (c : string) : NodeUpdates :=
  {| u_id := None; u_type := None; u_name := None; u_transform := None;
     u_visible := None; u_primitiveType := None; u_properties := None;
     u_color := Some c; u_children := None |}.

(** The [onChange] handler of the text input of the colour: the action it
    dispatches, if any, when the text is [value]. *)
Definition colorTextChange (selectedNodeId : NodeId) (value : string)
    : option ModelAction :=
  if hexDigits 0 6 value then
    let hexValue :=
      if 0 <? String.length value then "#" +:+ value else "#ffffff" in
    Some (UPDATE_NODE selectedNodeId (colorUpdates hexValue))
  else None.

(** The [onBlur] handler of the same input. *)
Definition colorTextBlur (selectedNodeId : NodeId) (value : string)
    : option ModelAction :=
  if negb (hexDigits 6 6 value) then
    Some (UPDATE_NODE selectedNodeId (colorUpdates "#ffffff"))
  else if 0 <? String.length value then
    Some (UPDATE_NODE selectedNodeId (colorUpdates ("#" +:+ value)))
  else None.

(** ** Invariants of every run *)





(** The actions that can change [selectedNodeId]. *)
Definition selects (a : ModelAction) : bool :=
  match a with
  | ADD_PRIMITIVE _ _ _ | DELETE_NODE _ | SELECT_NODE _ | DUPLICATE_NODE _
  | UNDO | REDO => true
  | _ => false
  end.

(** * Properties of the reducer *)


(** ** History: bounds *)

Lemma reducer_significant state a g :
  significant a →
  modelReducer state a g =
    match applyAction state a g with
    | (Ok newState, g') => (Ok (saveToHistory state newState), g')
    | (Throw e, g') => (Throw e, g')
    | (NoModel, g') => (NoModel, g')
    end.
Proof.
  intros Hs. destruct a; try discriminate Hs;
    cbv [modelReducer bind ret shouldSaveToHistory];
    destruct (applyAction _ _ g) as [[?|?|] ?]; reflexivity.
Qed.

Lemma relativeIndex_in_range len (i : Z) :
  (0 ≤ i ≤ Z.of_nat len)%Z → relativeIndex len i = Z.to_nat i.
Proof.
  intros H. unfold relativeIndex.
  destruct (Z.ltb_spec i 0); lia.
Qed.

Lemma slice0_in_range {A} (l : list A) (i : Z) :
  (0 ≤ i ≤ Z.of_nat (length l))%Z → slice0 l i = take (Z.to_nat i) l.
Proof. intros H. unfold slice0. by rewrite relativeIndex_in_range. Qed.

Lemma saveToHistory_model state newState :
  model (saveToHistory state newState) = model newState
  ∧ selection (saveToHistory state newState) = selection newState.
Proof. unfold saveToHistory. by destruct (_ <? _). Qed.

(** What the post-processing stores when the index is in range. *)
Lemma saveToHistory_history state newState :
  historyOk state →
  let pushed := take (Z.to_nat (historyIndex state + 1)) (history state)
                ++ [snapshot newState] in
  history (saveToHistory state newState)
    = (if decide (50 < length pushed) then drop 1 pushed else pushed)
  ∧ historyIndex (saveToHistory state newState)
    = (if decide (50 < length pushed) then 49%Z
       else (Z.of_nat (length pushed) - 1)%Z).
Proof.
  intros [Hlen Hidx]. simpl. unfold saveToHistory.
  rewrite slice0_in_range by lia.
  destruct (Nat.ltb_spec 50
    (length (take (Z.to_nat (historyIndex state + 1)) (history state)
             ++ [snapshot newState]))) as [H|H];
    destruct (decide _); try lia; simpl; split; try done.
Qed.

Lemma saveToHistory_ok state newState :
  historyOk state →
  historyOk (saveToHistory state newState)
  ∧ historyAtEnd (saveToHistory state newState).
Proof.
  intros Hok. pose proof Hok as [Hlen Hidx].
  destruct (saveToHistory_history state newState Hok) as [Hh Hi].
  unfold historyOk, historyAtEnd. rewrite Hh, Hi. clear Hh Hi.
  set (pushed := take _ _ ++ _).
  assert (length pushed = S (Z.to_nat (historyIndex state + 1)) ∨ False) as [Hp|[]].
  { left. unfold pushed. rewrite length_app, length_take. simpl. lia. }
  destruct (decide _); rewrite ?length_drop; lia.
Qed.

Lemma at_index_in_range {A} (l : list A) (i : Z) :
  (0 ≤ i < Z.of_nat (length l))%Z → is_Some (at_index l i).
Proof.
  intros H. unfold at_index. destruct (Z.ltb_spec i 0); [lia|].
  apply lookup_lt_is_Some. lia.
Qed.

Lemma undo_ok state :
  historyOk state →
  ∃ s', undo state = Ok s' ∧ historyOk s' ∧ history s' = history state.
Proof.
  intros [Hlen Hidx]. unfold undo.
  destruct (Z.ltb_spec 0 (historyIndex state)).
  - destruct (at_index_in_range (history state) (historyIndex state - 1))
      as [e He]; [lia|].
    rewrite He. simpl. eexists; split; [done|]. unfold historyOk; simpl.
    split; [|done]. lia.
  - eexists; split; [done|]. by split.
Qed.

Lemma redo_ok state :
  historyOk state →
  ∃ s', redo state = Ok s' ∧ historyOk s' ∧ history s' = history state.
Proof.
  intros [Hlen Hidx]. unfold redo.
  destruct (Z.ltb_spec (historyIndex state)
              (Z.of_nat (length (history state)) - 1)).
  - destruct (at_index_in_range (history state) (historyIndex state + 1))
      as [e He]; [lia|].
    rewrite He. simpl. eexists; split; [done|]. unfold historyOk; simpl.
    split; [|done]. lia.
  - eexists; split; [done|]. by split.
Qed.

Lemma dispatch_Ok w a w' :
  dispatch w a = Ok w' →
  modelReducer (current w) a (counter w) = (Ok (current w'), counter w').
Proof.
  unfold dispatch. destruct (modelReducer _ _ _) as [[s| |] g]; try done.
  by intros [= <-].
Qed.

Lemma dispatch_historyOk w a w' :
  historyOk (current w) → dispatch w a = Ok w' → historyOk (current w').
Proof.
  intros Hok Hd. apply dispatch_Ok in Hd.
  destruct (shouldSaveToHistory a) eqn:Hs.
  - rewrite reducer_significant in Hd by done.
    destruct (applyAction _ _ _) as [[ns| |] g]; try done.
    injection Hd as <- _. by apply saveToHistory_ok.
  - destruct a; try discriminate Hs; simpl in Hd.
    + injection Hd as <- _. done.
    + destruct (undo_ok _ Hok) as (s' & Hu & Hok' & _).
      unfold lift in Hd. rewrite Hu in Hd. by injection Hd as <- _.
    + destruct (redo_ok _ Hok) as (s' & Hu & Hok' & _).
      unfold lift in Hd. rewrite Hu in Hd. by injection Hd as <- _.
Qed.

Lemma initialStore_historyOk : historyOk (current initialStore).
Proof. vm_compute. repeat split; (lia || discriminate || done). Qed.

Lemma reachable_historyOk w : reachable w → historyOk (current w).
Proof.
  induction 1; [apply initialStore_historyOk|].
  by eapply dispatch_historyOk.
Qed.

(** ** History: contents *)

Lemma dispatchTrace_all w actions w' :
  dispatchAll w actions = Ok w' →
  ∃ tr, dispatchTrace w actions = Ok tr
        ∧ length tr = length actions
        ∧ last (w :: tr) = Some w'.
Proof.
  revert w. induction actions as [|a rest IH]; intros w; simpl.
  - intros [= <-]. by exists [].
  - destruct (dispatch w a) as [w1| |]; simpl; try done.
    intros H. destruct (IH _ H) as (tr & -> & Hl & Hlast). simpl.
    exists (w1 :: tr). split; [done|]. split; [simpl; lia|].
    by rewrite last_cons_cons.
Qed.

Lemma dispatchTrace_prefix w actions tr k wk :
  dispatchTrace w actions = Ok tr →
  (w :: tr) !! k = Some wk →
  dispatchAll w (take k actions) = Ok wk.
Proof.
  revert w tr k. induction actions as [|a rest IH]; intros w tr k; simpl.
  - intros [= <-]. destruct k; simpl; [|done].
    intros [= <-]. done.
  - destruct (dispatch w a) as [w1| |] eqn:Hd; simpl; try done.
    destruct (dispatchTrace w1 rest) as [tr1| |] eqn:Ht; simpl; try done.
    intros [= <-]. destruct k as [|k]; simpl.
    + by intros [= <-].
    + rewrite Hd. simpl. intros Hk. by eapply IH.
Qed.

Lemma drop_last_50 {A} (h rest : list A) (x : A) :
  length h ≤ 50 →
  let pushed := h ++ [x] in
  let kept := if decide (50 < length pushed) then drop 1 pushed else pushed in
  drop (length (kept ++ rest) - 50) (kept ++ rest)
  = drop (length (h ++ x :: rest) - 50) (h ++ x :: rest).
Proof.
  intros Hh pushed kept.
  assert (h ++ x :: rest = pushed ++ rest) as ->.
  { unfold pushed. by rewrite <- app_assoc. }
  assert (length pushed = S (length h)) as Hp.
  { unfold pushed. rewrite length_app. simpl. lia. }
  unfold kept. destruct (decide _) as [Hgt|Hle]; [|done].
  rewrite <- (drop_app_le pushed rest 1) by lia.
  rewrite drop_drop. f_equal.
  rewrite length_drop, !length_app. lia.
Qed.

(** After a run of saved actions that starts with the index at the end, the
    history is the last 50 of the old entries followed by the snapshots of
    the states of the run. *)
Lemma dispatchTrace_history actions w tr w' :
  Forall significant actions →
  historyOk (current w) → historyAtEnd (current w) →
  dispatchTrace w actions = Ok tr →
  last (w :: tr) = Some w' →
  let all := history (current w) ++ ((λ v, snapshot (current v)) <$> tr) in
  history (current w') = drop (length all - 50) all
  ∧ historyAtEnd (current w') ∧ historyOk (current w').
Proof.
  intros Hsig. revert w tr.
  induction Hsig as [|a rest Ha Hrest IH]; intros w tr Hok Hend; simpl.
  - intros [= <-] [= <-]. simpl. rewrite app_nil_r.
    pose proof Hok as [Hlen _].
    replace (length (history (current w)) - 50) with 0 by lia. done.
  - destruct (dispatch w a) as [w1| |] eqn:Hd; simpl; try done.
    destruct (dispatchTrace w1 rest) as [tr1| |] eqn:Ht; simpl; try done.
    intros [= <-] Hlast. rewrite last_cons_cons in Hlast.
    apply dispatch_Ok in Hd. rewrite reducer_significant in Hd by done.
    destruct (applyAction _ _ _) as [[ns| |] g]; try done.
    injection Hd as Hcur _.
    destruct (saveToHistory_ok (current w) ns Hok) as [Hok1 Hend1].
    destruct (saveToHistory_history (current w) ns Hok) as [Hh1 _].
    rewrite Hcur in Hok1, Hend1, Hh1.
    destruct (IH w1 tr1 Hok1 Hend1 Ht Hlast) as (Hh & Hend' & Hok').
    split; [|done]. rewrite Hh, Hh1. simpl.
    assert (snapshot (current w1) = snapshot ns) as ->.
    { rewrite <- Hcur. unfold snapshot.
      by destruct (saveToHistory_model (current w) ns) as [-> ->]. }
    unfold historyAtEnd in Hend. rewrite Hend.
    replace (Z.to_nat (Z.of_nat (length (history (current w))) - 1 + 1))
      with (length (history (current w))) by lia.
    rewrite firstn_all.
    apply (drop_last_50 (history (current w))). apply Hok.
Qed.

(** *** UNDO and REDO along the history *)

Lemma dispatch_undo w :
  dispatch w UNDO
  = do* s := undo (current w) in Ok {| current := s; counter := counter w |}.
Proof.
  unfold dispatch. simpl. unfold lift. by destruct (undo _).
Qed.


Lemma restored_history s i s' :
  restored s i = Some s' →
  history s' = history s ∧ historyIndex s' = Z.of_nat i.
Proof.
  unfold restored. destruct (history s !! i); simpl; [|done].
  by intros [= <-].
Qed.

Lemma restored_again s i s' j :
  restored s i = Some s' → restored s' j = restored s j.
Proof.
  intros H. apply restored_history in H as [Hh _].
  unfold restored. by rewrite Hh.
Qed.

Lemma undo_step s (i : nat) :
  historyIndex s = Z.of_nat (S i) →
  undo s = match restored s i with Some s' => Ok s' | None => NoModel end.
Proof.
  intros Hi. unfold undo, restored, restore, at_index. rewrite Hi.
  destruct (Z.ltb_spec 0 (Z.of_nat (S i))); [|lia].
  destruct (Z.ltb_spec (Z.of_nat (S i) - 1) 0); [lia|].
  replace (Z.to_nat (Z.of_nat (S i) - 1)) with i by lia.
  replace (Z.of_nat (S i) - 1)%Z with (Z.of_nat i) by lia.
  by destruct (history s !! i).
Qed.

Lemma undo_at_zero s : historyIndex s = 0%Z → undo s = Ok s.
Proof. intros Hi. unfold undo. by rewrite Hi. Qed.

Lemma redo_step s (i : nat) :
  historyIndex s = Z.of_nat i → S i < length (history s) →
  redo s = match restored s (S i) with Some s' => Ok s' | None => NoModel end.
Proof.
  intros Hi Hlt. unfold redo, restored, restore, at_index. rewrite Hi.
  destruct (Z.ltb_spec (Z.of_nat i) (Z.of_nat (length (history s)) - 1));
    [|lia].
  destruct (Z.ltb_spec (Z.of_nat i + 1) 0); [lia|].
  replace (Z.to_nat (Z.of_nat i + 1)) with (S i) by lia.
  replace (Z.of_nat i + 1)%Z with (Z.of_nat (S i)) by lia.
  by destruct (history s !! S i).
Qed.

Lemma redo_at_end s :
  historyAtEnd s → redo s = Ok s.
Proof.
  unfold historyAtEnd. intros Hi. unfold redo. rewrite Hi.
  by rewrite Z.ltb_irrefl.
Qed.

(** [k] UNDOs, [1 ≤ k ≤ i], from index [i] lead to the entry at [i - k]. *)
Lemma undo_iter k : ∀ w (i : nat),
  historyIndex (current w) = Z.of_nat i →
  i < length (history (current w)) →
  1 ≤ k ≤ i →
  ∃ s', restored (current w) (i - k) = Some s'
        ∧ repeatAction UNDO k w = Ok {| current := s'; counter := counter w |}.
Proof.
  induction k as [|k IH]; intros w i Hi Hlen Hk; [lia|].
  destruct i as [|i]; [lia|].
  unfold repeatAction. simpl. rewrite dispatch_undo, (undo_step _ i Hi).
  destruct (lookup_lt_is_Some_2 (history (current w)) i) as [e He]; [lia|].
  set (s1 := {| model := model e; selection := selection e;
               history := history (current w);
               historyIndex := Z.of_nat i |}).
  assert (restored (current w) i = Some s1) as Hs1.
  { unfold restored. by rewrite He. }
  rewrite Hs1. simpl.
  destruct (decide (k = 0)) as [->|Hk0].
  - exists s1. split; [|done]. rewrite <- Hs1. f_equal. lia.
  - destruct (IH {| current := s1; counter := counter w |} i) as (s' & Hr & Hrun).
    + done.
    + simpl. lia.
    + lia.
    + simpl in Hr. rewrite (restored_again _ _ _ _ Hs1) in Hr.
      exists s'. split; [rewrite <- Hr; f_equal; lia|].
      apply Hrun.
Qed.

(** At index 0 further UNDOs change nothing. *)
Lemma undo_stuck k w :
  historyIndex (current w) = 0%Z → repeatAction UNDO k w = Ok w.
Proof.
  intros Hi. unfold repeatAction.
  induction k as [|k IH]; simpl; [done|].
  rewrite dispatch_undo, undo_at_zero by done. simpl.
  by destruct w.
Qed.


(** ** The JSON round trip *)

Lemma jsonChild_id (cs : list ChildRef) :
  Undefined ∉ cs → jsonChild <$> cs = cs.
Proof.
  induction cs as [|c cs IH]; [done|].
  intros Hc. rewrite not_elem_of_cons in Hc. destruct Hc as [Hc Hcs].
  rewrite fmap_cons, IH by done. by destruct c.
Qed.

Lemma jsonClone_id ns : noUndefined ns → jsonClone ns = ns.
Proof.
  intros Hns. apply map_eq. intros k. unfold jsonClone.
  rewrite lookup_fmap. destruct (ns !! k) as [n|] eqn:Hk; [|done].
  simpl. f_equal. specialize (Hns k n). destruct n as [? ? ? ? ? ? ? ? [cs|]];
    unfold jsonNode; simpl in *; [|done].
  by rewrite jsonChild_id by eauto.
Qed.

Lemma snapshot_model s :
  noUndefined (nodes (model s)) → model (snapshot s) = model s.
Proof.
  intros H. unfold snapshot. simpl. rewrite jsonClone_id by done.
  by destruct (model s).
Qed.

Lemma initialStore_facts :
  history (current initialStore) = [snapshot (current initialStore)]
  ∧ historyIndex (current initialStore) = 0%Z
  ∧ model (snapshot (current initialStore)) = model (current initialStore).
Proof. by vm_compute. Qed.

(** ** Rejected moves (C2) *)




(** ** Actions on a missing parent (C3) *)

Lemma addPrimitive_missing_parent newNodeId state parentId pt nm :
  nodes (model state) !! parentId = None →
  addPrimitive newNodeId state parentId pt nm = Throw TypeError.
Proof. intros H. unfold addPrimitive, deref. by rewrite H. Qed.

Lemma addAssembly_missing_parent newNodeId state parentId nm :
  nodes (model state) !! parentId = None →
  addAssembly newNodeId state parentId nm = Throw TypeError.
Proof. intros H. unfold addAssembly, deref. by rewrite H. Qed.

Lemma reorderChildren_missing_parent state parentId i j :
  nodes (model state) !! parentId = None →
  reorderChildren state parentId i j = Throw TypeError.
Proof. intros H. unfold reorderChildren, deref. by rewrite H. Qed.

(** C3: the reducer is not total. In the initial state, ADD_PRIMITIVE,
    ADD_ASSEMBLY and REORDER_CHILDREN with a [parentId] that is not a key
    of [model.nodes] read [parent.type] of [undefined] and raise a
    [TypeError], where the claim promises a silent no-op. *)
Theorem missing_parent_raises :
  nodes (model (current initialStore)) !! "missing" = None
  ∧ dispatch initialStore (ADD_PRIMITIVE "missing" box "Mesh 1")
    = Throw TypeError
  ∧ dispatch initialStore (ADD_ASSEMBLY "missing" "Assembly 1")
    = Throw TypeError
  ∧ dispatch initialStore (REORDER_CHILDREN "missing" 0 1)
    = Throw TypeError.
Proof. by vm_compute. Qed.

(** ** Undo and redo over a run (C4, C5) *)

Arguments initialStore : simpl never.


(** A run of saved actions from the initial state: while at most 50
    snapshots exist, the history is all of them in order. *)
Lemma initial_run_history actions tr wn :
  Forall significant actions →
  dispatchTrace initialStore actions = Ok tr →
  last (initialStore :: tr) = Some wn →
  let all := (λ v, snapshot (current v)) <$> (initialStore :: tr) in
  history (current wn) = drop (length all - 50) all
  ∧ historyAtEnd (current wn) ∧ historyOk (current wn).
Proof.
  intros Hsig Htr Hlast.
  destruct initialStore_facts as (Hh0 & _ & _).
  pose proof (dispatchTrace_history actions initialStore tr wn Hsig
    initialStore_historyOk) as H.
  rewrite Hh0 in H. apply H; done.
Qed.


Lemma reachable_dispatchAll actions : ∀ w w',
  reachable w → dispatchAll w actions = Ok w' → reachable w'.
Proof.
  induction actions as [|a rest IH]; intros w w' Hw; simpl.
  - by intros [= <-].
  - destruct (dispatch w a) as [w1| |] eqn:Hd; simpl; try done.
    apply IH. by eapply reachable_step.
Qed.

Lemma completes_Ok {A} (o : Outcome A) :
  completes o = true → ∃ a, o = Ok a.
Proof. destruct o; try discriminate. intros _. by eexists. Defined.




(** C5, as amended. In every reachable state the history has between 1 and
    50 entries; a save at index 49 of a full history evicts the oldest
    entry and leaves the index at 49; and after any 60 saved actions from
    the initial state the history has 50 entries, which are the snapshots
    taken after the actions 11 to 60: the initial snapshot and those of the
    first ten actions, eleven in all, are gone, 49 UNDOs lead to the state
    after the 11th action, and every further UNDO changes nothing. *)
Theorem history_cap
    (w : Store) (state newState : ModelState)
    (actions : list ModelAction) (w60 : Store) :
  reachable w →
  historyOk state → historyIndex state = 49%Z →
  Forall significant actions → length actions = 60 →
  dispatchAll initialStore actions = Ok w60 →
  1 ≤ length (history (current w)) ≤ 50
  ∧ (history (saveToHistory state newState)
       = drop 1 (history state) ++ [snapshot newState]
     ∧ length (history (saveToHistory state newState)) = 50
     ∧ historyIndex (saveToHistory state newState) = 49%Z)
  ∧ length (history (current w60)) = 50
  ∧ historyIndex (current w60) = 49%Z
  ∧ (∀ k, 11 ≤ k ≤ 60 →
       ∃ wk, dispatchAll initialStore (take k actions) = Ok wk
             ∧ history (current w60) !! (k - 11)
               = Some (snapshot (current wk)))
  ∧ ∃ w11 wu,
      dispatchAll initialStore (take 11 actions) = Ok w11
      ∧ repeatAction UNDO 49 w60 = Ok wu
      ∧ model (current wu) = model (snapshot (current w11))
      ∧ selection (current wu) = selection (current w11)
      ∧ historyIndex (current wu) = 0%Z
      ∧ ∀ k, repeatAction UNDO k wu = Ok wu.
Proof.
  intros Hreach Hok Hidx Hsig Hlen Hrun.
  split; [apply (reachable_historyOk _ Hreach)|].
  split.
  { destruct (saveToHistory_history state newState Hok) as [Hh Hi].
    cbv zeta in Hh, Hi. rewrite Hh, Hi, Hidx. clear Hh Hi.
    destruct Hok as [Hl Hi]. rewrite Hidx in Hi.
    assert (length (history state) = 50) as H50 by lia.
    replace (Z.to_nat (49 + 1)) with (length (history state)) by lia.
    rewrite firstn_all.
    destruct (decide _) as [_|Hn];
      [|rewrite length_app in Hn; simpl in Hn; lia].
    rewrite drop_app_le by lia.
    rewrite length_app, length_drop. simpl. split; [done|]. split; [lia|done]. }
  destruct (dispatchTrace_all _ _ _ Hrun) as (tr & Htr & Hltr & Hlast).
  destruct (initial_run_history actions tr w60 Hsig Htr Hlast)
    as (Hh & Hend & _).
  cbv zeta in Hh. rewrite length_fmap, length_cons, Hltr, Hlen in Hh.
  replace (61 - 50) with 11 in Hh by lia.
  assert (length (history (current w60)) = 50) as H50.
  { rewrite Hh, length_drop, length_fmap, length_cons, Hltr, Hlen. lia. }
  assert (historyIndex (current w60) = 49%Z) as H49.
  { unfold historyAtEnd in Hend. rewrite Hend, H50. lia. }
  assert (∀ k, 11 ≤ k ≤ 60 →
       ∃ wk, dispatchAll initialStore (take k actions) = Ok wk
             ∧ history (current w60) !! (k - 11)
               = Some (snapshot (current wk))) as Hsnaps.
  { intros k Hk.
    destruct (lookup_lt_is_Some_2 (initialStore :: tr) k) as [wk Hwk].
    { rewrite length_cons, Hltr, Hlen. lia. }
    exists wk. split; [by eapply dispatchTrace_prefix|].
    rewrite Hh, lookup_drop, list_lookup_fmap.
    replace (11 + (k - 11)) with k by lia. by rewrite Hwk. }
  do 3 (split; [done|]).
  destruct (Hsnaps 11) as (w11 & Hw11 & Hs11); [lia|].
  rewrite Nat.sub_diag in Hs11.
  destruct (undo_iter 49 w60 49) as (su & Hsu & Hundo); [done|lia|lia|].
  rewrite Nat.sub_diag in Hsu.
  exists w11, {| current := su; counter := counter w60 |}.
  destruct (restored_history _ _ _ Hsu) as [_ Hi0].
  unfold restored in Hsu. rewrite Hs11 in Hsu. injection Hsu as <-.
  repeat split; try done.
  intros k. by apply undo_stuck.
Qed.

Lemma sixty_actions_complete :
  completes (dispatchAll initialStore
               (replicate 60 (ADD_ASSEMBLY (idOf 0) "Assembly"))) = true.
Proof. vm_compute. reflexivity. Defined.

Lemma full_history_example :
  (do* w := dispatchAll initialStore
              (replicate 49 (ADD_ASSEMBLY (idOf 0) "Assembly")) in
   Ok (length (history (current w)), historyIndex (current w)))
  = Ok (50, 49%Z).
Proof. vm_compute. reflexivity. Defined.

Lemma history_cap_witness :
  ∃ w60 wu,
    dispatchAll initialStore
      (replicate 60 (ADD_ASSEMBLY (idOf 0) "Assembly")) = Ok w60
    ∧ length (history (current w60)) = 50
    ∧ repeatAction UNDO 49 w60 = Ok wu
    ∧ historyIndex (current wu) = 0%Z.
Proof.
  destruct (completes_Ok _ sixty_actions_complete) as [w60 Hrun].
  pose proof full_history_example as H49.
  destruct (dispatchAll initialStore
              (replicate 49 (ADD_ASSEMBLY (idOf 0) "Assembly")))
    as [w49| |]; try discriminate H49.
  injection H49 as Hl49 Hi49.
  destruct (history_cap initialStore (current w49) (current w49)
              (replicate 60 (ADD_ASSEMBLY (idOf 0) "Assembly")) w60)
    as (_ & _ & H50 & _ & _ & w11 & wu & _ & Hundo & _ & _ & Hi & _).
  - apply reachable_init.
  - unfold historyOk. rewrite Hl49, Hi49. lia.
  - exact Hi49.
  - simpl. repeat constructor.
  - reflexivity.
  - exact Hrun.
  - exists w60, wu. repeat split; assumption.
Defined.

Lemma sixty_actions_undos :
  (do* w60 := dispatchAll initialStore
                (replicate 60 (ADD_ASSEMBLY (idOf 0) "Assembly")) in
   do* w49 := repeatAction UNDO 49 w60 in
   do* w50 := dispatch w49 UNDO in
   Ok (historyIndex (current w49),
       length (getChildren (idOf 0) (model (current w49))),
       historyIndex (current w50),
       length (getChildren (idOf 0) (model (current w50)))))
  = Ok (0%Z, 11, 0%Z, 11).
Proof. vm_compute. reflexivity. Qed.

(** C5 fails as stated: after 60 saved actions UNDO is effective 49 times,
    not 50. The 49th UNDO reaches index 0, where the root has the eleven
    children of the state after the 11th action, and the 50th UNDO returns
    the same state: the snapshot after the 10th action, the eleventh
    oldest, cannot be recovered either. *)
Lemma undo_stops_after_49_steps :
  ∃ w60 w49,
    dispatchAll initialStore
      (replicate 60 (ADD_ASSEMBLY (idOf 0) "Assembly")) = Ok w60
    ∧ repeatAction UNDO 49 w60 = Ok w49
    ∧ historyIndex (current w49) = 0%Z
    ∧ length (getChildren (idOf 0) (model (current w49))) = 11
    ∧ dispatch w49 UNDO = Ok w49
    ∧ repeatAction UNDO 50 w60 = Ok w49.
Proof.
  pose proof sixty_actions_undos as H.
  destruct (dispatchAll _ _) as [w60| |] eqn:E1; try discriminate H.
  simpl in H.
  destruct (repeatAction UNDO 49 w60) as [w49| |] eqn:E2;
    try discriminate H.
  simpl in H.
  destruct (dispatch w49 UNDO) as [w50| |] eqn:E3; try discriminate H.
  injection H as H0 H11 _ _.
  exists w60, w49. do 4 (split; [done|]).
  assert (dispatch w49 UNDO = Ok w49) as Hstuck.
  { rewrite dispatch_undo, undo_at_zero by done. by destruct w49. }
  split; [done|].
  unfold repeatAction in *.
  change 50 with (49 + 1). rewrite replicate_add.
  clear E1. revert E2. generalize (replicate 49 UNDO) as us.
  intros us. revert w60. induction us as [|u us IH]; intros w60; simpl.
  - intros [= ->]. by rewrite Hstuck.
  - destruct (dispatch w60 u); simpl; try done. apply IH.
Qed.

(** ** UPDATE_TRANSFORM (C8) *)

Lemma mergeTransform_axis t p f a :
  axisOf a (fieldOf f (mergeTransform t p))
  = default (axisOf a (fieldOf f t)) (mentioned p f a).
Proof.
  unfold mentioned. destruct f; simpl;
    (destruct (_ p) as [q|]; simpl; [|done]); destruct a; simpl; done.
Qed.

(** C8. UPDATE_TRANSFORM on an existing node replaces exactly the
    coordinates that the partial transform mentions and keeps the others;
    a partial [{position: {x: v}}] changes only [position.x]. Every other
    field of the node, every other node, the root id and the selection are
    as before. *)
Theorem update_transform_frame
    (state : ModelState) (nodeId : NodeId) (node : ModelNode)
    (p : PartialTransform) (g : nat) :
  nodes (model state) !! nodeId = Some node →
  ∃ s' node',
    modelReducer state (UPDATE_TRANSFORM nodeId p) g = (Ok s', g)
    ∧ nodes (model s') !! nodeId = Some node'
    ∧ (∀ f a, axisOf a (fieldOf f (transform node'))
              = default (axisOf a (fieldOf f (transform node)))
                        (mentioned p f a))
    ∧ (∀ v, p = {| pposition := Some {| px := Some v; py := None;
                                        pz := None |};
                   protation := None; pscale := None |} →
            transform node'
            = {| position := {| vx := v;
                                vy := vy (position (transform node));
                                vz := vz (position (transform node)) |};
                 rotation := rotation (transform node);
                 scale := scale (transform node) |})
    ∧ (nid node' = nid node ∧ type node' = type node
       ∧ name node' = name node ∧ visible node' = visible node
       ∧ primitiveType node' = primitiveType node
       ∧ properties node' = properties node
       ∧ color node' = color node ∧ children node' = children node)
    ∧ (∀ k, k ≠ nodeId → nodes (model s') !! k = nodes (model state) !! k)
    ∧ rootId (model s') = rootId (model state)
    ∧ selection s' = selection state.
Proof.
  intros Hnode.
  set (node' := withTransform node (mergeTransform (transform node) p)).
  set (ns := withNodes state (<[nodeId := node']> (nodes (model state)))).
  exists (saveToHistory state ns), node'.
  split.
  { rewrite reducer_significant by done. simpl.
    unfold lift, updateTransform. by rewrite Hnode. }
  destruct (saveToHistory_model state ns) as [-> ->].
  split; [apply lookup_insert_eq|].
  split; [intros f a; apply mergeTransform_axis|].
  split.
  { intros v ->. simpl. unfold mergeTransform. simpl.
    by destruct (transform node) as [? [] []]. }
  split; [done|].
  split; [intros k Hk; by apply lookup_insert_ne|].
  done.
Qed.

Lemma update_transform_frame_witness :
  ∃ s' node',
    modelReducer (current initialStore)
      (UPDATE_TRANSFORM (idOf 0)
         {| pposition := Some {| px := Some 5%Q; py := None; pz := None |};
            protation := None; pscale := None |}) 1 = (Ok s', 1)
    ∧ nodes (model s') !! idOf 0 = Some node'
    ∧ position (transform node') = {| vx := 5%Q; vy := 0%Q; vz := 0%Q |}.
Proof.
  destruct (completes_Ok
    (match nodes (model (current initialStore)) !! idOf 0 with
     | Some n => Ok n | None => Throw TypeError end)) as [root Hroot];
    [vm_compute; reflexivity|].
  assert (nodes (model (current initialStore)) !! idOf 0 = Some root) as Hr.
  { destruct (nodes (model (current initialStore)) !! idOf 0);
      [injection Hroot as ->; reflexivity | discriminate Hroot]. }
  assert (position (transform root) = {| vx := 0%Q; vy := 0%Q; vz := 0%Q |})
    as Hpos.
  { assert (position ∘ transform
              <$> nodes (model (current initialStore)) !! idOf 0
            = Some {| vx := 0%Q; vy := 0%Q; vz := 0%Q |}) as H
      by (vm_compute; reflexivity).
    rewrite Hr in H. injection H as H. exact H. }
  destruct (update_transform_frame (current initialStore) (idOf 0) root
    {| pposition := Some {| px := Some 5%Q; py := None; pz := None |};
       protation := None; pscale := None |} 1 Hr)
    as (s' & node' & Hred & Hlk & _ & Hex & _).
  exists s', node'. split; [exact Hred|]. split; [exact Hlk|].
  rewrite (Hex 5%Q eq_refl). simpl. rewrite Hpos. reflexivity.
Defined.

(** ** REORDER_CHILDREN (C9) *)

Lemma relativeIndex_le len i : relativeIndex len i ≤ len.
Proof. unfold relativeIndex. destruct (Z.ltb_spec i 0); lia. Qed.

Lemma relativeIndex_beyond len (i : Z) :
  (Z.of_nat len ≤ i)%Z ∨ len = 0 → relativeIndex len i = len.
Proof.
  intros [?|?]; unfold relativeIndex; destruct (Z.ltb_spec i 0); lia.
Qed.

Lemma relativeIndex_within len (i : Z) :
  (i < Z.of_nat len)%Z → len ≠ 0 → relativeIndex len i < len.
Proof.
  intros ? ?. unfold relativeIndex. destruct (Z.ltb_spec i 0); lia.
Qed.

(** A [fromIndex] at or beyond the end removes nothing, and [undefined] is
    inserted. *)
Lemma reorder_beyond (cs : list ChildRef) (i j : Z) :
  (Z.of_nat (length cs) ≤ i)%Z ∨ cs = [] →
  reorder cs i j
  = take (relativeIndex (length cs) j) cs
    ++ Undefined :: drop (relativeIndex (length cs) j) cs.
Proof.
  intros Hi. unfold reorder, splice.
  assert (relativeIndex (length cs) i = length cs) as ->.
  { apply relativeIndex_beyond. destruct Hi as [?| ->]; [by left|by right]. }
  rewrite Nat.sub_diag, Nat.min_0_r, Nat.add_0_r.
  rewrite firstn_all, drop_all. simpl.
  rewrite app_nil_r, Nat.add_0_r. done.
Qed.

(** A [fromIndex] before the end, counted from the end when negative,
    removes an element, and that element is inserted. *)
Lemma reorder_within (cs : list ChildRef) (i j : Z) :
  (i < Z.of_nat (length cs))%Z → cs ≠ [] →
  reorder cs i j ≡ₚ cs.
Proof.
  intros Hi Hne. unfold reorder, splice.
  assert (length cs ≠ 0) as Hlen by (by destruct cs).
  pose proof (relativeIndex_within _ _ Hi Hlen) as Hs.
  set (s := relativeIndex (length cs) i) in *.
  replace (1 `min` (length cs - s)) with 1 by lia.
  destruct (lookup_lt_is_Some_2 cs s Hs) as [x Hx].
  assert (take 1 (drop s cs) = [x]) as ->.
  { rewrite <- (take_drop_middle cs s x Hx) at 1.
    rewrite drop_app_length' by (rewrite length_take; lia). done. }
  simpl.
  set (rest := take s cs ++ drop (s + 1) cs).
  rewrite Nat.add_0_r.
  rewrite <- Permutation_middle, take_drop.
  unfold rest. rewrite Permutation_middle.
  replace (s + 1) with (S s) by lia.
  by rewrite take_drop_middle.
Qed.

(** C9, as amended. For an assembly parent, REORDER_CHILDREN is neither
    rejected nor clamped. With [fromIndex] at or beyond the length of the
    children array (or with an empty array) the first splice removes
    nothing and the second inserts [undefined], which is no [NodeId], at
    the position of [toIndex]: the array grows by one. With a [fromIndex]
    before the end, a negative one counting from the end, a child is
    removed and reinserted: the array is a permutation of the old one. *)
Theorem reorder_out_of_range
    (state : ModelState) (parentId : NodeId) (parent : ModelNode)
    (cs : list ChildRef) (fromIndex toIndex : Z) (g : nat) :
  nodes (model state) !! parentId = Some parent →
  type parent = assembly →
  children parent = Some cs →
  ∃ s' cs',
    modelReducer state (REORDER_CHILDREN parentId fromIndex toIndex) g
      = (Ok s', g)
    ∧ nodes (model s') !! parentId = Some (withChildren parent cs')
    ∧ ((Z.of_nat (length cs) ≤ fromIndex)%Z ∨ cs = [] →
       cs' = take (relativeIndex (length cs) toIndex) cs
             ++ Undefined :: drop (relativeIndex (length cs) toIndex) cs
       ∧ Undefined ∈ cs'
       ∧ (∀ k, Undefined ≠ Ref k)
       ∧ length cs' = S (length cs))
    ∧ ((fromIndex < Z.of_nat (length cs))%Z → cs ≠ [] → cs' ≡ₚ cs).
Proof.
  intros Hp Ht Hcs.
  set (cs' := reorder cs fromIndex toIndex).
  set (ns := withNodes state
               (<[parentId := withChildren parent cs']> (nodes (model state)))).
  exists (saveToHistory state ns), cs'.
  split.
  { rewrite reducer_significant by done. simpl.
    unfold lift, reorderChildren, deref, childArray. rewrite Hp. simpl.
    destruct (decide (type parent ≠ assembly)) as [Hn|_]; [done|].
    by rewrite Hcs. }
  destruct (saveToHistory_model state ns) as [-> _].
  split; [apply lookup_insert_eq|].
  split.
  - intros Hb. unfold cs'. rewrite (reorder_beyond cs _ _ Hb).
    split; [done|].
    split; [apply elem_of_app; right; apply list_elem_of_here|].
    split; [done|].
    rewrite length_app, length_cons, length_take, length_drop.
    pose proof (relativeIndex_le (length cs) toIndex). lia.
  - intros Hw Hne. by apply reorder_within.
Qed.

Lemma reorder_out_of_range_witness :
  ∃ s',
    modelReducer (current initialStore)
      (REORDER_CHILDREN (idOf 0) 0 0) 1 = (Ok s', 1)
    ∧ children <$> nodes (model s') !! idOf 0 = Some (Some [Undefined]).
Proof.
  assert (∃ root, nodes (model (current initialStore)) !! idOf 0 = Some root
                  ∧ type root = assembly ∧ children root = Some [])
    as (root & Hr & Ht & Hc) by (eexists; vm_compute; auto).
  destruct (reorder_out_of_range (current initialStore) (idOf 0) root []
              0 0 1 Hr Ht Hc) as (s' & cs' & Hred & Hlk & Hb & _).
  destruct Hb as (-> & _); [right; reflexivity|].
  exists s'. split; [exact Hred|]. rewrite Hlk. reflexivity.
Defined.

Lemma reorder_from_minus_one :
  (do* w1 := dispatch initialStore (ADD_ASSEMBLY (idOf 0) "Assembly 1") in
   do* w2 := dispatch w1 (REORDER_CHILDREN (idOf 0) (-1) 0) in
   Ok (getChildren (idOf 0) (model (current w1)),
       getChildren (idOf 0) (model (current w2)),
       is_Some (nodes (model (current w2)) !! idOf 1)))
  = Ok ([Ref (idOf 1)], [Ref (idOf 1)],
        is_Some (Some
          {| nid := idOf 1; type := assembly; name := "Assembly 1";
             transform := DEFAULT_TRANSFORM; visible := true;
             primitiveType := None; properties := None; color := None;
             children := Some [] |})).
Proof. vm_compute. reflexivity. Qed.

(** C9 fails as stated for a negative [fromIndex]: with the one child
    [node-1] under the root, REORDER_CHILDREN from index -1, which is
    outside the bounds of the array, removes that child and reinserts it.
    The children list afterwards is [[node-1]]: it holds no [undefined]
    and its only entry is an existing node. *)
Lemma reorder_negative_from_index_keeps_children :
  ∃ w1 w2,
    dispatch initialStore (ADD_ASSEMBLY (idOf 0) "Assembly 1") = Ok w1
    ∧ getChildren (idOf 0) (model (current w1)) = [Ref (idOf 1)]
    ∧ dispatch w1 (REORDER_CHILDREN (idOf 0) (-1) 0) = Ok w2
    ∧ getChildren (idOf 0) (model (current w2)) = [Ref (idOf 1)]
    ∧ is_Some (nodes (model (current w2)) !! idOf 1).
Proof.
  pose proof reorder_from_minus_one as H.
  destruct (dispatch initialStore _) as [w1| |] eqn:E1; try discriminate H.
  simpl in H.
  destruct (dispatch w1 _) as [w2| |] eqn:E2; try discriminate H.
  injection H as H1 H2 H3.
  exists w1, w2. repeat split; try done. rewrite H3. by eexists.
Qed.

(** ** Trees as graphs *)

Section graph.
Implicit Types (D : NodeId → Prop) (E : relation NodeId).

Lemma tc_subrel E1 E2 x y :
  (∀ a b, E1 a b → E2 a b) → tc E1 x y → tc E2 x y.
Proof. intros H. apply (tc_congruence (λ a, a)). exact H. Qed.

Lemma rooted_ext root D D' E E' :
  (∀ k, D k ↔ D' k) → (∀ x y, E x y ↔ E' x y) →
  rooted root D E → rooted root D' E'.
Proof.
  intros HD HE [Hr Hc Hu Hn Ha]. split.
  - by apply HD.
  - intros x y Hxy. apply HE in Hxy. destruct (Hc _ _ Hxy).
    split; by apply HD.
  - intros p q k Hp Hq. apply (Hu p q k); by apply HE.
  - intros k Hk. eapply rtc_subrel; [|apply Hn; by apply HD].
    intros a b. apply HE.
  - intros k Hk. apply (Ha k). eapply tc_subrel; [|exact Hk].
    intros a b. apply HE.
Qed.

Context (root : NodeId) (D : NodeId → Prop) (E : relation NodeId).
Context (HT : rooted root D E).

Lemma rooted_root_orphan p : ¬ E p root.
Proof.
  intros Hp. apply (rooted_acyclic _ _ _ HT root).
  eapply tc_rtc_l; [|by apply tc_once].
  apply (rooted_connected _ _ _ HT). by apply (rooted_closed _ _ _ HT p root).
Qed.

(** The parent of a proper descendant of [n] is in the subtree of [n]. *)
Lemma rooted_parent_in_subtree n p x :
  rtc E n x → x ≠ n → E p x → rtc E n p.
Proof.
  intros Hnx Hne Hp. apply rtc_inv_r in Hnx as [->|(y & Hny & Hy)]; [done|].
  by rewrite (rooted_unique _ _ _ HT p y x Hp Hy).
Qed.

Lemma rooted_subtree_closed n x y : rtc E n x → E x y → rtc E n y.
Proof. intros. by eapply rtc_r. Qed.

Lemma rooted_no_return n y : rtc E n y → ¬ E y n.
Proof.
  intros Hny Hy. apply (rooted_acyclic _ _ _ HT n).
  eapply tc_rtc_l; [exact Hny|by apply tc_once].
Qed.

(** *** Adding a leaf *)

Lemma rooted_add p new :
  D p → ¬ D new →
  rooted root (λ k, D k ∨ k = new) (λ x y, E x y ∨ (x = p ∧ y = new)).
Proof.
  intros Hp Hnew.
  assert (∀ x y, tc (λ x y, E x y ∨ x = p ∧ y = new) x y →
                 x ≠ new ∧ (y ≠ new → tc E x y)) as Htc.
  { intros x y Hxy. induction Hxy as [x y [Hxy|[-> ->]]
                                     |x z y [Hxz|[-> ->]] Hzy IH].
    - split; [|intros _; by apply tc_once].
      intros ->. by destruct (rooted_closed _ _ _ HT _ _ Hxy).
    - split; [by intros ->|done].
    - destruct IH as [Hz IH]. split.
      + intros ->. by destruct (rooted_closed _ _ _ HT _ _ Hxz).
      + intros Hy. eapply tc_l; [exact Hxz|by apply IH].
    - by destruct IH as [? _]. }
  split.
  - left. apply (rooted_root _ _ _ HT).
  - intros x y [Hxy|[-> ->]].
    + destruct (rooted_closed _ _ _ HT _ _ Hxy). auto.
    + auto.
  - intros a b k [Ha|[-> ->]] [Hb|[-> Hk]].
    + by apply (rooted_unique _ _ _ HT a b k).
    + subst k. by destruct (rooted_closed _ _ _ HT _ _ Ha).
    + by destruct (rooted_closed _ _ _ HT _ _ Hb).
    + done.
  - intros k [Hk| ->].
    + eapply rtc_subrel; [|by apply (rooted_connected _ _ _ HT)]. auto.
    + eapply rtc_r; [|right; done].
      eapply rtc_subrel; [|by apply (rooted_connected _ _ _ HT)]. auto.
  - intros k Hk. destruct (Htc _ _ Hk) as [Hne Hk'].
    apply (rooted_acyclic _ _ _ HT k). by apply Hk'.
Qed.

(** *** Removing a subtree *)

Lemma rooted_remove n p :
  E p n →
  rooted root (λ k, D k ∧ ¬ rtc E n k) (λ x y, E x y ∧ ¬ rtc E n y).
Proof.
  intros Hpn.
  assert (¬ rtc E n root) as Hroot.
  { intros Hr. apply rtc_inv_r in Hr as [->|(y & _ & Hy)];
      by eapply rooted_root_orphan. }
  split.
  - split; [apply (rooted_root _ _ _ HT)|done].
  - intros x y [Hxy Hy]. destruct (rooted_closed _ _ _ HT _ _ Hxy).
    repeat split; try done. intros Hx. apply Hy. by eapply rtc_r.
  - intros a b k [Ha _] [Hb _]. by apply (rooted_unique _ _ _ HT a b k).
  - intros k [Hk Hnk].
    pose proof (rooted_connected _ _ _ HT k Hk) as Hrk.
    clear Hk. revert Hnk. pattern k. revert k Hrk.
    apply rtc_ind_r; [done|]. intros y k Hry Hyk IH Hnk.
    eapply rtc_r; [|split; [exact Hyk|exact Hnk]].
    apply IH. intros Hy. apply Hnk. by eapply rtc_r.
  - intros k Hk. apply (rooted_acyclic _ _ _ HT k).
    eapply tc_subrel; [|exact Hk]. by intros a b [? _].
Qed.

(** *** Moving a subtree *)

Lemma tc_extra_edge (R : relation NodeId) a b x y :
  tc (λ u v, R u v ∨ (u = a ∧ v = b)) x y →
  tc R x y ∨ (rtc R x a ∧ rtc R b y).
Proof.
  intros Hxy. induction Hxy as [x y [Hxy|[-> ->]]
                               |x z y [Hxz|[-> ->]] Hzy IH].
  - left. by apply tc_once.
  - right. done.
  - destruct IH as [IH|[Hza Hby]].
    + left. by eapply tc_l.
    + right. split; [|done]. by eapply rtc_l.
  - destruct IH as [IH|[Hza Hby]].
    + right. split; [done|]. by apply tc_rtc.
    + right. done.
Qed.

Lemma rooted_move n q :
  D n → D q → ¬ rtc E n q →
  (∀ k, rtc E n k ∨ ¬ rtc E n k) →
  rooted root D (λ x y, (E x y ∧ y ≠ n) ∨ (x = q ∧ y = n)).
Proof.
  intros Hn Hq Hnq Hdec.
  set (E0 := λ x y, E x y ∧ y ≠ n).
  assert (∀ x y, E0 x y → E x y) as HE0 by (by intros x y [? _]).
  assert (∀ k, rtc E root k → ¬ rtc E n k → rtc E0 root k) as Hout.
  { intros k Hrk. pattern k. revert k Hrk.
    apply rtc_ind_r; [done|]. intros y k Hry Hyk IH Hnk.
    eapply rtc_r; [apply IH|split; [exact Hyk|]].
    - intros Hy. apply Hnk. by eapply rtc_r.
    - by intros ->. }
  assert (∀ k, rtc E n k → rtc E0 n k) as Hin.
  { intros k Hnk. pattern k. revert k Hnk.
    apply rtc_ind_r; [done|]. intros y k Hny Hyk IH.
    eapply rtc_r; [exact IH|split; [exact Hyk|]].
    intros ->. by eapply rooted_no_return. }
  split.
  - apply (rooted_root _ _ _ HT).
  - intros x y [[Hxy _]|[-> ->]]; [|done].
    apply (rooted_closed _ _ _ HT _ _ Hxy).
  - intros a b k [[Ha Hk]|[-> ->]] [[Hb Hk']|[-> Hk']]; try done.
    by apply (rooted_unique _ _ _ HT a b k).
  - intros k Hk. pose proof (rooted_connected _ _ _ HT k Hk) as Hrk.
    destruct (Hdec k) as [Hnk|Hnk].
    + apply rtc_trans with q; [|eapply rtc_l; [right; done|]].
      * eapply rtc_subrel; [|apply (Hout q)]; [by left|..]; try done.
        by apply (rooted_connected _ _ _ HT).
      * eapply rtc_subrel; [|by apply Hin]. by left.
    + eapply rtc_subrel; [|by apply Hout]. by left.
  - intros k Hk. apply tc_extra_edge in Hk as [Hk|[Hkq Hnk]].
    + apply (rooted_acyclic _ _ _ HT k). by eapply tc_subrel.
    + apply Hnq. etrans; eapply rtc_subrel; eauto.
Qed.
End graph.

(** ** Tree queries on a well-formed model *)

Lemma elem_of_flat_map {A B} (f : A → list B) (l : list A) (y : B) :
  y ∈ flat_map f l ↔ ∃ x, x ∈ l ∧ y ∈ f x.
Proof.
  rewrite list_elem_of_In, in_flat_map.
  by setoid_rewrite list_elem_of_In.
Qed.

Lemma child_getChildren m p k :
  child (nodes m) p k ↔ Ref k ∈ getChildren p m.
Proof.
  unfold child, getChildren. split.
  - intros (n & -> & Hk). done.
  - destruct (nodes m !! p) as [n|]; [|by intros ?%elem_of_nil].
    intros Hk. by exists n.
Qed.

Lemma child_is_Some ns p k : child ns p k → is_Some (ns !! p).
Proof. intros (n & Hn & _). by eexists. Qed.

Lemma childrenOf_assembly n c :
  c ∈ childrenOf n → type n = assembly ∧ ∃ cs, children n = Some cs ∧ c ∈ cs.
Proof.
  unfold childrenOf. destruct (type n); [by intros ?%elem_of_nil|].
  destruct (children n) as [cs|]; simpl; [|by intros ?%elem_of_nil].
  intros Hc. split; [done|]. by exists cs.
Qed.

Lemma childrenOf_children n cs :
  type n = assembly → children n = Some cs → childrenOf n = cs.
Proof. intros Ht Hc. unfold childrenOf. by rewrite Ht, Hc. Qed.

Section wellFormed.
Context (m : Model) (Hwf : wellFormed m).

Let ns := nodes m.

Lemma wf_childrenOf_Ref p n c :
  nodes m !! p = Some n → c ∈ childrenOf n →
  ∃ k, c = Ref k ∧ is_Some (nodes m !! k).
Proof.
  intros Hp Hc. apply childrenOf_assembly in Hc as (_ & cs & Hcs & Hc).
  by eapply (wf_entries m Hwf).
Qed.

Lemma wf_getChildren_Ref p c :
  c ∈ getChildren p m → ∃ k, c = Ref k ∧ child (nodes m) p k.
Proof.
  unfold getChildren. destruct (nodes m !! p) as [n|] eqn:Hp;
    [|by intros ?%elem_of_nil].
  intros Hc. destruct (wf_childrenOf_Ref p n c Hp Hc) as (k & -> & _).
  exists k. split; [done|]. by exists n.
Qed.

(** The traversal only lists descendants. *)
Lemma descendantsWithin_sound d : ∀ x c,
  c ∈ descendantsWithin d m x →
  ∃ k, c = Ref k ∧ tc (child (nodes m)) x k.
Proof.
  induction d as [|d IH]; intros x c; simpl; [by intros ?%elem_of_nil|].
  rewrite elem_of_flat_map. intros (c1 & Hc1 & Hc).
  destruct (wf_getChildren_Ref _ _ Hc1) as (k1 & -> & Hk1).
  apply elem_of_cons in Hc as [->|Hc].
  - exists k1. split; [done|]. by apply tc_once.
  - destruct (IH _ _ Hc) as (k & -> & Hk). exists k. split; [done|].
    by eapply tc_l.
Qed.

(** With enough depth the traversal lists every descendant. *)
Lemma descendantsWithin_complete d : ∀ x k,
  heightLt (nodes m) d x → tc (child (nodes m)) x k →
  Ref k ∈ descendantsWithin d m x.
Proof.
  induction d as [|d IH]; intros x k; simpl; [done|].
  intros Hh Hxk. rewrite elem_of_flat_map.
  destruct Hxk as [x k Hxk|x y k Hxy Hyk].
  - exists (Ref k). split; [by apply child_getChildren|]. by left.
  - exists (Ref y). split; [by apply child_getChildren|]. right.
    apply IH; [by apply Hh|done].
Qed.

(** Without a cycle, a chain of children has no more nodes than the
    model. *)
Lemma acyclic_heightLt f : ∀ (A : gset NodeId) x,
  A ⊆ dom (nodes m) →
  (∀ a, a ∈ A → tc (child (nodes m)) a x) →
  size (dom (nodes m)) < f + size A →
  heightLt (nodes m) f x.
Proof.
  induction f as [|f IH]; intros A x HA Hanc Hsz.
  - apply subseteq_size in HA. lia.
  - simpl. intros k Hxk.
    assert (x ∉ A) as HxA.
    { intros Hx. apply (rooted_acyclic _ _ _ (wf_tree m Hwf) x).
      by apply Hanc. }
    apply (IH (A ∪ {[x]})).
    + apply union_subseteq. split; [done|].
      apply singleton_subseteq_l, elem_of_dom.
      by eapply child_is_Some.
    + intros a [Ha| ->%elem_of_singleton]%elem_of_union.
      * eapply tc_r; [by apply Hanc|done].
      * by apply tc_once.
    + rewrite size_union, size_singleton by set_solver. lia.
Qed.

Lemma wf_heightLt x : heightLt (nodes m) (S (size (nodes m))) x.
Proof.
  apply (acyclic_heightLt _ ∅).
  - set_solver.
  - set_solver.
  - rewrite size_empty, size_dom. lia.
Qed.

(** [getDescendants] lists exactly the descendants. *)
Lemma getDescendants_spec x k :
  Ref k ∈ getDescendants x m ↔ tc (child (nodes m)) x k.
Proof.
  unfold getDescendants. split.
  - intros Hk. apply descendantsWithin_sound in Hk as (k' & [= <-] & Hk).
    done.
  - apply descendantsWithin_complete, wf_heightLt.
Qed.

Lemma getDescendants_Ref x c :
  c ∈ getDescendants x m → ∃ k, c = Ref k ∧ tc (child (nodes m)) x k.
Proof. apply descendantsWithin_sound. Qed.

Lemma subtree_dec n k :
  rtc (child (nodes m)) n k ∨ ¬ rtc (child (nodes m)) n k.
Proof.
  destruct (decide (n = k)) as [->|Hne]; [by left|].
  destruct (decide (Ref k ∈ getDescendants n m)) as [Hk|Hk].
  - left. by apply tc_rtc, getDescendants_spec.
  - right. intros Hr. apply rtc_tc in Hr as [?|Hr]; [done|].
    by apply Hk, getDescendants_spec.
Qed.

(** [findParent] finds the parent. *)
Lemma findParent_Some k p :
  findParent k m = Some p ↔ child (nodes m) p k.
Proof.
  unfold findParent.
  destruct (head (filter _ _)) as [[q n]|] eqn:Hh; simpl.
  - apply head_Some_elem_of, list_elem_of_filter in Hh as [Hk Hq].
    apply elem_of_map_to_list in Hq. simpl in Hk.
    assert (child (nodes m) q k) as Hqk by (by exists n).
    split.
    + by intros [= <-].
    + intros Hp. f_equal. by eapply (rooted_unique _ _ _ (wf_tree m Hwf)).
  - split; [done|]. intros (n & Hn & Hk).
    assert (is_Some (head (filter (λ kn : NodeId * ModelNode,
                                     Ref k ∈ childrenOf kn.2)
                                  (map_to_list (nodes m))))) as [? Hs].
    { apply head_is_Some. intros Hnil.
      assert ((p, n) ∈ filter (λ kn : NodeId * ModelNode,
                                 Ref k ∈ childrenOf kn.2)
                              (map_to_list (nodes m))) as Hin.
      { apply list_elem_of_filter. split; [done|].
        by apply elem_of_map_to_list. }
      rewrite Hnil in Hin. by apply elem_of_nil in Hin. }
    congruence.
Qed.

Lemma findParent_None k :
  findParent k m = None ↔ ∀ p, ¬ child (nodes m) p k.
Proof.
  split.
  - intros Hn p Hp. apply findParent_Some in Hp. congruence.
  - intros Hn. destruct (findParent k m) as [p|] eqn:Hp; [|done].
    apply findParent_Some in Hp. by destruct (Hn p).
Qed.

Lemma findParent_root : findParent (rootId m) m = None.
Proof.
  apply findParent_None. intros p.
  apply (rooted_root_orphan _ _ _ (wf_tree m Hwf)).
Qed.

(** A node other than the root has a parent, which is an assembly with a
    children list and a non-empty identifier. *)
Lemma wf_parent k :
  is_Some (nodes m !! k) → k ≠ rootId m →
  ∃ p pn pcs, findParent k m = Some p ∧ truthy (Some p) = true
              ∧ nodes m !! p = Some pn ∧ type pn = assembly
              ∧ children pn = Some pcs ∧ Ref k ∈ pcs.
Proof.
  intros Hk Hne.
  pose proof (rooted_connected _ _ _ (wf_tree m Hwf) k Hk) as Hr.
  apply rtc_inv_r in Hr as [?|(p & _ & Hp)]; [done|].
  pose proof Hp as (pn & Hpn & Hc).
  apply childrenOf_assembly in Hc as (Ht & pcs & Hpcs & Hc).
  exists p, pn, pcs. split; [by apply findParent_Some|].
  split; [|done]. simpl. destruct (String.eqb_spec p "") as [Heq|]; [|done].
  pose proof (wf_keys m Hwf) as Hk0. congruence.
Qed.
End wellFormed.

Lemma deleteAll_cons c ids (ns : Nodes) :
  deleteAll (c :: ids) ns = deleteAll ids (delete (toKey c) ns).
Proof. done. Qed.

Lemma deleteAll_lookup_None ids : ∀ (ns : Nodes) k,
  k ∈ toKey <$> ids ∨ ns !! k = None → deleteAll ids ns !! k = None.
Proof.
  induction ids as [|c ids IH]; intros ns k.
  - intros [H|H]; [by apply elem_of_nil in H|done].
  - rewrite deleteAll_cons, fmap_cons. intros [H|H]; apply IH.
    + apply elem_of_cons in H as [->|H]; [right|by left].
      apply lookup_delete_eq.
    + right. destruct (decide (k = toKey c)) as [->|Hne].
      * apply lookup_delete_eq.
      * by rewrite lookup_delete_ne.
Qed.

Lemma deleteAll_lookup_other ids : ∀ (ns : Nodes) k,
  k ∉ toKey <$> ids → deleteAll ids ns !! k = ns !! k.
Proof.
  induction ids as [|c ids IH]; intros ns k; [done|].
  rewrite deleteAll_cons, fmap_cons, not_elem_of_cons. intros [Hne Hk].
  rewrite IH by done. by rewrite lookup_delete_ne.
Qed.

(** ** DELETE_NODE (C6, C10) *)

Lemma descendantSet_spec m nodeId d :
  wellFormed m →
  d ∈ descendantSet nodeId m ↔ tc (child (nodes m)) nodeId d.
Proof.
  intros Hwf. unfold descendantSet.
  rewrite elem_of_list_to_set, list_elem_of_fmap. split.
  - intros (c & -> & Hc).
    by destruct (getDescendants_Ref m Hwf _ _ Hc) as (k & -> & Hk).
  - intros Hd. exists (Ref d). split; [done|].
    by apply getDescendants_spec.
Qed.

Lemma descendantSet_keys m nodeId k :
  wellFormed m →
  k ∈ toKey <$> (Ref nodeId :: getDescendants nodeId m)
  ↔ k ∈ ({[nodeId]} ∪ descendantSet nodeId m).
Proof.
  intros Hwf. rewrite fmap_cons, elem_of_cons, elem_of_union,
    elem_of_singleton. unfold descendantSet.
  by rewrite elem_of_list_to_set.
Qed.

(** What DELETE_NODE does to a node that is not the root of a well-formed
    model. *)
Lemma deleteNode_wf state nodeId :
  wellFormed (model state) →
  is_Some (nodes (model state) !! nodeId) →
  nodeId ≠ rootId (model state) →
  ∃ p pn pcs,
    findParent nodeId (model state) = Some p
    ∧ nodes (model state) !! p = Some pn
    ∧ type pn = assembly
    ∧ children pn = Some pcs
    ∧ Ref nodeId ∈ pcs
    ∧ (p ∉ {[nodeId]} ∪ descendantSet nodeId (model state))
    ∧ deleteNode state nodeId
      = Ok {| model :=
                {| rootId := rootId (model state);
                   nodes :=
                     (<[p := withChildren pn
                               (filter (λ c, c ≠ Ref nodeId) pcs)]>
                        (deleteAll
                           (Ref nodeId :: getDescendants nodeId (model state))
                           (nodes (model state)))) |};
              selection :=
                if decide (selectedNodeId (selection state) = Some nodeId)
                then withSelected (selection state) None
                else selection state;
              history := history state;
              historyIndex := historyIndex state |}.
Proof.
  intros Hwf Hn Hne.
  destruct (wf_parent _ Hwf _ Hn Hne)
    as (p & pn & pcs & Hfp & Htr & Hpn & Ht & Hpcs & Hin).
  exists p, pn, pcs. do 5 (split; [done|]).
  assert (child (nodes (model state)) p nodeId) as Hpc.
  { by apply findParent_Some. }
  split.
  { rewrite elem_of_union, elem_of_singleton, descendantSet_spec by done.
    intros [->|Hd].
    - apply (rooted_acyclic _ _ _ (wf_tree _ Hwf) nodeId). by apply tc_once.
    - apply (rooted_acyclic _ _ _ (wf_tree _ Hwf) nodeId).
      by eapply tc_r. }
  unfold deleteNode. destruct Hn as [n Hn]. rewrite Hn, Hfp, Htr.
  unfold deref. simpl. rewrite Hpn. simpl.
  rewrite decide_True by done. unfold childArray. rewrite Hpcs. done.
Qed.

(** The nodes after the deletion. *)
Lemma deleteNode_nodes m nodeId p pn cs' k :
  wellFormed m →
  p ∉ ({[nodeId]} ∪ descendantSet nodeId m) →
  (<[p := withChildren pn cs']>
     (deleteAll (Ref nodeId :: getDescendants nodeId m) (nodes m))) !! k
  = if decide (k = p) then Some (withChildren pn cs')
    else if decide (k ∈ ({[nodeId]} ∪ descendantSet nodeId m))
         then None
         else nodes m !! k.
Proof.
  intros Hwf Hp. destruct (decide (k = p)) as [->|Hkp].
  - apply lookup_insert_eq.
  - rewrite lookup_insert_ne by done.
    destruct (decide (k ∈ _)) as [Hk|Hk].
    + apply deleteAll_lookup_None. left. by apply descendantSet_keys.
    + apply deleteAll_lookup_other. by rewrite descendantSet_keys.
Qed.

Lemma reducer_delete state nodeId g s' :
  deleteNode state nodeId = Ok s' →
  modelReducer state (DELETE_NODE nodeId) g = (Ok (saveToHistory state s'), g).
Proof.
  intros H. rewrite reducer_significant by done. simpl.
  unfold lift. by rewrite H.
Qed.

(** C6. In a well-formed model, DELETE_NODE on an existing node other than
    the root removes from [nodes] exactly the node and its descendants,
    [N + 1] entries for [N] descendants, leaves every other node but the
    parent as it is, removes the node from the children list of its parent
    and keeps the other entries of that list in order, and clears
    [selectedNodeId] exactly when it is the deleted node. DELETE_NODE on
    the root leaves model and selection unchanged. *)
Theorem cascade_delete (state : ModelState) (nodeId : NodeId) (g : nat) :
  wellFormed (model state) →
  is_Some (nodes (model state) !! nodeId) →
  (∀ d, d ∈ descendantSet nodeId (model state)
        ↔ tc (child (nodes (model state))) nodeId d)
  ∧ (nodeId ≠ rootId (model state) →
     ∃ s' p pn pcs,
       modelReducer state (DELETE_NODE nodeId) g = (Ok s', g)
       ∧ dom (nodes (model s'))
         = dom (nodes (model state))
           ∖ ({[nodeId]} ∪ descendantSet nodeId (model state))
       ∧ size (nodes (model state))
         = size (nodes (model s'))
           + S (size (descendantSet nodeId (model state)))
       ∧ (∀ k, k ∈ dom (nodes (model s')) → k ≠ p →
               nodes (model s') !! k = nodes (model state) !! k)
       ∧ findParent nodeId (model state) = Some p
       ∧ nodes (model state) !! p = Some pn
       ∧ children pn = Some pcs
       ∧ Ref nodeId ∈ pcs
       ∧ nodes (model s') !! p
         = Some (withChildren pn (filter (λ c, c ≠ Ref nodeId) pcs))
       ∧ rootId (model s') = rootId (model state)
       ∧ (selectedNodeId (selection state) = Some nodeId →
          selectedNodeId (selection s') = None)
       ∧ (selectedNodeId (selection state) ≠ Some nodeId →
          selectedNodeId (selection s') = selectedNodeId (selection state))
       ∧ hoveredNodeId (selection s') = hoveredNodeId (selection state))
  ∧ ∃ s', modelReducer state (DELETE_NODE (rootId (model state))) g
            = (Ok s', g)
          ∧ model s' = model state
          ∧ selection s' = selection state.
Proof.
  intros Hwf Hn. split; [intros d; by apply descendantSet_spec|]. split.
  - intros Hne.
    destruct (deleteNode_wf state nodeId Hwf Hn Hne)
      as (p & pn & pcs & Hfp & Hpn & Ht & Hpcs & Hin & HpS & Hdel).
    eexists _, p, pn, pcs. split; [by apply reducer_delete|].
    match goal with |- context [saveToHistory state ?s] =>
      destruct (saveToHistory_model state s) as [-> ->] end.
    cbn [model nodes rootId selection].
    set (S := {[nodeId]} ∪ descendantSet nodeId (model state)) in *.
    assert (∀ k, (<[p := withChildren pn
                          (filter (λ c, c ≠ Ref nodeId) pcs)]>
                   (deleteAll
                      (Ref nodeId :: getDescendants nodeId (model state))
                      (nodes (model state)))) !! k
                 = if decide (k = p)
                   then Some (withChildren pn
                                (filter (λ c, c ≠ Ref nodeId) pcs))
                   else if decide (k ∈ S) then None
                        else nodes (model state) !! k) as Hlk.
    { intros k. by apply deleteNode_nodes. }
    assert (S ⊆ dom (nodes (model state))) as HS.
    { intros k. unfold S.
      rewrite elem_of_union, elem_of_singleton, descendantSet_spec by done.
      intros [->|Hd]; apply elem_of_dom; [done|].
      apply tc_rtc, rtc_inv_r in Hd as [->|(y & _ & Hy)]; [done|].
      by destruct (rooted_closed _ _ _ (wf_tree _ Hwf) _ _ Hy). }
    assert (dom (<[p := withChildren pn
                          (filter (λ c, c ≠ Ref nodeId) pcs)]>
                   (deleteAll
                      (Ref nodeId :: getDescendants nodeId (model state))
                      (nodes (model state))))
            = dom (nodes (model state)) ∖ S) as Hdom.
    { apply set_eq. intros k.
      rewrite elem_of_difference, !elem_of_dom, Hlk.
      destruct (decide (k = p)) as [->|Hkp].
      - split; [|by eexists]. intros _. split; [by eexists|done].
      - destruct (decide (k ∈ S)) as [Hk|Hk].
        + split; [by intros [? ?]|]. by intros [_ ?].
        + split; [intros ?; by split|by intros [? _]]. }
    split; [done|].
    split.
    { rewrite <- !size_dom, Hdom.
      assert (size S = Datatypes.S (size (descendantSet nodeId (model state))))
        as <-.
      { unfold S. rewrite size_union, size_singleton; [done|].
        apply disjoint_singleton_l.
        rewrite descendantSet_spec by done.
        apply (rooted_acyclic _ _ _ (wf_tree _ Hwf)). }
      rewrite size_difference by done.
      apply subseteq_size in HS. lia. }
    split.
    { intros k Hk Hkp. rewrite Hdom, elem_of_difference in Hk.
      rewrite Hlk, decide_False, decide_False by tauto. done. }
    do 4 (split; [done|]).
    split; [by rewrite Hlk, decide_True|].
    split; [done|].
    split; [intros Hsel; by rewrite decide_True|].
    split; [intros Hsel; by rewrite decide_False|].
    by destruct (decide _).
  - exists (saveToHistory state state).
    split.
    + apply reducer_delete. unfold deleteNode.
      destruct (nodes (model state) !! rootId (model state)); [|done].
      by rewrite findParent_root.
    + apply saveToHistory_model.
Qed.

(** C10. In a well-formed model, when the selected node is a proper
    descendant of the node that DELETE_NODE deletes, the selection is kept
    as it is, and [selectedNodeId] is then the identifier of a node that is
    no longer in [nodes]; the selection is cleared only when it is the
    deleted node itself. *)
Theorem dangling_selection_after_delete
    (state : ModelState) (nodeId d : NodeId) (g : nat) :
  wellFormed (model state) →
  is_Some (nodes (model state) !! nodeId) →
  nodeId ≠ rootId (model state) →
  tc (child (nodes (model state))) nodeId d →
  selectedNodeId (selection state) = Some d →
  ∃ s', modelReducer state (DELETE_NODE nodeId) g = (Ok s', g)
        ∧ d ≠ nodeId
        ∧ is_Some (nodes (model state) !! d)
        ∧ selection s' = selection state
        ∧ selectedNodeId (selection s') = Some d
        ∧ nodes (model s') !! d = None.
Proof.
  intros Hwf Hn Hne Hd Hsel.
  destruct (deleteNode_wf state nodeId Hwf Hn Hne)
    as (p & pn & pcs & Hfp & Hpn & Ht & Hpcs & Hin & HpS & Hdel).
  eexists. split; [by apply reducer_delete|].
  match goal with |- context [saveToHistory state ?s] =>
    destruct (saveToHistory_model state s) as [-> ->] end.
  cbn [model nodes rootId selection].
  assert (d ≠ nodeId) as Hdn.
  { intros ->. by apply (rooted_acyclic _ _ _ (wf_tree _ Hwf) nodeId). }
  assert (d ∈ {[nodeId]} ∪ descendantSet nodeId (model state)) as HdS.
  { apply elem_of_union. right. by apply descendantSet_spec. }
  split; [done|]. split.
  { apply tc_rtc, rtc_inv_r in Hd as [->|(y & _ & Hy)]; [done|].
    by destruct (rooted_closed _ _ _ (wf_tree _ Hwf) _ _ Hy). }
  rewrite decide_False by congruence.
  do 2 (split; [done|]).
  rewrite deleteNode_nodes by done.
  rewrite decide_False by (by intros ->).
  by rewrite decide_True.
Qed.

(** ** Actions keep a model well-formed *)

Lemma wf_closed m :
  wellFormed m →
  ∀ x y, child (nodes m) x y →
         is_Some (nodes m !! x) ∧ is_Some (nodes m !! y).
Proof. intros Hwf. apply (rooted_closed _ _ _ (wf_tree m Hwf)). Qed.

(** Replacing a node by one with the same type and the same entries in its
    children list, in any order and multiplicity. *)
Lemma wellFormed_replace m k n n' :
  wellFormed m →
  nodes m !! k = Some n →
  type n' = type n →
  (is_Some (children n') ↔ is_Some (children n)) →
  (∀ c, c ∈ default [] (children n') ↔ c ∈ default [] (children n)) →
  wellFormed {| rootId := rootId m; nodes := <[k := n']> (nodes m) |}.
Proof.
  intros Hwf Hk Ht Hs Hc.
  assert (∀ c, c ∈ childrenOf n' ↔ c ∈ childrenOf n) as Hco.
  { intros c. unfold childrenOf. rewrite Ht. by destruct (type n). }
  assert (∀ x, is_Some (<[k := n']> (nodes m) !! x)
               ↔ is_Some (nodes m !! x)) as Hdom.
  { intros x. destruct (decide (x = k)) as [->|Hne].
    - rewrite lookup_insert_eq, Hk. split; by eexists.
    - by rewrite lookup_insert_ne. }
  assert (∀ x y, child (nodes m) x y
                 ↔ child (<[k := n']> (nodes m)) x y) as Hch.
  { intros x y. unfold child. destruct (decide (x = k)) as [->|Hne].
    - rewrite lookup_insert_eq, Hk. split.
      + intros (? & [= <-] & Hy). exists n'. by rewrite Hco.
      + intros (? & [= <-] & Hy). exists n. by rewrite <- Hco.
    - by rewrite lookup_insert_ne. }
  split; cbn [nodes rootId].
  - destruct (decide ("" = k)) as [<-|Hne].
    + by rewrite (wf_keys m Hwf) in Hk.
    + rewrite lookup_insert_ne by done. apply (wf_keys m Hwf).
  - intros x nx. destruct (decide (x = k)) as [->|Hne].
    + rewrite lookup_insert_eq. intros [= <-]. rewrite Ht, Hs.
      by apply (wf_shape m Hwf k).
    + rewrite lookup_insert_ne by done. apply (wf_shape m Hwf).
  - intros p np cs c.
    destruct (decide (p = k)) as [->|Hne].
    + rewrite lookup_insert_eq. intros [= <-] Hcs Hin.
      setoid_rewrite Hdom.
      assert (c ∈ default [] (children n)) as Hin'.
      { apply Hc. by rewrite Hcs. }
      destruct (children n) as [cs0|] eqn:Hcs0;
        [|by apply elem_of_nil in Hin'].
      by apply (wf_entries m Hwf k n cs0).
    + rewrite lookup_insert_ne by done. setoid_rewrite Hdom.
      apply (wf_entries m Hwf).
  - eapply rooted_ext; [| |apply (wf_tree m Hwf)].
    + intros x. cbn beta. by rewrite Hdom.
    + exact Hch.
  - destruct (wf_root m Hwf) as (r & Hr & Hrt).
    destruct (decide (rootId m = k)) as [<-|Hne].
    + rewrite lookup_insert_eq. exists n'. split; [done|]. congruence.
    + rewrite lookup_insert_ne by done. by exists r.
Qed.

(** Adding a leaf under an assembly. *)
Lemma wellFormed_add m p parent cs new leaf :
  wellFormed m →
  nodes m !! p = Some parent →
  type parent = assembly →
  children parent = Some cs →
  nodes m !! new = None →
  new ≠ "" →
  (type leaf = assembly ↔ is_Some (children leaf)) →
  (∀ l, children leaf = Some l → l = []) →
  wellFormed
    {| rootId := rootId m;
       nodes := <[p := withChildren parent (cs ++ [Ref new])]>
                  (<[new := leaf]> (nodes m)) |}.
Proof.
  intros Hwf Hp Ht Hcs Hnew Hne Hshape Hleaf.
  assert (p ≠ new) as Hpn by (intros ->; congruence).
  assert (childrenOf leaf = []) as Hlc.
  { unfold childrenOf. destruct (type leaf); [done|].
    destruct (children leaf) as [l|] eqn:Hl; [|done].
    by rewrite (Hleaf l). }
  set (ns' := <[p := withChildren parent (cs ++ [Ref new])]>
                (<[new := leaf]> (nodes m))).
  assert (∀ x, is_Some (ns' !! x) ↔ is_Some (nodes m !! x) ∨ x = new)
    as Hdom.
  { intros x. unfold ns'. destruct (decide (x = p)) as [->|Hxp].
    - rewrite lookup_insert_eq, Hp. split; [left|]; by eexists.
    - rewrite lookup_insert_ne by done.
      destruct (decide (x = new)) as [->|Hxn].
      + rewrite lookup_insert_eq. split; [by right|by eexists].
      + rewrite lookup_insert_ne by done. tauto. }
  assert (∀ x y, child (nodes m) x y ∨ (x = p ∧ y = new)
                 ↔ child ns' x y) as Hch.
  { intros x y. unfold child, ns'.
    destruct (decide (x = p)) as [->|Hxp].
    - rewrite lookup_insert_eq, Hp. split.
      + intros [(? & [= <-] & Hy)|[_ ->]]; eexists; (split; [done|]).
        * rewrite (childrenOf_children parent cs) in Hy by done.
          unfold childrenOf. simpl. rewrite Ht. simpl.
          apply elem_of_app. by left.
        * unfold childrenOf. simpl. rewrite Ht. simpl.
          apply elem_of_app. right. by left.
      + intros (? & [= <-] & Hy). unfold childrenOf in Hy.
        simpl in Hy. rewrite Ht in Hy. simpl in Hy.
        apply elem_of_app in Hy as [Hy|Hy].
        * left. exists parent. split; [done|].
          by rewrite (childrenOf_children parent cs).
        * apply list_elem_of_singleton in Hy as [= ->]. by right.
    - rewrite lookup_insert_ne by done.
      destruct (decide (x = new)) as [->|Hxn].
      + rewrite lookup_insert_eq, Hnew. split.
        * intros [(? & ? & _)|[? _]]; done.
        * intros (? & [= <-] & Hy). rewrite Hlc in Hy.
          by apply elem_of_nil in Hy.
      + rewrite lookup_insert_ne by done. split; [|by left].
        intros [?|[? _]]; done. }
  split; cbn [nodes rootId]; fold ns'.
  - unfold ns'. rewrite !lookup_insert_ne.
    + apply (wf_keys m Hwf).
    + done.
    + intros ->. by rewrite (wf_keys m Hwf) in Hp.
  - intros x nx. unfold ns'. destruct (decide (x = p)) as [->|Hxp].
    + rewrite lookup_insert_eq. intros [= <-]. simpl. rewrite Ht.
      split; [by eexists|done].
    + rewrite lookup_insert_ne by done.
      destruct (decide (x = new)) as [->|Hxn].
      * rewrite lookup_insert_eq. by intros [= <-].
      * rewrite lookup_insert_ne by done. apply (wf_shape m Hwf).
  - intros x nx l c. setoid_rewrite Hdom. unfold ns'.
    destruct (decide (x = p)) as [->|Hxp].
    + rewrite lookup_insert_eq. intros [= <-]. simpl. intros [= <-].
      intros [Hc|Hc]%elem_of_app.
      * destruct (wf_entries m Hwf p parent cs c Hp Hcs Hc) as (k & -> & ?).
        exists k. auto.
      * apply list_elem_of_singleton in Hc as ->. exists new. auto.
    + rewrite lookup_insert_ne by done.
      destruct (decide (x = new)) as [->|Hxn].
      * rewrite lookup_insert_eq. intros [= <-] Hl Hc.
        rewrite (Hleaf l Hl) in Hc. by apply elem_of_nil in Hc.
      * rewrite lookup_insert_ne by done. intros Hx Hl Hc.
        destruct (wf_entries m Hwf x nx l c Hx Hl Hc) as (k & -> & ?).
        exists k. auto.
  - eapply rooted_ext; [| |apply (rooted_add _ _ _ (wf_tree m Hwf) p new)].
    + intros x. cbn beta. by rewrite Hdom.
    + exact Hch.
    + by eexists.
    + rewrite Hnew. by intros [? ?].
  - destruct (wf_root m Hwf) as (r & Hr & Hrt). unfold ns'.
    destruct (decide (rootId m = p)) as [Heq|Hxp].
    + rewrite Heq, lookup_insert_eq. eexists. split; [done|]. done.
    + rewrite lookup_insert_ne by done.
      rewrite lookup_insert_ne by (intros Heq; congruence). by exists r.
Qed.

Lemma subtree_descendantSet m n k :
  wellFormed m →
  k ∈ {[n]} ∪ descendantSet n m ↔ rtc (child (nodes m)) n k.
Proof.
  intros Hwf.
  rewrite elem_of_union, elem_of_singleton, descendantSet_spec, rtc_tc
    by done.
  split; (intros [?|?]; [left|right]; done).
Qed.

(** Removing the subtree of a node and its entry in the children list of
    its parent. *)
Lemma wellFormed_delete m n p pn pcs :
  wellFormed m →
  nodes m !! p = Some pn →
  type pn = assembly →
  children pn = Some pcs →
  Ref n ∈ pcs →
  wellFormed
    {| rootId := rootId m;
       nodes := <[p := withChildren pn (filter (λ c, c ≠ Ref n) pcs)]>
                  (deleteAll (Ref n :: getDescendants n m) (nodes m)) |}.
Proof.
  intros Hwf Hp Ht Hpcs Hin.
  pose proof (wf_tree m Hwf) as HT.
  assert (child (nodes m) p n) as Hpn.
  { exists pn. split; [done|]. by rewrite (childrenOf_children pn pcs). }
  assert (¬ rtc (child (nodes m)) n p) as HpS.
  { intros Hr. by eapply (rooted_no_return _ _ _ HT n p). }
  set (ns' := <[p := withChildren pn (filter (λ c, c ≠ Ref n) pcs)]>
                (deleteAll (Ref n :: getDescendants n m) (nodes m))).
  assert (∀ k, ns' !! k
               = if decide (k = p)
                 then Some (withChildren pn (filter (λ c, c ≠ Ref n) pcs))
                 else if decide (k ∈ {[n]} ∪ descendantSet n m) then None
                      else nodes m !! k) as Hlk.
  { intros k. apply deleteNode_nodes; [done|].
    by rewrite subtree_descendantSet. }
  assert (∀ k, is_Some (ns' !! k)
               ↔ is_Some (nodes m !! k) ∧ ¬ rtc (child (nodes m)) n k)
    as Hdom.
  { intros k. rewrite Hlk. destruct (decide (k = p)) as [->|Hkp].
    - split; [|by eexists]. intros _. split; [by eexists|done].
    - destruct (decide (k ∈ _)) as [Hk|Hk];
        rewrite subtree_descendantSet in Hk by done.
      + split; [by intros [? ?]|]. by intros [_ ?].
      + tauto. }
  assert (∀ x y, child (nodes m) x y → ¬ rtc (child (nodes m)) n x →
                 rtc (child (nodes m)) n y → x = p ∧ y = n) as Hcut.
  { intros x y Hxy Hx Hy. destruct (decide (y = n)) as [->|Hyn].
    - split; [|done]. by apply (rooted_unique _ _ _ HT x p n).
    - destruct Hx. by eapply (rooted_parent_in_subtree _ _ _ HT n x y). }
  assert (∀ x y, child (nodes m) x y ∧ ¬ rtc (child (nodes m)) n y
                 ↔ child ns' x y) as Hch.
  { intros x y. unfold child. rewrite Hlk.
    destruct (decide (x = p)) as [->|Hxp].
    - split.
      + intros [(? & Hx & Hy) Hny]. rewrite Hp in Hx. injection Hx as <-.
        eexists. split; [done|].
        rewrite (childrenOf_children pn pcs) in Hy by done.
        unfold childrenOf. simpl. rewrite Ht. simpl.
        apply list_elem_of_filter. split; [|done].
        intros [= ->]. by apply Hny.
      + intros (? & [= <-] & Hy). unfold childrenOf in Hy. simpl in Hy.
        rewrite Ht in Hy. simpl in Hy.
        apply list_elem_of_filter in Hy as [Hyn Hy].
        assert (child (nodes m) p y) as Hpy.
        { exists pn. split; [done|].
          by rewrite (childrenOf_children pn pcs). }
        split; [done|]. intros Hr.
        destruct (Hcut p y Hpy HpS Hr) as [_ ->]. done.
    - destruct (decide (x ∈ _)) as [Hx|Hx];
        rewrite subtree_descendantSet in Hx by done.
      + split; [|by intros (? & ? & _)].
        intros [Hxy Hny]. destruct Hny. by eapply rtc_r.
      + split; [by intros [? _]|]. intros Hxy. split; [done|].
        intros Hr. by destruct (Hcut x y Hxy Hx Hr) as [? _]. }
  split; cbn [nodes rootId]; fold ns'.
  - rewrite Hlk. destruct (decide ("" = p)) as [<-|_].
    + by rewrite (wf_keys m Hwf) in Hp.
    + destruct (decide _); [done|apply (wf_keys m Hwf)].
  - intros x nx. rewrite Hlk. destruct (decide (x = p)) as [->|Hxp].
    + intros [= <-]. simpl. rewrite Ht. split; [by eexists|done].
    + destruct (decide _); [done|]. apply (wf_shape m Hwf).
  - intros x nx l c Hx Hl Hc.
    assert (type nx = assembly) as Htx.
    { revert Hx. rewrite Hlk. destruct (decide (x = p)) as [->|Hxp].
      - by intros [= <-].
      - destruct (decide _); [done|]. intros Hx.
        apply (wf_shape m Hwf x nx Hx). by eexists. }
    assert (∃ k, c = Ref k) as [k ->].
    { revert Hx. rewrite Hlk. destruct (decide (x = p)) as [->|Hxp].
      - intros [= <-]. simpl in Hl. injection Hl as <-.
        apply list_elem_of_filter in Hc as [_ Hc].
        destruct (wf_entries m Hwf p pn pcs c Hp Hpcs Hc) as (k & -> & _).
        by exists k.
      - destruct (decide _); [done|]. intros Hx.
        destruct (wf_entries m Hwf x nx l c Hx Hl Hc) as (k & -> & _).
        by exists k. }
    assert (child ns' x k) as Hk.
    { exists nx. split; [done|]. by rewrite (childrenOf_children nx l). }
    exists k. split; [done|]. apply Hch in Hk as [Hk Hnk].
    apply Hdom. split; [|done]. by destruct (wf_closed m Hwf _ _ Hk).
  - eapply rooted_ext; [| |apply (rooted_remove _ _ _ HT n p Hpn)].
    + intros x. cbn beta. by rewrite Hdom.
    + exact Hch.
  - destruct (wf_root m Hwf) as (r & Hr & Hrt).
    assert (is_Some (ns' !! rootId m)) as [r' Hr'].
    { apply Hdom. split; [by eexists|].
      apply (rooted_root _ _ _ (rooted_remove _ _ _ HT n p Hpn)). }
    exists r'. split; [done|]. revert Hr'. rewrite Hlk.
    destruct (decide (rootId m = p)) as [_|_]; [by intros [= <-]|].
    destruct (decide _); [done|]. congruence.
Qed.

(** Moving a node from the children list of its parent to the end of the
    children list of an assembly outside its subtree. The entry for the
    new parent is built from the node as it was before the removal. *)
Lemma wellFormed_move m n q p pn pcs qn qcs :
  wellFormed m →
  nodes m !! p = Some pn → type pn = assembly → children pn = Some pcs →
  Ref n ∈ pcs →
  nodes m !! q = Some qn → type qn = assembly → children qn = Some qcs →
  ¬ rtc (child (nodes m)) n q →
  wellFormed
    {| rootId := rootId m;
       nodes := <[q := withChildren qn (qcs ++ [Ref n])]>
                  (<[p := withChildren pn (filter (λ c, c ≠ Ref n) pcs)]>
                     (nodes m)) |}.
Proof.
  intros Hwf Hp Htp Hpcs Hin Hq Htq Hqcs Hnq.
  pose proof (wf_tree m Hwf) as HT.
  assert (child (nodes m) p n) as Hpn.
  { exists pn. split; [done|]. by rewrite (childrenOf_children pn pcs). }
  destruct (decide (q = p)) as [->|Hqp].
  { rewrite Hp in Hq. injection Hq as <-.
    rewrite Hpcs in Hqcs. injection Hqcs as <-.
    rewrite insert_insert_eq.
    apply (wellFormed_replace m p pn); [done|done|done| |].
    - simpl. rewrite Hpcs. split; by eexists.
    - intros c. simpl. rewrite Hpcs. simpl. rewrite elem_of_app.
      split; [|by left]. intros [?|Hc]; [done|].
      by apply list_elem_of_singleton in Hc as ->. }
  set (ns' := <[q := withChildren qn (qcs ++ [Ref n])]>
                (<[p := withChildren pn (filter (λ c, c ≠ Ref n) pcs)]>
                   (nodes m))).
  assert (∀ k, ns' !! k
               = if decide (k = q)
                 then Some (withChildren qn (qcs ++ [Ref n]))
                 else if decide (k = p)
                      then Some (withChildren pn
                                   (filter (λ c, c ≠ Ref n) pcs))
                      else nodes m !! k) as Hlk.
  { intros k. unfold ns'. destruct (decide (k = q)) as [->|Hkq].
    - apply lookup_insert_eq.
    - rewrite lookup_insert_ne by done.
      destruct (decide (k = p)) as [->|Hkp].
      + apply lookup_insert_eq.
      + by rewrite lookup_insert_ne. }
  assert (∀ k, is_Some (ns' !! k) ↔ is_Some (nodes m !! k)) as Hdom.
  { intros k. rewrite Hlk. destruct (decide (k = q)) as [->|Hkq].
    - rewrite Hq. split; by eexists.
    - destruct (decide (k = p)) as [->|Hkp]; [|done].
      rewrite Hp. split; by eexists. }
  assert (∀ x, child (nodes m) x n → x = p) as Hpar.
  { intros x Hx. by apply (rooted_unique _ _ _ HT x p n). }
  assert (∀ x y, (child (nodes m) x y ∧ y ≠ n) ∨ (x = q ∧ y = n)
                 ↔ child ns' x y) as Hch.
  { intros x y. unfold child. rewrite Hlk.
    destruct (decide (x = q)) as [->|Hxq].
    - split.
      + intros [[(? & Hx & Hy) Hyn]|[_ ->]].
        * rewrite Hq in Hx. injection Hx as <-.
          eexists. split; [done|].
          rewrite (childrenOf_children qn qcs) in Hy by done.
          unfold childrenOf. simpl. rewrite Htq. simpl.
          apply elem_of_app. by left.
        * eexists. split; [done|].
          unfold childrenOf. simpl. rewrite Htq. simpl.
          apply elem_of_app. right. by left.
      + intros (? & [= <-] & Hy). unfold childrenOf in Hy. simpl in Hy.
        rewrite Htq in Hy. simpl in Hy.
        apply elem_of_app in Hy as [Hy|Hy].
        * assert (child (nodes m) q y) as Hqy.
          { exists qn. split; [done|].
            by rewrite (childrenOf_children qn qcs). }
          left. split; [done|]. intros ->. by apply Hqp, Hpar.
        * apply list_elem_of_singleton in Hy as [= ->]. by right.
    - destruct (decide (x = p)) as [->|Hxp].
      + split.
        * intros [[(? & Hx & Hy) Hyn]|[? _]]; [|done].
          rewrite Hp in Hx. injection Hx as <-.
          eexists. split; [done|].
          rewrite (childrenOf_children pn pcs) in Hy by done.
          unfold childrenOf. simpl. rewrite Htp. simpl.
          apply list_elem_of_filter. split; [|done]. by intros [= ->].
        * intros (? & [= <-] & Hy). unfold childrenOf in Hy. simpl in Hy.
          rewrite Htp in Hy. simpl in Hy.
          apply list_elem_of_filter in Hy as [Hyn Hy]. left. split.
          -- exists pn. split; [done|].
             by rewrite (childrenOf_children pn pcs).
          -- by intros ->.
      + split.
        * intros [[? _]|[? _]]; done.
        * intros Hxy. left. split; [done|]. intros ->.
          by apply Hxp, Hpar. }
  split; cbn [nodes rootId]; fold ns'.
  - rewrite Hlk. destruct (decide ("" = q)) as [<-|_].
    + by rewrite (wf_keys m Hwf) in Hq.
    + destruct (decide ("" = p)) as [<-|_];
        [by rewrite (wf_keys m Hwf) in Hp|apply (wf_keys m Hwf)].
  - intros x nx. rewrite Hlk. destruct (decide (x = q)) as [->|Hxq].
    + intros [= <-]. simpl. rewrite Htq. split; [by eexists|done].
    + destruct (decide (x = p)) as [->|Hxp]; [|apply (wf_shape m Hwf)].
      intros [= <-]. simpl. rewrite Htp. split; [by eexists|done].
  - intros x nx l c. rewrite Hlk. setoid_rewrite Hdom.
    destruct (decide (x = q)) as [->|Hxq].
    + intros [= <-]. simpl. intros [= <-].
      intros [Hc|Hc]%elem_of_app.
      * by apply (wf_entries m Hwf q qn qcs).
      * apply list_elem_of_singleton in Hc as ->.
        exists n. split; [done|].
        by destruct (wf_closed m Hwf _ _ Hpn).
    + destruct (decide (x = p)) as [->|Hxp]; [|apply (wf_entries m Hwf)].
      intros [= <-]. simpl. intros [= <-].
      intros [_ Hc]%list_elem_of_filter.
      by apply (wf_entries m Hwf p pn pcs).
  - eapply rooted_ext; [| |apply (rooted_move _ _ _ HT n q)].
    + intros x. cbn beta. by rewrite Hdom.
    + exact Hch.
    + by destruct (wf_closed m Hwf _ _ Hpn).
    + by eexists.
    + done.
    + apply subtree_dec. done.
  - destruct (wf_root m Hwf) as (r & Hr & Hrt). rewrite Hlk.
    destruct (decide (rootId m = q)) as [_|_]; [by eexists|].
    destruct (decide (rootId m = p)) as [_|_]; [by eexists|].
    by exists r.
Qed.

(** ** Duplication *)

Lemma idOf_inj i j : idOf i = idOf j → i = j.
Proof.
  unfold idOf. intros H. apply String.app_inj in H.
  by apply pretty_nat_inj in H.
Qed.

Lemma idOf_nonempty i : idOf i ≠ "".
Proof. unfold idOf. done. Qed.

Lemma inRange_idOf g g' i : inRange g g' (idOf i) ↔ g ≤ i < g'.
Proof.
  split.
  - intros (j & Hj & Heq). apply idOf_inj in Heq. lia.
  - intros Hi. by exists i.
Qed.

Lemma inRange_mono g1 g1' g2 g2' k :
  g2 ≤ g1 → g1' ≤ g2' → inRange g1 g1' k → inRange g2 g2' k.
Proof. intros ? ? (i & Hi & ->). exists i. split; [lia|done]. Qed.

Lemma inRange_disjoint g1 g2 g3 k :
  inRange g1 g2 k → inRange g2 g3 k → False.
Proof.
  intros (i & Hi & ->) (j & Hj & Heq). apply idOf_inj in Heq. lia.
Qed.

Lemma child_lookup ns ns' x y :
  ns !! x = ns' !! x → child ns x y ↔ child ns' x y.
Proof. intros H. unfold child. by rewrite H. Qed.

Lemma copiedEntries_mono (π π' : gmap NodeId NodeId) src dst :
  (∀ k v, π !! k = Some v → π' !! k = Some v) →
  copiedEntries π src dst → copiedEntries π' src dst.
Proof.
  intros Hsub H. unfold copiedEntries in *.
  eapply Forall2_impl; [exact H|].
  intros s d (ks & kd & -> & -> & Hk). exists ks, kd. auto.
Qed.

Lemma copiedChildren_mono (π π' : gmap NodeId NodeId) xn cn :
  (∀ k v, π !! k = Some v → π' !! k = Some v) →
  copiedChildren π xn cn → copiedChildren π' xn cn.
Proof.
  intros Hsub. unfold copiedChildren. destruct (type xn); [done|].
  intros (cs' & ? & ?). exists cs'. split; [done|].
  by eapply copiedEntries_mono.
Qed.

Lemma copiedEntries_elem (π : gmap NodeId NodeId) src dst y :
  copiedEntries π src dst → Ref y ∈ dst →
  ∃ x, Ref x ∈ src ∧ π !! y = Some x.
Proof.
  induction 1 as [|s d src dst (ks & kd & -> & -> & Hk) _ IH].
  - by intros ?%elem_of_nil.
  - intros [[= ->]|Hy]%elem_of_cons.
    + exists ks. split; [by left|done].
    + destruct (IH Hy) as (x & ? & ?). exists x. split; [by right|done].
Qed.

(** An edge between copies mirrors an edge between their sources. *)
Lemma copies_edge base ns' (π : gmap NodeId NodeId) x y :
  copies base ns' π → copyEdge π ns' x y →
  ∃ x' y', π !! x = Some x' ∧ π !! y = Some y' ∧ child base x' y'.
Proof.
  intros Hc [[x' Hx] (cn & Hcn & Hy)].
  destruct (cp_nodes _ _ _ Hc x x' Hx)
    as (xn & cn' & Hxn & Hcn' & Hcopy & Hch).
  rewrite Hcn in Hcn'. injection Hcn' as <-.
  destruct Hcopy as (_ & Ht & _).
  unfold copiedChildren in Hch. unfold childrenOf in Hy.
  rewrite Ht in Hy. destruct (type xn) eqn:Htx; [by apply elem_of_nil in Hy|].
  destruct Hch as (cs' & Hcs' & Hent). rewrite Hcs' in Hy. simpl in Hy.
  destruct (copiedEntries_elem _ _ _ _ Hent Hy) as (y' & Hy' & Hπ).
  exists x', y'. do 2 (split; [done|]). by exists xn.
Qed.

Lemma copies_closed base ns' (π : gmap NodeId NodeId) x y :
  copies base ns' π → copyEdge π ns' x y → is_Some (π !! y).
Proof.
  intros Hc He. destruct (copies_edge _ _ _ _ _ Hc He) as (? & ? & _ & ? & _).
  by eexists.
Qed.

Lemma withChildren_withChildren n cs cs' :
  withChildren (withChildren n cs) cs' = withChildren n cs'.
Proof. done. Qed.

Lemma duplicateChildren_cons dup newId c rest acc ns g d ns1 g1 :
  dup c newId ns g = (Ok (d, ns1), g1) →
  duplicateChildren dup newId (c :: rest) acc ns g
  = duplicateChildren dup newId rest (acc ++ [d]) ns1 g1.
Proof. intros H. simpl. unfold bind at 1. by rewrite H. Qed.

Lemma duplicateNode_primitive f s q ns g sn ns2 :
  ns !! s = Some sn → type sn = primitive →
  addToParent (idOf g) q (<[idOf g := clonePrimitive sn (idOf g)]> ns)
    = Ok ns2 →
  duplicateNode (S f) (Ref s) q ns g = (Ok (Ref (idOf g), ns2), S g).
Proof.
  intros Hs Ht Ha. simpl. rewrite Hs, Ht.
  unfold bind, generateId, ret, lift. by rewrite Ha.
Qed.

Lemma duplicateNode_assembly f s q ns g sn cs rs ns' g' da ns2 :
  ns !! s = Some sn → type sn = assembly → children sn = Some cs →
  duplicateChildren (duplicateNode f) (idOf g) cs []
    (<[idOf g := cloneAssembly sn (idOf g) []]> ns) (S g)
    = (Ok (rs, ns'), g') →
  ns' !! idOf g = Some da → type da = assembly →
  addToParent (idOf g) q (<[idOf g := withChildren da rs]> ns') = Ok ns2 →
  duplicateNode (S f) (Ref s) q ns g = (Ok (Ref (idOf g), ns2), g').
Proof.
  intros Hs Ht Hcs Hloop Hda Htda Ha. simpl. rewrite Hs, Ht.
  unfold bind, generateId, ret, lift, childArray, deref.
  rewrite Hcs, Hloop, Hda. rewrite decide_True by done. by rewrite Ha.
Qed.

Lemma addToParent_spec newId q (ns1 : Nodes) :
  (∀ qn, ns1 !! q = Some qn → type qn = assembly → is_Some (children qn)) →
  ∃ ns2, addToParent newId q ns1 = Ok ns2
         ∧ ns2 !! q = attach (ns1 !! q) newId
         ∧ ∀ k, k ≠ q → ns2 !! k = ns1 !! k.
Proof.
  intros Hshape. unfold addToParent, attach.
  destruct (ns1 !! q) as [qn|] eqn:Hq; [|by exists ns1].
  destruct (decide (type qn = assembly)) as [Ht|Ht]; [|by exists ns1].
  destruct (Hshape qn eq_refl Ht) as [pcs Hpcs].
  unfold childArray. rewrite Hpcs. simpl. eexists. split; [done|].
  split; [by rewrite lookup_insert_eq|].
  intros k Hk. by rewrite lookup_insert_ne.
Qed.

Section duplicate.
Context (m : Model) (Hwf : wellFormed m).

Lemma wf_assembly_children s sn :
  nodes m !! s = Some sn → type sn = assembly →
  ∃ cs, children sn = Some cs ∧ childrenOf sn = cs
        ∧ getChildren s m = cs
        ∧ ∀ c, c ∈ cs → ∃ k, c = Ref k ∧ is_Some (nodes m !! k)
                            ∧ child (nodes m) s k.
Proof.
  intros Hs Ht. destruct (wf_shape m Hwf s sn Hs) as [Hsh _].
  destruct (Hsh Ht) as [cs Hcs]. exists cs.
  assert (childrenOf sn = cs) as Hco by by apply childrenOf_children.
  split; [done|]. split; [done|].
  split; [unfold getChildren; by rewrite Hs|].
  intros c Hc.
  destruct (wf_entries m Hwf s sn cs c Hs Hcs Hc) as (k & -> & Hk).
  exists k. do 2 (split; [done|]). exists sn. by rewrite Hco.
Qed.

Lemma wf_primitive_leaf s sn :
  nodes m !! s = Some sn → type sn = primitive →
  getChildren s m = [] ∧ ∀ y, ¬ child (nodes m) s y.
Proof.
  intros Hs Ht. split.
  - unfold getChildren, childrenOf. by rewrite Hs, Ht.
  - intros y (? & Hs' & Hy). rewrite Hs in Hs'. injection Hs' as <-.
    unfold childrenOf in Hy. rewrite Ht in Hy. by apply elem_of_nil in Hy.
Qed.

(** The loop over the children, given that the recursive calls do what
    [duplicateNode] is to do. *)
Lemma duplicateChildren_spec f newId
    (IH : ∀ s q ns g,
       heightLt (nodes m) f s → is_Some (nodes m !! s) →
       dupReady (nodes m) ns q g →
       ∃ ns' π g',
         duplicateNode f (Ref s) q ns g = (Ok (Ref (idOf g), ns'), g')
         ∧ g' = g + S (length (descendantsWithin f m s))
         ∧ copied (nodes m) ns ns' π s q g g') :
  nodes m !! newId = None →
  ∀ todo acc ns g,
    (∀ c, c ∈ todo → ∃ k, c = Ref k ∧ is_Some (nodes m !! k)
                         ∧ heightLt (nodes m) f k) →
    dupReady (nodes m) ns newId g →
    ∃ rs ns' π g',
      duplicateChildren (duplicateNode f) newId todo acc ns g
        = (Ok (acc ++ rs, ns'), g')
      ∧ g' = g + length (flat_map
                           (λ c, c :: descendantsWithin f m (toKey c)) todo)
      ∧ copiedAll (nodes m) ns ns' π todo rs newId g g'.
Proof.
  intros HnewId. induction todo as [|c rest IHl]; intros acc ns g Htodo Hready.
  { exists [], ns, ∅, g. split; [by rewrite app_nil_r|].
    split; [simpl; lia|]. split.
    - intros k. rewrite lookup_empty. split; [by intros [? ?]|].
      intros (i & Hi & _). lia.
    - constructor.
    - intros k x. by rewrite lookup_empty.
    - by intros k x ?%elem_of_nil.
    - split.
      + intros k x. by rewrite lookup_empty.
      + intros x1 x2 y [[? Hx] _]. by rewrite lookup_empty in Hx.
    - intros k [? Hk]. by rewrite lookup_empty in Hk.
    - by intros x r ?%elem_of_nil.
    - by intros r ?%elem_of_nil.
    - done.
    - intros dn dcs Hdn _ Hdcs. rewrite app_nil_r, Hdn.
      f_equal. destruct dn. simpl in *. by rewrite Hdcs. }
  destruct (Htodo c) as (k & -> & Hk & Hh); [by left|].
  destruct (IH k newId ns g Hh Hk Hready)
    as (ns1 & π1 & g1 & Hdup & Hg1 & Hcd).
  assert (g < g1) as Hgg1 by lia.
  assert (∀ x, is_Some (π1 !! x) → x ≠ newId) as Hπ1new.
  { intros x Hx ->. apply (cd_range _ _ _ _ _ _ _ _ Hcd) in Hx
      as (i & Hi & Heq). by apply (dr_parent _ _ _ _ Hready i); [lia|]. }
  assert (dupReady (nodes m) ns1 newId g1) as Hready1.
  { split.
    - intros x Hx. pose proof (dr_agree _ _ _ _ Hready x Hx) as Hag.
      rewrite <- Hag. apply (cd_other _ _ _ _ _ _ _ _ Hcd).
      + destruct (π1 !! x) eqn:Hπ; [|done]. exfalso.
        assert (inRange g g1 x) as (i & Hi & ->).
        { apply (cd_range _ _ _ _ _ _ _ _ Hcd). by eexists. }
        rewrite (dr_fresh _ _ _ _ Hready i) in Hag by lia.
        rewrite <- Hag in Hx. by destruct Hx.
      + intros ->. rewrite HnewId in Hx. by destruct Hx.
    - intros i Hi.
      rewrite (cd_other _ _ _ _ _ _ _ _ Hcd).
      + apply (dr_fresh _ _ _ _ Hready). lia.
      + destruct (π1 !! idOf i) eqn:Hπ; [|done].
        assert (inRange g g1 (idOf i)) as Hr.
        { apply (cd_range _ _ _ _ _ _ _ _ Hcd). by eexists. }
        apply inRange_idOf in Hr. lia.
      + intros Heq. apply (dr_parent _ _ _ _ Hready i); [lia|done].
    - intros i Hi. apply (dr_parent _ _ _ _ Hready). lia.
    - intros qn. rewrite (cd_attach _ _ _ _ _ _ _ _ Hcd). unfold attach.
      destruct (ns !! newId) as [dn|] eqn:Hdn; [|done].
      destruct (decide (type dn = assembly)).
      + intros [= <-]. simpl. by eexists.
      + intros [= <-]. done. }
  destruct (IHl (acc ++ [Ref (idOf g)]) ns1 g1)
    as (rs2 & ns2 & π2 & g2 & Hloop & Hg2 & Hca); [|done|].
  { intros c Hc. apply Htodo. by right. }
  assert (g1 ≤ g2) as Hg12 by lia.
  assert (∀ x, is_Some (π1 !! x) → π2 !! x = None) as Hdisj.
  { intros x Hx. destruct (π2 !! x) eqn:Hπ; [|done].
    apply (cd_range _ _ _ _ _ _ _ _ Hcd) in Hx.
    destruct (inRange_disjoint g g1 g2 x Hx).
    apply (ca_range _ _ _ _ _ _ _ _ _ Hca). by eexists. }
  assert (∀ x, is_Some (π1 !! x) → ns2 !! x = ns1 !! x) as Hkeep.
  { intros x Hx. apply (ca_other _ _ _ _ _ _ _ _ _ Hca); auto. }
  assert (∀ x v, π1 !! x = Some v → (π1 ∪ π2) !! x = Some v) as Hsub1.
  { intros x v Hx. by apply lookup_union_Some_l. }
  assert (∀ x v, π2 !! x = Some v → (π1 ∪ π2) !! x = Some v) as Hsub2.
  { intros x v Hx. rewrite lookup_union_r; [done|].
    destruct (π1 !! x) eqn:Hπ; [|done].
    rewrite Hdisj in Hx by (by eexists). done. }
  assert (∀ x, is_Some ((π1 ∪ π2) !! x)
               ↔ is_Some (π1 !! x) ∨ is_Some (π2 !! x)) as Hunion.
  { intros x. rewrite lookup_union. 
    destruct (π1 !! x), (π2 !! x); simpl; split; intros H;
      try (by eexists); try (by left; eexists); try (by right; eexists);
      try (by destruct H as [[? ?]|[? ?]]); by destruct H. }
  assert (∀ x y, copyEdge (π1 ∪ π2) ns2 x y →
                 copyEdge π1 ns1 x y ∨ copyEdge π2 ns2 x y) as Hedge.
  { intros x y [Hx Hxy]. apply Hunion in Hx as [Hx|Hx].
    - left. split; [done|]. by rewrite <- (child_lookup _ _ _ _ (Hkeep x Hx)).
    - right. by split. }
  assert (∀ x y, copyEdge π1 ns1 x y → copyEdge (π1 ∪ π2) ns2 x y)
    as Hedge1.
  { intros x y [Hx Hxy]. split; [apply Hunion; by left|].
    by rewrite (child_lookup _ _ _ _ (Hkeep x Hx)). }
  assert (∀ x y, copyEdge π2 ns2 x y → copyEdge (π1 ∪ π2) ns2 x y)
    as Hedge2.
  { intros x y [Hx Hxy]. split; [apply Hunion; by right|done]. }
  exists (Ref (idOf g) :: rs2), ns2, (π1 ∪ π2), g2.
  split.
  { rewrite (duplicateChildren_cons _ _ _ _ _ _ _ _ _ _ Hdup), Hloop.
    by rewrite <- app_assoc. }
  split.
  { simpl. rewrite length_app. simpl. lia. }
  split.
  - intros x. rewrite Hunion, (cd_range _ _ _ _ _ _ _ _ Hcd),
      (ca_range _ _ _ _ _ _ _ _ _ Hca).
    split.
    + intros [Hx|Hx]; eapply inRange_mono; try exact Hx; lia.
    + intros (i & Hi & ->). rewrite !inRange_idOf. lia.
  - constructor.
    + exists k, (idOf g). do 2 (split; [done|]).
      apply Hsub1, (cd_top _ _ _ _ _ _ _ _ Hcd).
    + eapply copiedEntries_mono; [exact Hsub2|].
      apply (ca_roots _ _ _ _ _ _ _ _ _ Hca).
  - intros x v Hx. apply lookup_union_Some_raw in Hx as [Hx|[_ Hx]].
    + exists k. split; [by left|].
      by apply (cd_source _ _ _ _ _ _ _ _ Hcd x).
    + destruct (ca_source _ _ _ _ _ _ _ _ _ Hca x v Hx) as (k' & ? & ?).
      exists k'. split; [by right|done].
  - intros k' x [[= ->]|Hk']%elem_of_cons Hr.
    + destruct (cd_cover _ _ _ _ _ _ _ _ Hcd x Hr) as (c & Hc).
      exists c. by apply Hsub1.
    + destruct (ca_cover _ _ _ _ _ _ _ _ _ Hca k' x Hk' Hr) as (c & Hc).
      exists c. by apply Hsub2.
  - split.
    + intros x v Hx. apply lookup_union_Some_raw in Hx as [Hx|[_ Hx]].
      * destruct (cp_nodes _ _ _ (cd_copies _ _ _ _ _ _ _ _ Hcd) x v Hx)
          as (xn & cn & ? & Hcn & ? & ?).
        exists xn, cn. split; [done|].
        split; [by rewrite Hkeep by (by eexists)|].
        split; [done|]. eapply copiedChildren_mono; [exact Hsub1|done].
      * destruct (cp_nodes _ _ _ (ca_copies _ _ _ _ _ _ _ _ _ Hca) x v Hx)
          as (xn & cn & ? & Hcn & ? & ?).
        exists xn, cn. do 3 (split; [done|]).
        eapply copiedChildren_mono; [exact Hsub2|done].
    + intros x1 x2 y H1 H2.
      apply Hedge in H1 as [H1|H1]; apply Hedge in H2 as [H2|H2].
      * by apply (cp_unique _ _ _ (cd_copies _ _ _ _ _ _ _ _ Hcd) x1 x2 y).
      * apply (copies_closed _ _ _ _ _ (cd_copies _ _ _ _ _ _ _ _ Hcd))
          in H1.
        apply (copies_closed _ _ _ _ _ (ca_copies _ _ _ _ _ _ _ _ _ Hca))
          in H2. rewrite Hdisj in H2 by done. by destruct H2.
      * apply (copies_closed _ _ _ _ _ (cd_copies _ _ _ _ _ _ _ _ Hcd))
          in H2.
        apply (copies_closed _ _ _ _ _ (ca_copies _ _ _ _ _ _ _ _ _ Hca))
          in H1. rewrite Hdisj in H1 by done. by destruct H1.
      * by apply (cp_unique _ _ _ (ca_copies _ _ _ _ _ _ _ _ _ Hca) x1 x2 y).
  - intros x Hx. apply Hunion in Hx as [Hx|Hx].
    + exists (idOf g). split; [by left|].
      eapply rtc_subrel; [exact Hedge1|].
      by apply (cd_reach _ _ _ _ _ _ _ _ Hcd).
    + destruct (ca_reach _ _ _ _ _ _ _ _ _ Hca x Hx) as (r & Hr & Hrx).
      exists r. split; [by right|].
      eapply rtc_subrel; [exact Hedge2|done].
  - intros x r Hr He. apply Hedge in He as [He|He].
    + apply elem_of_cons in Hr as [[= ->]|Hr].
      * by apply (cd_top_orphan _ _ _ _ _ _ _ _ Hcd x).
      * apply (copies_closed _ _ _ _ _ (cd_copies _ _ _ _ _ _ _ _ Hcd))
          in He.
        apply (cd_range _ _ _ _ _ _ _ _ Hcd) in He.
        apply (inRange_disjoint g g1 g2 r He).
        by apply (ca_roots_range _ _ _ _ _ _ _ _ _ Hca).
    + apply elem_of_cons in Hr as [[= ->]|Hr].
      * apply (copies_closed _ _ _ _ _ (ca_copies _ _ _ _ _ _ _ _ _ Hca))
          in He.
        apply (ca_range _ _ _ _ _ _ _ _ _ Hca), inRange_idOf in He. lia.
      * by apply (ca_roots_orphan _ _ _ _ _ _ _ _ _ Hca x r).
  - intros r [[= ->]|Hr]%elem_of_cons.
    + apply inRange_idOf. lia.
    + eapply inRange_mono;
        [| |by apply (ca_roots_range _ _ _ _ _ _ _ _ _ Hca)]; lia.
  - intros x Hx Hxn. rewrite lookup_union_None in Hx. destruct Hx as [Hx1 Hx2].
    rewrite (ca_other _ _ _ _ _ _ _ _ _ Hca) by done.
    by apply (cd_other _ _ _ _ _ _ _ _ Hcd).
  - intros dn dcs Hdn Ht Hdcs.
    rewrite (ca_parent _ _ _ _ _ _ _ _ _ Hca
               (withChildren dn (dcs ++ [Ref (idOf g)]))
               (dcs ++ [Ref (idOf g)])).
    + by rewrite withChildren_withChildren, <- app_assoc.
    + rewrite (cd_attach _ _ _ _ _ _ _ _ Hcd), Hdn. unfold attach.
      rewrite decide_True by done. by rewrite Hdcs.
    + done.
    + done.
Qed.

(** [duplicateNode] on a node of the model, with fuel for its subtree. *)
Lemma duplicateNode_spec f : ∀ s q ns g,
  heightLt (nodes m) f s → is_Some (nodes m !! s) →
  dupReady (nodes m) ns q g →
  ∃ ns' π g',
    duplicateNode f (Ref s) q ns g = (Ok (Ref (idOf g), ns'), g')
    ∧ g' = g + S (length (descendantsWithin f m s))
    ∧ copied (nodes m) ns ns' π s q g g'.
Proof.
  induction f as [|f IHf]; intros s q ns g Hh [sn Hsn] Hready; [done|].
  pose proof (dr_agree _ _ _ _ Hready s (ltac:(by eexists))) as Hs.
  rewrite Hsn in Hs.
  assert (q ≠ idOf g) as Hqg by (apply (dr_parent _ _ _ _ Hready); lia).
  assert (nodes m !! idOf g = None) as Hbase.
  { destruct (nodes m !! idOf g) eqn:Hb; [|done].
    rewrite <- (dr_agree _ _ _ _ Hready) in Hb by (by eexists).
    rewrite (dr_fresh _ _ _ _ Hready) in Hb by lia. done. }
  destruct (type sn) eqn:Ht.
  - (* a primitive *)
    destruct (wf_primitive_leaf s sn Hsn Ht) as [Hgc Hleaf].
    set (ns1 := <[idOf g := clonePrimitive sn (idOf g)]> ns).
    destruct (addToParent_spec (idOf g) q ns1) as (ns2 & Ha & Hq2 & Ho2).
    { intros qn. unfold ns1. rewrite lookup_insert_ne by done.
      apply (dr_shape _ _ _ _ Hready). }
    assert (∀ y, ¬ child ns2 (idOf g) y) as Hnochild.
    { intros y (cn & Hcn & Hy). rewrite Ho2 in Hcn by done.
      unfold ns1 in Hcn. rewrite lookup_insert_eq in Hcn.
      injection Hcn as <-. unfold childrenOf in Hy. simpl in Hy.
      rewrite Ht in Hy. by apply elem_of_nil in Hy. }
    exists ns2, {[idOf g := s]}, (S g).
    split; [by apply (duplicateNode_primitive f s q ns g sn)|].
    split; [simpl; rewrite Hgc; simpl; lia|].
    split.
    + intros c. rewrite lookup_singleton_is_Some. split.
      * intros <-. apply inRange_idOf. lia.
      * intros (i & Hi & ->). f_equal. lia.
    + apply lookup_singleton_eq.
    + intros c x [<- <-]%lookup_singleton_Some. done.
    + intros x [->|(y & Hy & _)]%rtc_inv.
      * exists (idOf g). apply lookup_singleton_eq.
      * by destruct (Hleaf y).
    + split.
      * intros c x [<- <-]%lookup_singleton_Some.
        exists sn, (clonePrimitive sn (idOf g)). split; [done|].
        split; [rewrite Ho2 by done; apply lookup_insert_eq|].
        split; [done|]. unfold copiedChildren. by rewrite Ht.
      * intros x1 x2 y [Hx1 H1] _.
        apply lookup_singleton_is_Some in Hx1 as <-.
        by destruct (Hnochild y).
    + intros c Hc. apply lookup_singleton_is_Some in Hc as <-. done.
    + intros x [Hx H1]. apply lookup_singleton_is_Some in Hx as <-.
      by destruct (Hnochild (idOf g)).
    + intros k Hk Hkq. apply lookup_singleton_None in Hk.
      rewrite Ho2 by done. unfold ns1. by rewrite lookup_insert_ne.
    + rewrite Hq2. unfold ns1. by rewrite lookup_insert_ne.
  - (* an assembly *)
    destruct (wf_assembly_children s sn Hsn Ht)
      as (cs & Hcs & Hco & Hgc & Hent).
    set (ns0 := <[idOf g := cloneAssembly sn (idOf g) []]> ns).
    assert (dupReady (nodes m) ns0 (idOf g) (S g)) as Hready0.
    { split.
      - intros x Hx. unfold ns0. rewrite lookup_insert_ne.
        + by apply (dr_agree _ _ _ _ Hready).
        + intros <-. rewrite Hbase in Hx. by destruct Hx.
      - intros i Hi. unfold ns0. rewrite lookup_insert_ne.
        + apply (dr_fresh _ _ _ _ Hready). lia.
        + intros Heq%idOf_inj. lia.
      - intros i Hi Heq%idOf_inj. lia.
      - intros qn. unfold ns0. rewrite lookup_insert_eq.
        intros [= <-] _. by eexists. }
    destruct (duplicateChildren_spec f (idOf g) IHf Hbase cs [] ns0 (S g))
      as (rs & ns' & πL & g' & Hloop & Hg' & Hca); [|done|].
    { intros c Hc. destruct (Hent c Hc) as (k & -> & Hk & Hsk).
      exists k. do 2 (split; [done|]). by apply Hh. }
    rewrite app_nil_l in Hloop.
    assert (ns' !! idOf g = Some (cloneAssembly sn (idOf g) rs)) as Hda.
    { rewrite (ca_parent _ _ _ _ _ _ _ _ _ Hca
                 (cloneAssembly sn (idOf g) []) []); try done.
      unfold ns0. apply lookup_insert_eq. }
    set (ns1 := <[idOf g := withChildren (cloneAssembly sn (idOf g) rs) rs]>
                  ns').
    assert (πL !! q = None) as HπLq.
    { destruct (πL !! q) eqn:Hπ; [|done].
      assert (inRange (S g) g' q) as (i & Hi & ->).
      { apply (ca_range _ _ _ _ _ _ _ _ _ Hca). by eexists. }
      destruct (dr_parent _ _ _ _ Hready i); [lia|done]. }
    assert (ns1 !! q = ns !! q) as Hq1.
    { unfold ns1. rewrite lookup_insert_ne by done.
      rewrite (ca_other _ _ _ _ _ _ _ _ _ Hca) by done.
      unfold ns0. by rewrite lookup_insert_ne. }
    destruct (addToParent_spec (idOf g) q ns1) as (ns2 & Ha & Hq2 & Ho2).
    { intros qn. rewrite Hq1. apply (dr_shape _ _ _ _ Hready). }
    assert (πL !! idOf g = None) as HπLg.
    { destruct (πL !! idOf g) eqn:Hπ; [|done].
      assert (inRange (S g) g' (idOf g)) as Hr.
      { apply (ca_range _ _ _ _ _ _ _ _ _ Hca). by eexists. }
      apply inRange_idOf in Hr. lia. }
    assert (S g ≤ g') as Hgg' by lia.
    set (π := <[idOf g := s]> πL).
    assert (∀ x v, πL !! x = Some v → π !! x = Some v) as Hsub.
    { intros x v Hx. unfold π. rewrite lookup_insert_ne; [done|].
      intros <-. congruence. }
    assert (∀ x, is_Some (π !! x) ↔ x = idOf g ∨ is_Some (πL !! x))
      as Hπ.
    { intros x. unfold π. destruct (decide (x = idOf g)) as [->|Hne].
      - rewrite lookup_insert_eq. split; [by left|by eexists].
      - rewrite lookup_insert_ne by done. split; [by right|].
        by intros [?|?]. }
    assert (∀ x, is_Some (πL !! x) → ns2 !! x = ns' !! x) as Hkeep.
    { intros x Hx. rewrite Ho2 by (intros ->; rewrite HπLq in Hx;
                                   by destruct Hx).
      unfold ns1. rewrite lookup_insert_ne; [done|].
      intros <-. rewrite HπLg in Hx. by destruct Hx. }
    assert (ns2 !! idOf g = Some (cloneAssembly sn (idOf g) rs)) as Htop.
    { rewrite Ho2 by done. unfold ns1. by rewrite lookup_insert_eq. }
    assert (∀ y, child ns2 (idOf g) y ↔ Ref y ∈ rs) as Htopc.
    { intros y. unfold child. rewrite Htop. split.
      - intros (? & [= <-] & Hy). unfold childrenOf in Hy. simpl in Hy.
        by rewrite Ht in Hy.
      - intros Hy. eexists. split; [done|]. unfold childrenOf. simpl.
        by rewrite Ht. }
    assert (∀ x y, copyEdge π ns2 x y →
                   (x = idOf g ∧ Ref y ∈ rs) ∨ copyEdge πL ns' x y)
      as Hedge.
    { intros x y [Hx Hxy]. apply Hπ in Hx as [->|Hx].
      - left. split; [done|]. by apply Htopc.
      - right. split; [done|].
        by rewrite <- (child_lookup _ _ _ _ (Hkeep x Hx)). }
    assert (∀ x y, copyEdge πL ns' x y → copyEdge π ns2 x y) as HedgeL.
    { intros x y [Hx Hxy]. split; [apply Hπ; by right|].
      by rewrite (child_lookup _ _ _ _ (Hkeep x Hx)). }
    exists ns2, π, g'.
    split.
    { by eapply (duplicateNode_assembly f s q ns g sn cs rs ns' g'). }
    split; [simpl; rewrite Hgc; lia|].
    split.
    + intros c. rewrite Hπ, (ca_range _ _ _ _ _ _ _ _ _ Hca). split.
      * intros [->|Hc]; [apply inRange_idOf; lia|].
        eapply inRange_mono; [| |exact Hc]; lia.
      * intros (i & Hi & ->). rewrite inRange_idOf.
        destruct (decide (i = g)) as [->|]; [by left|right; lia].
    + unfold π. apply lookup_insert_eq.
    + intros c x. unfold π. destruct (decide (c = idOf g)) as [->|Hne].
      * rewrite lookup_insert_eq. by intros [= <-].
      * rewrite lookup_insert_ne by done. intros Hc.
        destruct (ca_source _ _ _ _ _ _ _ _ _ Hca c x Hc) as (k & Hk & Hr).
        destruct (Hent _ Hk) as (k' & [= <-] & _ & Hsk).
        by eapply rtc_l.
    + intros x [->|(y & Hy & Hr)]%rtc_inv.
      * exists (idOf g). unfold π. apply lookup_insert_eq.
      * destruct (ca_cover _ _ _ _ _ _ _ _ _ Hca y x) as (c & Hc);
          [|done|].
        -- destruct Hy as (sn' & Hsn' & Hy). rewrite Hsn in Hsn'.
           injection Hsn' as <-. by rewrite Hco in Hy.
        -- exists c. by apply Hsub.
    + split.
      * intros c x. unfold π.
        destruct (decide (c = idOf g)) as [->|Hne].
        -- rewrite lookup_insert_eq. intros [= <-].
           exists sn, (cloneAssembly sn (idOf g) rs).
           do 2 (split; [done|]). split; [done|].
           unfold copiedChildren. rewrite Ht. exists rs. split; [done|].
           rewrite Hco. eapply copiedEntries_mono; [exact Hsub|].
           apply (ca_roots _ _ _ _ _ _ _ _ _ Hca).
        -- rewrite lookup_insert_ne by done. intros Hc.
           destruct (cp_nodes _ _ _ (ca_copies _ _ _ _ _ _ _ _ _ Hca)
                       c x Hc) as (xn & cn & ? & Hcn & ? & ?).
           exists xn, cn. split; [done|].
           split; [by rewrite Hkeep by (by eexists)|].
           split; [done|]. eapply copiedChildren_mono; [exact Hsub|done].
      * intros x1 x2 y H1 H2.
        apply Hedge in H1 as [[-> H1]|H1];
          apply Hedge in H2 as [[-> H2]|H2]; try done.
        -- by destruct (ca_roots_orphan _ _ _ _ _ _ _ _ _ Hca x2 y H1).
        -- by destruct (ca_roots_orphan _ _ _ _ _ _ _ _ _ Hca x1 y H2).
        -- by apply (cp_unique _ _ _ (ca_copies _ _ _ _ _ _ _ _ _ Hca)
                       x1 x2 y).
    + intros c Hc. apply Hπ in Hc as [->|Hc]; [done|].
      destruct (ca_reach _ _ _ _ _ _ _ _ _ Hca c Hc) as (r & Hr & Hrc).
      eapply rtc_l.
      * split; [apply Hπ; by left|]. by apply Htopc.
      * eapply rtc_subrel; [exact HedgeL|done].
    + intros x He. apply Hedge in He as [[-> He]|He].
      * apply (ca_roots_range _ _ _ _ _ _ _ _ _ Hca), inRange_idOf in He.
        lia.
      * apply (copies_closed _ _ _ _ _ (ca_copies _ _ _ _ _ _ _ _ _ Hca))
          in He. rewrite HπLg in He. by destruct He.
    + intros k Hk Hkq. unfold π in Hk.
      apply lookup_insert_None in Hk as [Hk Hkg].
      rewrite Ho2 by done. unfold ns1. rewrite lookup_insert_ne by done.
      rewrite (ca_other _ _ _ _ _ _ _ _ _ Hca) by done.
      unfold ns0. by rewrite lookup_insert_ne.
    + by rewrite Hq2, Hq1.
Qed.
End duplicate.

(** *** Grafting a copy under a node of a tree *)

Section graft.
Context (root : NodeId) (D : NodeId → Prop) (E : relation NodeId).
Context (HT : rooted root D E).
Context (p c0 : NodeId) (F : NodeId → Prop) (EF : relation NodeId).
Context (Hp : D p) (Hc0 : F c0) (Hfresh : ∀ k, F k → ¬ D k).
Context (HF : ∀ x y, EF x y → F x ∧ F y).
Context (HFu : ∀ x1 x2 y, EF x1 y → EF x2 y → x1 = x2).
Context (HFo : ∀ x, ¬ EF x c0).
Context (HFr : ∀ c, F c → rtc EF c0 c).
Context (HFa : ∀ c, ¬ tc EF c c).

Let E' : relation NodeId := λ x y, E x y ∨ (x = p ∧ y = c0) ∨ EF x y.

Lemma graft_tc x y :
  tc E' x y → (D y → D x ∧ tc E x y) ∧ (F x → F y ∧ tc EF x y).
Proof using HT Hp Hc0 Hfresh HF.
  intros Hxy.
  assert (∀ a b, E' a b →
            (D b → D a ∧ E a b) ∧ (F a → F b ∧ EF a b)) as Hstep.
  { intros a b [Hab|[[-> ->]|Hab]].
    - destruct (rooted_closed _ _ _ HT _ _ Hab) as [Ha Hb].
      split; [done|]. intros Hfa. by destruct (Hfresh a).
    - split; [intros Hd; by destruct (Hfresh c0)|].
      intros Hf. by destruct (Hfresh p).
    - destruct (HF _ _ Hab) as [Ha Hb].
      split; [intros Hd; by destruct (Hfresh b)|done]. }
  induction Hxy as [x y Hxy|x z y Hxz Hzy IH].
  - destruct (Hstep _ _ Hxy) as [H1 H2]. split.
    + intros Hy. destruct (H1 Hy). split; [done|by apply tc_once].
    + intros Hx. destruct (H2 Hx). split; [done|by apply tc_once].
  - destruct (Hstep _ _ Hxz) as [H1 H2]. destruct IH as [IH1 IH2]. split.
    + intros Hy. destruct (IH1 Hy) as [Hz Hzy'].
      destruct (H1 Hz). split; [done|by eapply tc_l].
    + intros Hx. destruct (H2 Hx) as [Hz Hxz'].
      destruct (IH2 Hz). split; [done|by eapply tc_l].
Qed.

Lemma rooted_graft : rooted root (λ k, D k ∨ F k) E'.
Proof using All.
  split.
  - left. apply (rooted_root _ _ _ HT).
  - intros x y [Hxy|[[-> ->]|Hxy]].
    + destruct (rooted_closed _ _ _ HT _ _ Hxy). auto.
    + auto.
    + destruct (HF _ _ Hxy). auto.
  - intros a b k [Ha|[[-> ->]|Ha]] [Hb|[[-> Hk]|Hb]]; try done.
    + by apply (rooted_unique _ _ _ HT a b k).
    + subst k. destruct (rooted_closed _ _ _ HT _ _ Ha) as [_ Hd].
      by destruct (Hfresh c0).
    + destruct (rooted_closed _ _ _ HT _ _ Ha) as [_ Hd].
      destruct (HF _ _ Hb) as [_ Hf]. by destruct (Hfresh k).
    + destruct (rooted_closed _ _ _ HT _ _ Hb) as [_ Hd].
      by destruct (Hfresh c0).
    + by destruct (HFo b).
    + destruct (rooted_closed _ _ _ HT _ _ Hb) as [_ Hd].
      destruct (HF _ _ Ha) as [_ Hf]. by destruct (Hfresh k).
    + subst k. by destruct (HFo a).
    + by apply (HFu a b k).
  - intros k [Hk|Hk].
    + eapply rtc_subrel; [|by apply (rooted_connected _ _ _ HT)].
      intros a b Hab. by left.
    + apply rtc_trans with p.
      * eapply rtc_subrel; [|by apply (rooted_connected _ _ _ HT)].
        intros a b Hab. by left.
      * eapply rtc_l; [right; left; done|].
        eapply rtc_subrel; [|by apply HFr]. intros a b Hab. by do 2 right.
  - intros k Hk. pose proof (graft_tc _ _ Hk) as [H1 H2].
    assert (∀ a b, E' a b → D a ∨ F a) as Hsrc.
    { intros a b [Hab|[[-> _]|Hab]].
      - left. by destruct (rooted_closed _ _ _ HT _ _ Hab).
      - by left.
      - right. by destruct (HF _ _ Hab). }
    assert (D k ∨ F k) as [Hd|Hf].
    { inversion Hk as [? ? Hxy|? z ? Hxz _]; subst; by eapply Hsrc. }
    + destruct (H1 Hd) as [_ Hc]. by apply (rooted_acyclic _ _ _ HT k).
    + destruct (H2 Hf) as [_ Hc]. by apply (HFa k).
Qed.
End graft.

(** A cycle of copies would mirror a cycle of their sources. *)
Lemma copies_tc base ns' (π : gmap NodeId NodeId) x y :
  copies base ns' π → tc (copyEdge π ns') x y →
  ∃ x' y', π !! x = Some x' ∧ π !! y = Some y' ∧ tc (child base) x' y'.
Proof.
  intros Hc Hxy. induction Hxy as [x y Hxy|x z y Hxz Hzy IH].
  - destruct (copies_edge _ _ _ _ _ Hc Hxy) as (x' & y' & ? & ? & ?).
    exists x', y'. do 2 (split; [done|]). by apply tc_once.
  - destruct (copies_edge _ _ _ _ _ Hc Hxz) as (x' & z' & ? & Hz & ?).
    destruct IH as (z'' & y' & Hz' & ? & ?).
    rewrite Hz in Hz'. injection Hz' as <-.
    exists x', y'. do 2 (split; [done|]). by eapply tc_l.
Qed.

(** *** DUPLICATE_NODE on a well-formed model *)

Lemma truthy_Some p : truthy (Some p) = true → negb (truthy (Some p)) = false.
Proof. by intros ->. Qed.

Lemma duplicate_spec state nodeId g :
  wellFormed (model state) →
  (∀ i, g ≤ i → nodes (model state) !! idOf i = None) →
  is_Some (nodes (model state) !! nodeId) →
  nodeId ≠ rootId (model state) →
  ∃ p pn pcs ns' (π : gmap NodeId NodeId) g',
    findParent nodeId (model state) = Some p
    ∧ nodes (model state) !! p = Some pn
    ∧ type pn = assembly
    ∧ children pn = Some pcs
    ∧ Ref nodeId ∈ pcs
    ∧ duplicate state nodeId g
      = (Ok (withNodesSelected state ns' (Some (idOf g))), g')
    ∧ g' = g + S (length (getDescendants nodeId (model state)))
    ∧ copied (nodes (model state)) (nodes (model state)) ns' π nodeId p g g'.
Proof.
  intros Hwf Hfresh Hn Hne.
  destruct (wf_parent _ Hwf _ Hn Hne)
    as (p & pn & pcs & Hfp & Htr & Hpn & Ht & Hpcs & Hin).
  assert (dupReady (nodes (model state)) (nodes (model state)) p g) as Hready.
  { split; [done|done| |].
    - intros i Hi ->. rewrite Hfresh in Hpn by done. done.
    - intros qn Hq Hqt. by apply (wf_shape _ Hwf p qn). }
  destruct (duplicateNode_spec (model state) Hwf
              (S (size (nodes (model state)))) nodeId p
              (nodes (model state)) g)
    as (ns' & π & g' & Hdup & Hg' & Hcd); [by apply wf_heightLt|done|done|].
  exists p, pn, pcs, ns', π, g'. do 5 (split; [done|]).
  split; [|done].
  unfold duplicate. destruct Hn as [n Hn]. rewrite Hn.
  rewrite decide_False by done. rewrite Hfp, (truthy_Some _ Htr).
  change (default "" (Some p)) with p.
  unfold deref. rewrite Hpn. unfold bind, lift, ret.
  rewrite decide_False by (by intros ?). by rewrite Hdup.
Qed.

Lemma wellFormed_duplicate m p pn pcs ns' (π : gmap NodeId NodeId) s g g' :
  wellFormed m →
  (∀ i, g ≤ i → nodes m !! idOf i = None) →
  nodes m !! p = Some pn → type pn = assembly → children pn = Some pcs →
  copied (nodes m) (nodes m) ns' π s p g g' →
  wellFormed {| rootId := rootId m; nodes := ns' |}.
Proof.
  intros Hwf Hfresh Hp Ht Hpcs Hcd.
  pose proof (wf_tree m Hwf) as HT.
  pose proof (cd_copies _ _ _ _ _ _ _ _ Hcd) as Hcp.
  assert (∀ k, is_Some (π !! k) → nodes m !! k = None) as Hnew.
  { intros k Hk. apply (cd_range _ _ _ _ _ _ _ _ Hcd) in Hk
      as (i & Hi & ->). apply Hfresh. lia. }
  assert (π !! p = None) as Hπp.
  { destruct (π !! p) eqn:Hπ; [|done].
    rewrite Hnew in Hp by (by eexists). done. }
  assert (ns' !! p = Some (withChildren pn (pcs ++ [Ref (idOf g)]))) as Hp'.
  { rewrite (cd_attach _ _ _ _ _ _ _ _ Hcd), Hp. unfold attach.
    rewrite decide_True by done. by rewrite Hpcs. }
  assert (∀ k, π !! k = None → k ≠ p → ns' !! k = nodes m !! k) as Hold.
  { apply (cd_other _ _ _ _ _ _ _ _ Hcd). }
  assert (∀ k, is_Some (ns' !! k)
               ↔ is_Some (nodes m !! k) ∨ is_Some (π !! k)) as Hdom.
  { intros k. destruct (π !! k) as [x|] eqn:Hπ.
    - destruct (cp_nodes _ _ _ Hcp k x Hπ) as (? & cn & _ & -> & _).
      split; [right|]; by eexists.
    - destruct (decide (k = p)) as [->|Hkp].
      + rewrite Hp', Hp. split; [left|]; by eexists.
      + rewrite Hold by done. split; [by left|]. by intros [?|[? ?]]. }
  assert (∀ x y, child (nodes m) x y ∨ (x = p ∧ y = idOf g)
                 ∨ copyEdge π ns' x y ↔ child ns' x y) as Hch.
  { intros x y. destruct (π !! x) as [x'|] eqn:Hπ.
    - split.
      + intros [Hxy|[[-> _]|[_ Hxy]]]; [|congruence|done].
        apply child_is_Some in Hxy. rewrite Hnew in Hxy by (by eexists).
        by destruct Hxy.
      + intros Hxy. do 2 right. split; [by eexists|done].
    - destruct (decide (x = p)) as [->|Hxp].
      + unfold child. rewrite Hp', Hp. split.
        * intros [(? & [= <-] & Hy)|[[_ ->]|[[? Hx] _]]];
            [| |congruence]; (eexists; split; [done|]);
            unfold childrenOf; simpl; rewrite Ht; simpl;
            apply elem_of_app.
          -- left. by rewrite (childrenOf_children pn pcs) in Hy.
          -- right. by left.
        * intros (? & [= <-] & Hy). unfold childrenOf in Hy. simpl in Hy.
          rewrite Ht in Hy. simpl in Hy.
          apply elem_of_app in Hy as [Hy|Hy].
          -- left. exists pn. split; [done|].
             by rewrite (childrenOf_children pn pcs).
          -- apply list_elem_of_singleton in Hy as [= ->]. right. by left.
      + rewrite <- (child_lookup _ _ x y (Hold x Hπ Hxp)). split.
        * intros [?|[[? _]|[[? ?] _]]]; [done|done|congruence].
        * by left. }
  split; cbn [nodes rootId].
  - destruct (Hdom "") as [Hd _]. destruct (ns' !! "") eqn:He; [|done].
    destruct Hd as [Hd|Hd]; [by eexists| |].
    + rewrite (wf_keys m Hwf) in Hd. by destruct Hd.
    + apply (cd_range _ _ _ _ _ _ _ _ Hcd) in Hd as (i & _ & Hi).
      symmetry in Hi. by apply idOf_nonempty in Hi.
  - intros k n Hk. destruct (π !! k) as [x|] eqn:Hπ.
    + destruct (cp_nodes _ _ _ Hcp k x Hπ)
        as (xn & cn & Hxn & Hcn & (_ & Htc & _) & Hcc).
      rewrite Hk in Hcn. injection Hcn as <-. rewrite Htc.
      unfold copiedChildren in Hcc.
      pose proof (wf_shape m Hwf x xn Hxn) as Hsh.
      destruct (type xn).
      * rewrite Hcc. done.
      * destruct Hcc as (cs' & -> & _). split; [by eexists|done].
    + destruct (decide (k = p)) as [->|Hkp].
      * rewrite Hp' in Hk. injection Hk as <-. simpl. rewrite Ht.
        split; [by eexists|done].
      * rewrite Hold in Hk by done. by apply (wf_shape m Hwf k).
  - intros k n cs c Hk Hcs Hc. setoid_rewrite Hdom.
    destruct (π !! k) as [x|] eqn:Hπ.
    + destruct (cp_nodes _ _ _ Hcp k x Hπ)
        as (xn & cn & Hxn & Hcn & (_ & Htc & _) & Hcc).
      rewrite Hk in Hcn. injection Hcn as <-.
      unfold copiedChildren in Hcc.
      pose proof (wf_shape m Hwf x xn Hxn) as Hsh.
      destruct (type xn).
      * rewrite Hcc in Hcs.
        assert (is_Some (children xn)) as Hs by (by eexists).
        apply Hsh in Hs. done.
      * destruct Hcc as (cs' & Hcs' & Hent). rewrite Hcs in Hcs'.
        injection Hcs' as <-.
        assert (∃ y, c = Ref y ∧ is_Some (π !! y)) as (y & -> & Hy).
        { clear -Hent Hc. induction Hent as [|? ? ? ? (ks & kd & -> & -> & ?)];
            [by apply elem_of_nil in Hc|].
          apply elem_of_cons in Hc as [->|Hc]; [|by apply IHHent].
          exists kd. split; [done|by eexists]. }
        exists y. auto.
    + destruct (decide (k = p)) as [->|Hkp].
      * rewrite Hp' in Hk. injection Hk as <-. simpl in Hcs.
        injection Hcs as <-. apply elem_of_app in Hc as [Hc|Hc].
        -- destruct (wf_entries m Hwf p pn pcs c Hp Hpcs Hc) as (y & -> & ?).
           exists y. auto.
        -- apply list_elem_of_singleton in Hc as ->. exists (idOf g).
           split; [done|]. right. rewrite (cd_top _ _ _ _ _ _ _ _ Hcd).
           by eexists.
      * rewrite Hold in Hk by done.
        destruct (wf_entries m Hwf k n cs c Hk Hcs Hc) as (y & -> & ?).
        exists y. auto.
  - eapply rooted_ext;
      [| |apply (rooted_graft _ _ _ HT p (idOf g)
                   (λ k, is_Some (π !! k)) (copyEdge π ns'))].
    + intros k. cbn beta. by rewrite Hdom.
    + exact Hch.
    + by eexists.
    + rewrite (cd_top _ _ _ _ _ _ _ _ Hcd). by eexists.
    + intros k Hk. rewrite Hnew by done. by intros [? ?].
    + intros x y Hxy. split; [by destruct Hxy|].
      by eapply copies_closed.
    + apply (cp_unique _ _ _ Hcp).
    + apply (cd_top_orphan _ _ _ _ _ _ _ _ Hcd).
    + apply (cd_reach _ _ _ _ _ _ _ _ Hcd).
    + intros c Hc. destruct (copies_tc _ _ _ _ _ Hcp Hc)
        as (x' & y' & Hx & Hy & Htc).
      rewrite Hx in Hy. injection Hy as <-.
      by apply (rooted_acyclic _ _ _ HT x').
  - destruct (wf_root m Hwf) as (r & Hr & Hrt).
    destruct (decide (rootId m = p)) as [Heq|Hrp].
    + rewrite Heq, Hp'. eexists. split; [done|]. done.
    + exists r. split; [|done]. rewrite Hold; [done| |done].
      destruct (π !! rootId m) eqn:Hπ; [|done].
      rewrite Hnew in Hr by (by eexists). done.
Qed.

(** ** The invariant of the store *)

Lemma unused_mono g g' ns : g ≤ g' → unused g ns → unused g' ns.
Proof. intros Hg Hu i Hi. apply Hu. lia. Qed.

Lemma unused_insert_old g (ns : Nodes) k n :
  is_Some (ns !! k) → unused g ns → unused g (<[k := n]> ns).
Proof.
  intros Hk Hu i Hi. rewrite lookup_insert_ne; [by apply Hu|].
  intros ->. rewrite Hu in Hk by done. by destruct Hk.
Qed.

Lemma unused_insert_new g (ns : Nodes) n :
  unused g ns → unused (S g) (<[idOf g := n]> ns).
Proof.
  intros Hu i Hi. rewrite lookup_insert_ne; [apply Hu; lia|].
  intros Heq%idOf_inj. lia.
Qed.

Lemma wellFormed_eta m :
  wellFormed m → wellFormed {| rootId := rootId m; nodes := nodes m |}.
Proof. by destruct m. Qed.

Lemma wf_noUndefined m : wellFormed m → noUndefined (nodes m).
Proof.
  intros Hwf k n cs Hk Hcs Hc.
  by destruct (wf_entries m Hwf k n cs Undefined Hk Hcs Hc) as (? & ? & _).
Qed.

Lemma addPrimitive_sound state parentId pt nm g newState :
  wellFormed (model state) → unused g (nodes (model state)) →
  addPrimitive (idOf g) state parentId pt nm = Ok newState →
  wellFormed (model newState) ∧ unused (S g) (nodes (model newState)).
Proof.
  intros Hwf Hu. unfold addPrimitive, deref.
  destruct (nodes (model state) !! parentId) as [parent|] eqn:Hp; [|done].
  simpl. destruct (decide (type parent ≠ assembly)) as [Ht|Ht].
  { intros [= <-]. split; [done|]. eapply unused_mono; [|done]. lia. }
  apply dec_stable in Ht. unfold childArray.
  destruct (children parent) as [cs|] eqn:Hcs; [|done]. simpl.
  intros [= <-]. cbn [model withNodesSelected nodes]. split.
  - apply (wellFormed_add (model state) parentId parent cs);
      [done|done|done|done|apply Hu; lia|apply idOf_nonempty| |done].
    simpl. split; [done|]. by intros [? ?].
  - apply unused_insert_old.
    + rewrite lookup_insert_ne; [by eexists|].
      intros <-. rewrite Hu in Hp by lia. done.
    + by apply unused_insert_new.
Qed.

Lemma addAssembly_sound state parentId nm g newState :
  wellFormed (model state) → unused g (nodes (model state)) →
  addAssembly (idOf g) state parentId nm = Ok newState →
  wellFormed (model newState) ∧ unused (S g) (nodes (model newState)).
Proof.
  intros Hwf Hu. unfold addAssembly, deref.
  destruct (nodes (model state) !! parentId) as [parent|] eqn:Hp; [|done].
  simpl. destruct (decide (type parent ≠ assembly)) as [Ht|Ht].
  { intros [= <-]. split; [done|]. eapply unused_mono; [|done]. lia. }
  apply dec_stable in Ht. unfold childArray.
  destruct (children parent) as [cs|] eqn:Hcs; [|done]. simpl.
  intros [= <-]. cbn [model withNodes nodes]. split.
  - apply (wellFormed_add (model state) parentId parent cs);
      [done|done|done|done|apply Hu; lia|apply idOf_nonempty| |].
    + simpl. split; [by eexists|done].
    + simpl. by intros l [= <-].
  - apply unused_insert_old.
    + rewrite lookup_insert_ne; [by eexists|].
      intros <-. rewrite Hu in Hp by lia. done.
    + by apply unused_insert_new.
Qed.

Lemma deleteNode_sound state nodeId g newState :
  wellFormed (model state) → unused g (nodes (model state)) →
  deleteNode state nodeId = Ok newState →
  wellFormed (model newState) ∧ unused g (nodes (model newState)).
Proof.
  intros Hwf Hu Hdel.
  destruct (nodes (model state) !! nodeId) as [n|] eqn:Hn.
  2:{ unfold deleteNode in Hdel. rewrite Hn in Hdel. by injection Hdel as <-. }
  destruct (decide (nodeId = rootId (model state))) as [->|Hne].
  { unfold deleteNode in Hdel. rewrite Hn, findParent_root in Hdel by done.
    by injection Hdel as <-. }
  destruct (deleteNode_wf state nodeId Hwf (ltac:(by eexists)) Hne)
    as (p & pn & pcs & Hfp & Hpn & Ht & Hpcs & Hin & HpS & Heq).
  rewrite Heq in Hdel. injection Hdel as <-. cbn [model nodes]. split.
  - by apply (wellFormed_delete (model state) nodeId p pn pcs).
  - intros i Hi.
    change (deleteAll (getDescendants nodeId (model state))
              (delete nodeId (nodes (model state))))
      with (deleteAll (Ref nodeId :: getDescendants nodeId (model state))
              (nodes (model state))).
    rewrite deleteNode_nodes by done.
    destruct (decide (idOf i = p)) as [Heq'|_].
    + rewrite <- Heq', Hu in Hpn by done. done.
    + destruct (decide (idOf i ∈ _)); [done|by apply Hu].
Qed.

Lemma replace_sound state k n n' g :
  wellFormed (model state) → unused g (nodes (model state)) →
  nodes (model state) !! k = Some n →
  type n' = type n → children n' = children n →
  wellFormed (model (withNodes state (<[k := n']> (nodes (model state)))))
  ∧ unused g (nodes (model (withNodes state
                              (<[k := n']> (nodes (model state)))))).
Proof.
  intros Hwf Hu Hk Ht Hc. cbn [model withNodes nodes]. split.
  - apply (wellFormed_replace (model state) k n);
      [done|done|done|by rewrite Hc|by rewrite Hc].
  - apply unused_insert_old; [by eexists|done].
Qed.

Lemma reorderChildren_sound state parentId i j g newState :
  wellFormed (model state) → unused g (nodes (model state)) →
  benign state (REORDER_CHILDREN parentId i j) →
  reorderChildren state parentId i j = Ok newState →
  wellFormed (model newState) ∧ unused g (nodes (model newState)).
Proof.
  intros Hwf Hu Hb. unfold reorderChildren, deref.
  destruct (nodes (model state) !! parentId) as [parent|] eqn:Hp; [|done].
  simpl. destruct (decide (type parent ≠ assembly)) as [Ht|Ht].
  { by intros [= <-]. }
  apply dec_stable in Ht. unfold childArray.
  destruct (children parent) as [cs|] eqn:Hcs; [|done]. simpl.
  intros [= <-]. cbn [model withNodes nodes].
  destruct (Hb parent cs Hp Hcs) as [Hi Hne]. split.
  - apply (wellFormed_replace (model state) parentId parent);
      [done|done|done| |].
    + simpl. rewrite Hcs. split; by eexists.
    + intros c. simpl. rewrite Hcs. simpl.
      by rewrite (reorder_within cs i j Hi Hne).
  - apply unused_insert_old; [by eexists|done].
Qed.

Lemma moveNode_sound state nodeId newParentId g newState :
  wellFormed (model state) → unused g (nodes (model state)) →
  benign state (MOVE_NODE nodeId newParentId) →
  moveNode state nodeId newParentId = Ok newState →
  wellFormed (model newState) ∧ unused g (nodes (model newState)).
Proof.
  intros Hwf Hu Hn. simpl in Hn. unfold moveNode.
  destruct (validateTreeMove nodeId newParentId (model state)) eqn:Hv;
    simpl; [|by intros [= <-]].
  unfold validateTreeMove in Hv.
  apply andb_true_iff in Hv as [Hne Hnd].
  apply bool_decide_eq_true in Hne, Hnd.
  assert (¬ rtc (child (nodes (model state))) nodeId newParentId) as Hnq.
  { intros [?|Hr]%rtc_tc; [done|]. by apply Hnd, getDescendants_spec. }
  unfold deref.
  destruct (nodes (model state) !! newParentId) as [qn|] eqn:Hq; [|done].
  simpl. destruct (decide (type qn ≠ assembly)) as [Ht|Ht].
  { by intros [= <-]. }
  apply dec_stable in Ht.
  assert (nodeId ≠ rootId (model state)) as Hroot.
  { intros ->. apply Hnq.
    apply (rooted_connected _ _ _ (wf_tree _ Hwf)). by eexists. }
  destruct (wf_parent _ Hwf _ Hn Hroot)
    as (p & pn & pcs & Hfp & Htr & Hpn & Htp & Hpcs & Hin).
  rewrite Hfp, Htr. change (default "" (Some p)) with p.
  rewrite Hpn. simpl. rewrite decide_True by done.
  unfold childArray. rewrite Hpcs. simpl.
  destruct (proj1 (wf_shape _ Hwf _ _ Hq) Ht) as [qcs Hqcs].
  rewrite Hqcs. simpl. intros [= <-]. cbn [model withNodes nodes]. split.
  - by apply (wellFormed_move (model state) nodeId newParentId p pn pcs
                qn qcs).
  - apply unused_insert_old.
    + destruct (decide (newParentId = p)) as [->|Hqp].
      * rewrite lookup_insert_eq. by eexists.
      * rewrite lookup_insert_ne by done. by eexists.
    + apply unused_insert_old; [by eexists|done].
Qed.

Lemma duplicate_sound state nodeId g newState g' :
  wellFormed (model state) → unused g (nodes (model state)) →
  duplicate state nodeId g = (Ok newState, g') →
  wellFormed (model newState) ∧ unused g' (nodes (model newState)) ∧ g ≤ g'.
Proof.
  intros Hwf Hu Hdup.
  destruct (nodes (model state) !! nodeId) as [n|] eqn:Hn.
  2:{ unfold duplicate in Hdup. rewrite Hn in Hdup.
      injection Hdup as <- <-. done. }
  destruct (decide (nodeId = rootId (model state))) as [Heq|Hne].
  { unfold duplicate in Hdup. rewrite Hn, decide_True in Hdup by done.
    injection Hdup as <- <-. done. }
  destruct (duplicate_spec state nodeId g Hwf Hu (ltac:(by eexists)) Hne)
    as (p & pn & pcs & ns' & π & g1 & Hfp & Hpn & Ht & Hpcs & Hin & Heq
        & Hg1 & Hcd).
  rewrite Heq in Hdup. injection Hdup as <- <-.
  cbn [model withNodesSelected nodes]. split; [|split; [|lia]].
  - by apply (wellFormed_duplicate (model state) p pn pcs ns' π nodeId g g1).
  - intros i Hi.
    assert (π !! idOf i = None) as Hπ.
    { destruct (π !! idOf i) eqn:Hπ; [|done].
      assert (inRange g g1 (idOf i)) as Hr.
      { apply (cd_range _ _ _ _ _ _ _ _ Hcd). by eexists. }
      apply inRange_idOf in Hr. lia. }
    rewrite (cd_other _ _ _ _ _ _ _ _ Hcd); [apply Hu; lia|done|].
    intros Heq'. rewrite <- Heq', Hu in Hpn by lia. done.
Qed.

Lemma applyAction_sound state a g newState g' :
  wellFormed (model state) → unused g (nodes (model state)) →
  benign state a →
  applyAction state a g = (Ok newState, g') →
  wellFormed (model newState) ∧ unused g' (nodes (model newState)) ∧ g ≤ g'.
Proof.
  intros Hwf Hu Hb.
  assert (∀ o : Outcome ModelState,
            (∀ s, o = Ok s →
                  wellFormed (model s) ∧ unused g (nodes (model s))) →
            lift o g = (Ok newState, g') →
            wellFormed (model newState)
            ∧ unused g' (nodes (model newState)) ∧ g ≤ g') as Hlift.
  { intros o Ho [= -> <-]. destruct (Ho newState eq_refl). auto. }
  assert (∀ k n n', nodes (model state) !! k = Some n →
            type n' = type n → children n' = children n →
            ∀ s, Ok (withNodes state (<[k := n']> (nodes (model state))))
                 = Ok s →
                 wellFormed (model s) ∧ unused g (nodes (model s)))
    as Hrep.
  { intros k n n' Hk Ht Hc s [= <-]. by apply (replace_sound state k n). }
  destruct a; simpl.
  - unfold bind, generateId, lift.
    destruct (addPrimitive _ _ _ _ _) as [s| |] eqn:Ha; try done.
    intros [= <- <-].
    destruct (addPrimitive_sound _ _ _ _ _ _ Hwf Hu Ha). auto.
  - unfold bind, generateId, lift.
    destruct (addAssembly _ _ _ _) as [s| |] eqn:Ha; try done.
    intros [= <- <-].
    destruct (addAssembly_sound _ _ _ _ _ Hwf Hu Ha). auto.
  - apply Hlift. intros s. by apply deleteNode_sound.
  - apply Hlift. unfold updateNode.
    destruct (nodes (model state) !! nodeId) as [n|] eqn:Hn;
      [|by intros s [= <-]].
    destruct Hb as [Hbt Hbc]. apply (Hrep nodeId n); [done| |].
    + unfold mergeUpdates. simpl. by rewrite Hbt.
    + unfold mergeUpdates. simpl. by rewrite Hbc.
  - apply Hlift. unfold updateTransform.
    destruct (nodes (model state) !! nodeId) as [n|] eqn:Hn;
      [|by intros s [= <-]].
    by apply (Hrep nodeId n).
  - apply Hlift. intros s. by apply reorderChildren_sound.
  - apply Hlift. intros s. by apply moveNode_sound.
  - intros [= <- <-]. auto.
  - apply Hlift. unfold renameNode.
    destruct (nodes (model state) !! nodeId) as [n|] eqn:Hn;
      [|by intros s [= <-]].
    by apply (Hrep nodeId n).
  - apply Hlift. unfold toggleVisibility.
    destruct (nodes (model state) !! nodeId) as [n|] eqn:Hn;
      [|by intros s [= <-]].
    by apply (Hrep nodeId n).
  - apply Hlift. unfold updatePrimitiveProperties.
    destruct (nodes (model state) !! nodeId) as [n|] eqn:Hn;
      [|by intros s [= <-]].
    destruct (decide (type n ≠ primitive)); [by intros s [= <-]|].
    by apply (Hrep nodeId n).
  - by apply duplicate_sound.
  - intros [= <- <-]. auto.
  - intros [= <- <-]. auto.
Qed.

Lemma take_Forall {A} (P : A → Prop) n (l : list A) :
  Forall P l → Forall P (take n l).
Proof. intros H. by apply Forall_take. Qed.

Lemma saveToHistory_entries (P : ModelState → Prop) state newState :
  historyOk state → Forall P (history state) → P (snapshot newState) →
  Forall P (history (saveToHistory state newState)).
Proof.
  intros Hok Hh Hs.
  destruct (saveToHistory_history state newState Hok) as [-> _].
  assert (Forall P (take (Z.to_nat (historyIndex state + 1)) (history state)
                    ++ [snapshot newState])) as H.
  { apply Forall_app. split; [by apply Forall_take|by constructor]. }
  destruct (decide _); [by apply Forall_drop|done].
Qed.

Lemma restore_sound (P : ModelState → Prop) state i s' :
  Forall P (history state) →
  restore state (at_index (history state) i) (i) = Ok s' →
  ∃ e, P e ∧ model s' = model e ∧ selection s' = selection e
       ∧ history s' = history state.
Proof.
  intros Hh. unfold restore, at_index.
  destruct (i <? 0)%Z; [done|].
  destruct (history state !! Z.to_nat i) as [e|] eqn:He; [|done].
  intros [= <-]. exists e. split; [|done].
  rewrite Forall_lookup in Hh. by eapply Hh.
Qed.

Lemma dispatch_sound w a w' :
  sound w → benign (current w) a → dispatch w a = Ok w' → sound w'.
Proof.
  intros (Hwf & Hu & Hok & Hh) Hb Hd.
  pose proof (dispatch_historyOk w a w' Hok Hd) as Hok'.
  apply dispatch_Ok in Hd.
  destruct (shouldSaveToHistory a) eqn:Hs.
  - rewrite reducer_significant in Hd by done.
    destruct (applyAction _ _ _) as [[ns| |] g] eqn:Ha; try done.
    injection Hd as Hcur Hg.
    destruct (applyAction_sound _ _ _ _ _ Hwf Hu Hb Ha) as (Hwf' & Hu' & Hgg).
    subst g. unfold sound. rewrite <- Hcur.
    destruct (saveToHistory_model (current w) ns) as [-> _].
    do 2 (split; [done|]). split; [by rewrite Hcur|].
    apply saveToHistory_entries; [done| |].
    + eapply Forall_impl; [exact Hh|]. intros e [? ?]. split; [done|].
      by eapply unused_mono.
    + rewrite snapshot_model by (by apply wf_noUndefined). done.
  - destruct a; try discriminate Hs; simpl in Hd.
    + injection Hd as Hcur Hg. unfold sound. rewrite <- Hcur, <- Hg.
      simpl. done.
    + unfold lift in Hd. injection Hd as Hu1 Hg.
      unfold sound. rewrite <- Hg. unfold undo in Hu1.
      destruct (0 <? historyIndex (current w))%Z.
      * destruct (restore_sound _ _ _ _ Hh Hu1) as (e & [He1 He2] & Hm & _ & Hhh).
        rewrite Hm, Hhh. done.
      * injection Hu1 as <-. done.
    + unfold lift in Hd. injection Hd as Hu1 Hg.
      unfold sound. rewrite <- Hg. unfold redo in Hu1.
      destruct (_ <? _)%Z.
      * destruct (restore_sound _ _ _ _ Hh Hu1) as (e & [He1 He2] & Hm & _ & Hhh).
        rewrite Hm, Hhh. done.
      * injection Hu1 as <-. done.
Qed.

Lemma wellFormed_initial : wellFormed (model (current initialStore)).
Proof.
  assert (model (current initialStore)
          = {| rootId := idOf 0;
               nodes := {[ idOf 0 :=
                 {| nid := idOf 0; type := assembly; name := "Root";
                    transform := DEFAULT_TRANSFORM; visible := true;
                    primitiveType := None; properties := None;
                    color := None; children := Some [] |} ]} |}) as ->
    by reflexivity.
  assert (∀ p k, ¬ child ({[ idOf 0 :=
                 {| nid := idOf 0; type := assembly; name := "Root";
                    transform := DEFAULT_TRANSFORM; visible := true;
                    primitiveType := None; properties := None;
                    color := None; children := Some [] |} ]} : Nodes) p k)
    as Hno.
  { intros p k (n & Hn & Hk). apply lookup_singleton_Some in Hn as [_ <-].
    by apply elem_of_nil in Hk. }
  split; cbn [nodes rootId].
  - apply lookup_singleton_None. apply idOf_nonempty.
  - intros k n [_ <-]%lookup_singleton_Some. split; [by eexists|done].
  - intros p n cs c [_ <-]%lookup_singleton_Some [= <-] Hc.
    by apply elem_of_nil in Hc.
  - split.
    + rewrite lookup_singleton_eq. by eexists.
    + intros x y Hxy. by destruct (Hno x y).
    + intros p q k Hp. by destruct (Hno p k).
    + intros k [n [-> _]%lookup_singleton_Some]. done.
    + intros k Hk. inversion Hk as [? ? Hxy|? z ? Hxz _]; subst;
        by eapply Hno.
  - eexists. split; [apply lookup_singleton_eq|done].
Qed.

Lemma sound_initial : sound initialStore.
Proof.
  split; [apply wellFormed_initial|].
  assert (unused 1 (nodes (model (current initialStore)))) as Hu.
  { intros i Hi. change (nodes (model (current initialStore)))
      with ({[ idOf 0 :=
                 {| nid := idOf 0; type := assembly; name := "Root";
                    transform := DEFAULT_TRANSFORM; visible := true;
                    primitiveType := None; properties := None;
                    color := None; children := Some [] |} ]} : Nodes).
    apply lookup_singleton_None. intros Heq%idOf_inj. lia. }
  split; [done|]. split; [apply initialStore_historyOk|].
  destruct initialStore_facts as (-> & _ & Hm).
  constructor; [|done]. rewrite Hm. split; [apply wellFormed_initial|done].
Qed.

Lemma reachableBy_sound w : reachableBy benign w → sound w.
Proof.
  induction 1 as [|w a w' _ IH Hb Hd]; [apply sound_initial|].
  by eapply dispatch_sound.
Qed.


(** ** The tree invariant (C1) *)





(** ** DUPLICATE_NODE (C7) *)

Global Instance idOf_inj' : Inj (=) (=) idOf.
Proof. intros i j. apply idOf_inj. Qed.



(** ** Examples: the claims at concrete states *)

Lemma reachableBy_dispatchAll (P : ModelState → ModelAction → Prop)
    actions : ∀ w w',
  reachableBy P w → (∀ s, Forall (P s) actions) →
  dispatchAll w actions = Ok w' → reachableBy P w'.
Proof.
  induction actions as [|a rest IH]; intros w w' Hw HP; simpl.
  - by intros [= <-].
  - destruct (dispatch w a) as [w1| |] eqn:Hd; simpl; try done.
    apply IH.
    + eapply reachableBy_step; [done| |done].
      specialize (HP (current w)). by inversion HP.
    + intros s. specialize (HP s). by inversion HP.
Qed.

(** An assembly [node-1] under the root with a box [node-2] in it, which
    is the selected node. *)
Lemma example_state :
  (do* w := dispatchAll initialStore
              [ADD_ASSEMBLY (idOf 0) "Assembly 1";
               ADD_PRIMITIVE (idOf 1) box "Mesh 1"] in
   Ok (rootId (model (current w)),
       nid <$> nodes (model (current w)) !! idOf 1,
       getChildren (idOf 1) (model (current w)),
       selectedNodeId (selection (current w)),
       size (nodes (model (current w)))))
  = Ok (idOf 0, Some (idOf 1), [Ref (idOf 2)], Some (idOf 2), 3).
Proof. vm_compute. reflexivity. Defined.

Lemma example_state_facts :
  ∃ w, dispatchAll initialStore
         [ADD_ASSEMBLY (idOf 0) "Assembly 1";
          ADD_PRIMITIVE (idOf 1) box "Mesh 1"] = Ok w
       ∧ sound w
       ∧ is_Some (nodes (model (current w)) !! idOf 1)
       ∧ idOf 1 ≠ rootId (model (current w))
       ∧ tc (child (nodes (model (current w)))) (idOf 1) (idOf 2)
       ∧ selectedNodeId (selection (current w)) = Some (idOf 2)
       ∧ size (nodes (model (current w))) = 3.
Proof.
  pose proof example_state as H.
  destruct (dispatchAll initialStore _) as [w| |] eqn:Hrun;
    try discriminate H.
  injection H as Hroot Hn Hc Hsel Hsize.
  exists w. split; [reflexivity|]. split.
  { apply reachableBy_sound.
    apply (reachableBy_dispatchAll benign
             [ADD_ASSEMBLY (idOf 0) "Assembly 1";
              ADD_PRIMITIVE (idOf 1) box "Mesh 1"] initialStore w).
    - apply reachableBy_init.
    - intros s. repeat constructor.
    - exact Hrun. }
  split.
  { destruct (nodes (model (current w)) !! idOf 1); [by eexists|].
    discriminate Hn. }
  split.
  { rewrite Hroot. intros Heq. apply idOf_inj in Heq. discriminate Heq. }
  split.
  { apply tc_once, child_getChildren. rewrite Hc. apply list_elem_of_here. }
  split; [exact Hsel|exact Hsize].
Defined.

Lemma cascade_delete_witness :
  ∃ w s',
    dispatchAll initialStore
      [ADD_ASSEMBLY (idOf 0) "Assembly 1";
       ADD_PRIMITIVE (idOf 1) box "Mesh 1"] = Ok w
    ∧ modelReducer (current w) (DELETE_NODE (idOf 1)) (counter w)
      = (Ok s', counter w)
    ∧ size (nodes (model (current w)))
      = size (nodes (model s'))
        + S (size (descendantSet (idOf 1) (model (current w)))).
Proof.
  destruct example_state_facts
    as (w & Hrun & (Hwf & _) & Hn & Hne & _).
  destruct (cascade_delete (current w) (idOf 1) (counter w) Hwf Hn)
    as (_ & Hdel & _).
  destruct (Hdel Hne) as (s' & p & pn & pcs & Hred & _ & Hsize & _).
  exists w, s'. split; [exact Hrun|]. split; [exact Hred|exact Hsize].
Defined.

Lemma dangling_selection_after_delete_witness :
  ∃ w s',
    dispatchAll initialStore
      [ADD_ASSEMBLY (idOf 0) "Assembly 1";
       ADD_PRIMITIVE (idOf 1) box "Mesh 1"] = Ok w
    ∧ modelReducer (current w) (DELETE_NODE (idOf 1)) (counter w)
      = (Ok s', counter w)
    ∧ selectedNodeId (selection s') = Some (idOf 2)
    ∧ nodes (model s') !! idOf 2 = None.
Proof.
  destruct example_state_facts
    as (w & Hrun & (Hwf & _) & Hn & Hne & Hd & Hsel & _).
  destruct (dangling_selection_after_delete (current w) (idOf 1) (idOf 2)
              (counter w) Hwf Hn Hne Hd Hsel)
    as (s' & Hred & _ & _ & _ & Hsel' & Hgone).
  exists w, s'. split; [exact Hrun|]. split; [exact Hred|].
  split; [exact Hsel'|exact Hgone].
Defined.




(** * Further properties of the reducer *)

(** ** ADD_PRIMITIVE and ADD_ASSEMBLY *)

Lemma saved_model state newState :
  model (saveToHistory state newState) = model newState.
Proof. by destruct (saveToHistory_model state newState). Qed.

Lemma saved_selection state newState :
  selection (saveToHistory state newState) = selection newState.
Proof. by destruct (saveToHistory_model state newState). Qed.

(** X1. ADD_PRIMITIVE under an existing assembly, with an identifier that is
    not yet a key: the new primitive is stored under the identifier with
    the default properties of its kind, the default transform, visible and
    white; the identifier is appended to the children of the parent; no
    other node changes; the new node becomes the selected one; a
    well-formed model stays well-formed. *)
Theorem add_primitive_appends (state : ModelState) (parentId : NodeId)
    (pt : PrimitiveType) (nm : string) (g : nat) (parent : ModelNode)
    (cs : list ChildRef) :
  nodes (model state) !! parentId = Some parent →
  type parent = assembly →
  children parent = Some cs →
  nodes (model state) !! idOf g = None →
  ∃ s', modelReducer state (ADD_PRIMITIVE parentId pt nm) g = (Ok s', S g)
        ∧ nodes (model s') !! idOf g
          = Some {| nid := idOf g; type := primitive; name := nm;
                    transform := DEFAULT_TRANSFORM; visible := true;
                    primitiveType := Some pt;
                    properties := Some (PRIMITIVE_DEFAULTS pt);
                    color := Some "#ffffff"; children := None |}
        ∧ nodes (model s') !! parentId
          = Some (withChildren parent (cs ++ [Ref (idOf g)]))
        ∧ (∀ k, k ≠ idOf g → k ≠ parentId →
                nodes (model s') !! k = nodes (model state) !! k)
        ∧ rootId (model s') = rootId (model state)
        ∧ selectedNodeId (selection s') = Some (idOf g)
        ∧ hoveredNodeId (selection s') = hoveredNodeId (selection state)
        ∧ (wellFormed (model state) → wellFormed (model s')).
Proof.
  intros Hp Ht Hc Hf.
  assert (idOf g ≠ parentId) as Hne
    by (intros Heq; rewrite <- Heq in Hp; congruence).
  eexists. split.
  { rewrite reducer_significant by done. simpl.
    unfold bind, generateId, lift, addPrimitive, deref. rewrite Hp. simpl.
    rewrite decide_False by (by intros H; apply H).
    unfold childArray. rewrite Hc. simpl. reflexivity. }
  rewrite saved_model, saved_selection. simpl.
  split. { rewrite lookup_insert_ne by done. by rewrite lookup_insert_eq. }
  split. { by rewrite lookup_insert_eq. }
  split. { intros k Hk1 Hk2. by rewrite !lookup_insert_ne by done. }
  do 3 (split; [done|]).
  intros Hwf. apply wellFormed_add; try done; try apply idOf_nonempty.
  simpl. split; [done|by intros [? ?]].
Qed.

Lemma add_primitive_appends_witness :
  ∃ s', modelReducer (current initialStore)
          (ADD_PRIMITIVE (idOf 0) box "Mesh 1") 1 = (Ok s', 2)
        ∧ selectedNodeId (selection s') = Some (idOf 1).
Proof.
  destruct (add_primitive_appends (current initialStore) (idOf 0) box
              "Mesh 1" 1
              {| nid := idOf 0; type := assembly; name := "Root";
                 transform := DEFAULT_TRANSFORM; visible := true;
                 primitiveType := None; properties := None; color := None;
                 children := Some [] |} [])
    as (s' & Hr & _ & _ & _ & _ & Hs & _).
  - vm_compute. reflexivity.
  - reflexivity.
  - reflexivity.
  - vm_compute. reflexivity.
  - exists s'. split; [exact Hr|exact Hs].
Defined.

(** X2. ADD_ASSEMBLY under an existing assembly, with an identifier that is
    not yet a key: an assembly without children is stored under the
    identifier, which is appended to the children of the parent; no other
    node changes; unlike ADD_PRIMITIVE, the selection is left as it was; a
    well-formed model stays well-formed. *)
Theorem add_assembly_appends (state : ModelState) (parentId : NodeId)
    (nm : string) (g : nat) (parent : ModelNode) (cs : list ChildRef) :
  nodes (model state) !! parentId = Some parent →
  type parent = assembly →
  children parent = Some cs →
  nodes (model state) !! idOf g = None →
  ∃ s', modelReducer state (ADD_ASSEMBLY parentId nm) g = (Ok s', S g)
        ∧ nodes (model s') !! idOf g
          = Some {| nid := idOf g; type := assembly; name := nm;
                    transform := DEFAULT_TRANSFORM; visible := true;
                    primitiveType := None; properties := None;
                    color := None; children := Some [] |}
        ∧ nodes (model s') !! parentId
          = Some (withChildren parent (cs ++ [Ref (idOf g)]))
        ∧ (∀ k, k ≠ idOf g → k ≠ parentId →
                nodes (model s') !! k = nodes (model state) !! k)
        ∧ rootId (model s') = rootId (model state)
        ∧ selection s' = selection state
        ∧ (wellFormed (model state) → wellFormed (model s')).
Proof.
  intros Hp Ht Hc Hf.
  assert (idOf g ≠ parentId) as Hne
    by (intros Heq; rewrite <- Heq in Hp; congruence).
  eexists. split.
  { rewrite reducer_significant by done. simpl.
    unfold bind, generateId, lift, addAssembly, deref. rewrite Hp. simpl.
    rewrite decide_False by (by intros H; apply H).
    unfold childArray. rewrite Hc. simpl. reflexivity. }
  rewrite saved_model, saved_selection. simpl.
  split. { rewrite lookup_insert_ne by done. by rewrite lookup_insert_eq. }
  split. { by rewrite lookup_insert_eq. }
  split. { intros k Hk1 Hk2. by rewrite !lookup_insert_ne by done. }
  do 2 (split; [done|]).
  intros Hwf. apply wellFormed_add; try done; try apply idOf_nonempty.
  simpl. intros l Hl. by simplify_eq.
Qed.

Lemma add_assembly_appends_witness :
  ∃ s', modelReducer (current initialStore)
          (ADD_ASSEMBLY (idOf 0) "Assembly 1") 1 = (Ok s', 2)
        ∧ selection s' = selection (current initialStore).
Proof.
  destruct (add_assembly_appends (current initialStore) (idOf 0)
              "Assembly 1" 1
              {| nid := idOf 0; type := assembly; name := "Root";
                 transform := DEFAULT_TRANSFORM; visible := true;
                 primitiveType := None; properties := None; color := None;
                 children := Some [] |} [])
    as (s' & Hr & _ & _ & _ & _ & Hs & _).
  - vm_compute. reflexivity.
  - reflexivity.
  - reflexivity.
  - vm_compute. reflexivity.
  - exists s'. split; [exact Hr|exact Hs].
Defined.

(** ** Actions that are not applied *)

Lemma ignored_intro state a g g' :
  significant a → applyAction state a g = (Ok state, g') →
  ignored state a g g'.
Proof.
  intros Ha Hr. exists (saveToHistory state state).
  rewrite reducer_significant, Hr by done.
  by rewrite saved_model, saved_selection.
Qed.



(** X4. Actions against the wrong kind of node are not applied. With a
    primitive as the parent, ADD_PRIMITIVE and ADD_ASSEMBLY (which have
    consumed an identifier by then), REORDER_CHILDREN and MOVE_NODE return
    the model and the selection they were given; so does
    UPDATE_PRIMITIVE_PROPERTIES on an assembly. *)
Theorem wrong_kind_ignored (state : ModelState) (k : NodeId) (n : ModelNode)
    (g : nat) :
  nodes (model state) !! k = Some n →
  (type n = primitive →
   (∀ pt nm, ignored state (ADD_PRIMITIVE k pt nm) g (S g))
   ∧ (∀ nm, ignored state (ADD_ASSEMBLY k nm) g (S g))
   ∧ (∀ i j, ignored state (REORDER_CHILDREN k i j) g g)
   ∧ (∀ nodeId, ignored state (MOVE_NODE nodeId k) g g))
  ∧ (type n = assembly →
     ∀ props, ignored state (UPDATE_PRIMITIVE_PROPERTIES k props) g g).
Proof.
  intros Hk. split.
  - intros Ht.
    assert (type n ≠ assembly) as Hna by (rewrite Ht; done).
    repeat split; intros; apply ignored_intro; try done; simpl;
      unfold bind, generateId, lift, addPrimitive, addAssembly,
        reorderChildren, moveNode, deref.
    + rewrite Hk. simpl. by rewrite decide_True.
    + rewrite Hk. simpl. by rewrite decide_True.
    + rewrite Hk. simpl. by rewrite decide_True.
    + destruct (validateTreeMove _ _ _); simpl; [|done].
      rewrite Hk. simpl. by rewrite decide_True.
  - intros Ht props. apply ignored_intro; [done|]. simpl.
    unfold lift, updatePrimitiveProperties. rewrite Hk.
    rewrite decide_True; [done|]. by rewrite Ht.
Qed.

Lemma wrong_kind_ignored_witness :
  ignored (current initialStore)
    (UPDATE_PRIMITIVE_PROPERTIES (idOf 0) {[ "width" := 2%Q ]}) 1 1.
Proof.
  refine (proj2 (wrong_kind_ignored (current initialStore) (idOf 0)
                   {| nid := idOf 0; type := assembly; name := "Root";
                      transform := DEFAULT_TRANSFORM; visible := true;
                      primitiveType := None; properties := None;
                      color := None; children := Some [] |} 1 _) _
                {[ "width" := 2%Q ]}).
  - vm_compute. reflexivity.
  - reflexivity.
Defined.

(** ** MOVE_NODE *)

Lemma wf_descendant_exists m x k :
  wellFormed m → tc (child (nodes m)) x k → is_Some (nodes m !! k).
Proof.
  intros Hwf Hd. induction Hd as [x y Hxy|x y z _ _ IH]; [|done].
  by apply (wf_closed _ Hwf) in Hxy as [_ ?].
Qed.



Lemma moveNode_valid state n q qn :
  wellFormed (model state) →
  is_Some (nodes (model state) !! n) →
  nodes (model state) !! q = Some qn →
  type qn = assembly →
  ¬ rtc (child (nodes (model state))) n q →
  ∃ p pn pcs qcs,
    findParent n (model state) = Some p
    ∧ nodes (model state) !! p = Some pn
    ∧ type pn = assembly
    ∧ children pn = Some pcs
    ∧ Ref n ∈ pcs
    ∧ children qn = Some qcs
    ∧ moveNode state n q
      = Ok (withNodes state
              (<[q := withChildren qn (qcs ++ [Ref n])]>
                 (<[p := withChildren pn (filter (λ c, c ≠ Ref n) pcs)]>
                    (nodes (model state))))).
Proof.
  intros Hwf Hn Hq Ht Hnq.
  assert (n ≠ rootId (model state)) as Hroot.
  { intros ->. apply Hnq.
    apply (rooted_connected _ _ _ (wf_tree _ Hwf)). by eexists. }
  destruct (wf_parent _ Hwf _ Hn Hroot)
    as (p & pn & pcs & Hfp & Htr & Hpn & Htp & Hpcs & Hin).
  destruct (proj1 (wf_shape _ Hwf _ _ Hq) Ht) as [qcs Hqcs].
  exists p, pn, pcs, qcs. do 6 (split; [done|]).
  unfold moveNode, validateTreeMove.
  rewrite bool_decide_eq_true_2.
  2:{ intros ->. apply Hnq. apply rtc_refl. }
  rewrite bool_decide_eq_true_2.
  2:{ intros Hd. apply Hnq, tc_rtc. by apply (getDescendants_spec _ Hwf). }
  simpl. unfold deref. rewrite Hq. simpl.
  rewrite decide_False by auto.
  rewrite Hfp, Htr. change (default "" (Some p)) with p.
  rewrite Hpn. simpl. rewrite decide_True by done.
  unfold childArray. rewrite Hpcs, Hqcs. simpl. reflexivity.
Qed.

(** X6. MOVE_NODE of an existing node of a well-formed model into an
    assembly that is not in the subtree of the node: the node is taken out
    of the children of its parent, the other children keeping their order,
    and appended to the children of the new parent; no other node changes,
    the selection is kept, and the model stays well-formed. *)
Theorem move_node_reparents (state : ModelState) (n q : NodeId)
    (qn : ModelNode) (g : nat) :
  wellFormed (model state) →
  is_Some (nodes (model state) !! n) →
  nodes (model state) !! q = Some qn →
  type qn = assembly →
  ¬ rtc (child (nodes (model state))) n q →
  ∃ s' p pn pcs qcs,
    modelReducer state (MOVE_NODE n q) g = (Ok s', g)
    ∧ findParent n (model state) = Some p
    ∧ nodes (model state) !! p = Some pn
    ∧ children pn = Some pcs
    ∧ Ref n ∈ pcs
    ∧ children qn = Some qcs
    ∧ nodes (model s') !! q = Some (withChildren qn (qcs ++ [Ref n]))
    ∧ (p ≠ q →
       nodes (model s') !! p
       = Some (withChildren pn (filter (λ c, c ≠ Ref n) pcs)))
    ∧ (∀ k, k ≠ p → k ≠ q →
            nodes (model s') !! k = nodes (model state) !! k)
    ∧ rootId (model s') = rootId (model state)
    ∧ selection s' = selection state
    ∧ wellFormed (model s').
Proof.
  intros Hwf Hn Hq Ht Hnq.
  destruct (moveNode_valid state n q qn Hwf Hn Hq Ht Hnq)
    as (p & pn & pcs & qcs & Hfp & Hpn & Htp & Hpcs & Hin & Hqcs & Hmv).
  eexists. exists p, pn, pcs, qcs. split.
  { rewrite reducer_significant by done. simpl. unfold lift.
    rewrite Hmv. reflexivity. }
  rewrite saved_model, saved_selection. cbn [model withNodes nodes rootId].
  do 5 (split; [done|]).
  split; [by rewrite lookup_insert_eq|].
  split.
  { intros Hpq. rewrite lookup_insert_ne by done.
    by rewrite lookup_insert_eq. }
  split. { intros k Hk1 Hk2. by rewrite !lookup_insert_ne by done. }
  do 2 (split; [done|]).
  by apply (wellFormed_move (model state) n q p pn pcs qn qcs).
Qed.

Lemma move_node_reparents_witness :
  ∃ w s',
    dispatchAll initialStore
      [ADD_ASSEMBLY (idOf 0) "Assembly 1";
       ADD_PRIMITIVE (idOf 1) box "Mesh 1"] = Ok w
    ∧ modelReducer (current w) (MOVE_NODE (idOf 2) (idOf 0)) (counter w)
      = (Ok s', counter w)
    ∧ wellFormed (model s').
Proof.
  destruct example_state_facts
    as (w & Hrun & (Hwf & _) & Hn & Hne & Hd & _ & _).
  pose proof example_state as Hex. rewrite Hrun in Hex. simpl in Hex.
  injection Hex as Hroot _ _ _ _.
  destruct (wf_root _ Hwf) as (r & Hr & Htr). rewrite Hroot in Hr.
  destruct (move_node_reparents (current w) (idOf 2) (idOf 0) r (counter w))
    as (s' & p & pn & pcs & qcs & Hred & _ & _ & _ & _ & _ & _ & _ & _ & _
        & _ & Hwf'); try done.
  - by apply (wf_descendant_exists _ (idOf 1)).
  - intros Hback. apply (rooted_acyclic _ _ _ (wf_tree _ Hwf) (idOf 0)).
    assert (rtc (child (nodes (model (current w)))) (idOf 0) (idOf 2))
      as Hdown.
    { rewrite <- Hroot. apply (rooted_connected _ _ _ (wf_tree _ Hwf)).
      by apply (wf_descendant_exists _ (idOf 1)). }
    apply rtc_tc in Hdown as [Heq|Htc].
    { apply idOf_inj in Heq. discriminate Heq. }
    eapply tc_rtc_r; [exact Htc|exact Hback].
  - exists w, s'. split; [exact Hrun|]. split; [exact Hred|exact Hwf'].
Defined.

(** X7. MOVE_NODE of a node of a well-formed model into the assembly that
    is its parent already: the identifier is appended to the children list
    as it was before the node was taken out, so the list afterwards has
    the node at its old position and, once more, at the end. *)
Theorem move_to_current_parent (state : ModelState) (n p : NodeId) (g : nat) :
  wellFormed (model state) →
  findParent n (model state) = Some p →
  ∃ s' pn pcs,
    modelReducer state (MOVE_NODE n p) g = (Ok s', g)
    ∧ nodes (model state) !! p = Some pn
    ∧ children pn = Some pcs
    ∧ Ref n ∈ pcs
    ∧ nodes (model s') !! p = Some (withChildren pn (pcs ++ [Ref n]))
    ∧ ¬ NoDup (pcs ++ [Ref n])
    ∧ (∀ k, k ≠ p → nodes (model s') !! k = nodes (model state) !! k).
Proof.
  intros Hwf Hfp.
  assert (child (nodes (model state)) p n) as Hc
    by (by apply (findParent_Some _ Hwf)).
  destruct (wf_closed _ Hwf _ _ Hc) as [[pn Hpn] Hn].
  destruct Hc as (pn' & Hpn' & Hin). rewrite Hpn in Hpn'.
  injection Hpn' as <-.
  destruct (childrenOf_assembly _ _ Hin) as (Htp & pcs & Hpcs & Hin').
  assert (¬ rtc (child (nodes (model state))) n p) as Hnq.
  { intros Hr.
    apply (rooted_no_return _ _ _ (wf_tree _ Hwf) n p Hr).
    exists pn. by split. }
  destruct (moveNode_valid state n p pn Hwf Hn Hpn Htp Hnq)
    as (p' & pn' & pcs' & qcs & Hfp' & Hpn' & _ & Hpcs' & _ & Hqcs & Hmv).
  rewrite Hfp in Hfp'. injection Hfp' as <-.
  rewrite Hpn in Hpn'. injection Hpn' as <-.
  rewrite Hpcs in Hpcs', Hqcs. injection Hpcs' as <-. injection Hqcs as <-.
  eexists. exists pn, pcs. split.
  { rewrite reducer_significant by done. simpl. unfold lift.
    rewrite Hmv. reflexivity. }
  rewrite saved_model. cbn [model withNodes nodes].
  do 3 (split; [done|]).
  split; [by rewrite lookup_insert_eq|].
  split.
  { intros Hnd. apply NoDup_app in Hnd as (_ & Hdis & _).
    apply (Hdis (Ref n) Hin'). apply list_elem_of_here. }
  intros k Hk. by rewrite !lookup_insert_ne by done.
Qed.

Lemma move_to_current_parent_witness :
  ∃ w s' pn pcs,
    dispatchAll initialStore
      [ADD_ASSEMBLY (idOf 0) "Assembly 1";
       ADD_PRIMITIVE (idOf 1) box "Mesh 1"] = Ok w
    ∧ modelReducer (current w) (MOVE_NODE (idOf 2) (idOf 1)) (counter w)
      = (Ok s', counter w)
    ∧ nodes (model s') !! idOf 1
      = Some (withChildren pn (pcs ++ [Ref (idOf 2)]))
    ∧ Ref (idOf 2) ∈ pcs.
Proof.
  destruct example_state_facts as (w & Hrun & (Hwf & _) & _).
  pose proof example_state as Hex. rewrite Hrun in Hex. simpl in Hex.
  injection Hex as _ _ Hc _ _.
  destruct (move_to_current_parent (current w) (idOf 2) (idOf 1) (counter w)
              Hwf)
    as (s' & pn & pcs & Hred & _ & _ & Hin & Hp & _).
  - apply (findParent_Some _ Hwf), child_getChildren. rewrite Hc.
    apply list_elem_of_here.
  - exists w, s', pn, pcs. split; [exact Hrun|]. split; [exact Hred|].
    split; [exact Hp|exact Hin].
Defined.

(** ** RENAME_NODE, TOGGLE_VISIBILITY, UPDATE_PRIMITIVE_PROPERTIES *)

Lemma ModelNode_eta (n : ModelNode) :
  {| nid := nid n; type := type n; name := name n; transform := transform n;
     visible := visible n; primitiveType := primitiveType n;
     properties := properties n; color := color n;
     children := children n |} = n.
Proof. by destruct n. Qed.






(** X10. RENAME_NODE stores the name it is given, whatever it is, and
    changes nothing else of the node; renaming twice leaves the model that
    the second renaming alone gives. *)
Theorem rename_node_last_wins (state : ModelState) (k : NodeId)
    (first last : string) (n : ModelNode) (g : nat) :
  nodes (model state) !! k = Some n →
  ∃ s1 s2 s,
    modelReducer state (RENAME_NODE k first) g = (Ok s1, g)
    ∧ modelReducer s1 (RENAME_NODE k last) g = (Ok s2, g)
    ∧ modelReducer state (RENAME_NODE k last) g = (Ok s, g)
    ∧ nodes (model s) !! k = Some (withName n last)
    ∧ model s2 = model s
    ∧ selection s2 = selection state.
Proof.
  intros Hk. eexists. eexists. eexists. split.
  { rewrite reducer_significant by done. simpl.
    unfold lift, renameNode. rewrite Hk. reflexivity. }
  split.
  { rewrite reducer_significant by done. simpl.
    unfold lift, renameNode. rewrite saved_model. simpl.
    rewrite lookup_insert_eq. reflexivity. }
  split.
  { rewrite reducer_significant by done. simpl.
    unfold lift, renameNode. rewrite Hk. reflexivity. }
  rewrite !saved_model, !saved_selection. simpl.
  split; [by rewrite lookup_insert_eq|].
  split; [|by rewrite saved_selection].
  by rewrite saved_model, insert_insert_eq.
Qed.

Lemma rename_node_last_wins_witness :
  ∃ s, modelReducer (current initialStore) (RENAME_NODE (idOf 0) "") 1
       = (Ok s, 1)
       ∧ name <$> nodes (model s) !! idOf 0 = Some "".
Proof.
  destruct (rename_node_last_wins (current initialStore) (idOf 0) "Scene" ""
              {| nid := idOf 0; type := assembly; name := "Root";
                 transform := DEFAULT_TRANSFORM; visible := true;
                 primitiveType := None; properties := None; color := None;
                 children := Some [] |} 1)
    as (s1 & s2 & s & _ & _ & Hr & Hn & _).
  - vm_compute. reflexivity.
  - exists s. split; [exact Hr|]. rewrite Hn. reflexivity.
Defined.

(** X11. UPDATE_PRIMITIVE_PROPERTIES on a primitive merges key by key: a
    property the action gives takes the value given, every other property
    keeps its value, and nothing else of the node changes. *)
Theorem update_primitive_properties_merges (state : ModelState) (k : NodeId)
    (n : ModelNode) (props : BasePrimitiveProps) (g : nat) :
  nodes (model state) !! k = Some n →
  type n = primitive →
  ∃ s' merged,
    modelReducer state (UPDATE_PRIMITIVE_PROPERTIES k props) g = (Ok s', g)
    ∧ nodes (model s') !! k = Some (withProperties n merged)
    ∧ (∀ key v, props !! key = Some v → merged !! key = Some v)
    ∧ (∀ key, props !! key = None →
              merged !! key = default ∅ (properties n) !! key)
    ∧ (∀ x, x ≠ k → nodes (model s') !! x = nodes (model state) !! x)
    ∧ selection s' = selection state.
Proof.
  intros Hk Ht. eexists. exists (props ∪ default ∅ (properties n)). split.
  { rewrite reducer_significant by done. simpl.
    unfold lift, updatePrimitiveProperties. rewrite Hk.
    rewrite decide_False by (intros H; by apply H). reflexivity. }
  rewrite saved_model, saved_selection. simpl.
  split; [by rewrite lookup_insert_eq|].
  split. { intros key v Hv. by apply lookup_union_Some_l. }
  split. { intros key Hv. by apply lookup_union_r. }
  split; [|done]. intros x Hx. by rewrite lookup_insert_ne.
Qed.

Lemma update_primitive_properties_merges_witness :
  ∃ w s' merged,
    dispatch initialStore (ADD_PRIMITIVE (idOf 0) box "Mesh 1") = Ok w
    ∧ modelReducer (current w)
        (UPDATE_PRIMITIVE_PROPERTIES (idOf 1) {[ "width" := 2%Q ]}) 2
      = (Ok s', 2)
    ∧ properties <$> nodes (model s') !! idOf 1 = Some (Some merged)
    ∧ merged !! "width" = Some 2%Q
    ∧ merged !! "height" = Some 1%Q.
Proof.
  assert ((do* w := dispatch initialStore
                      (ADD_PRIMITIVE (idOf 0) box "Mesh 1") in
           Ok (nodes (model (current w)) !! idOf 1))
          = Ok (Some {| nid := idOf 1; type := primitive; name := "Mesh 1";
                        transform := DEFAULT_TRANSFORM; visible := true;
                        primitiveType := Some box;
                        properties := Some (PRIMITIVE_DEFAULTS box);
                        color := Some "#ffffff"; children := None |}))
    as Hex by (vm_compute; reflexivity).
  destruct (dispatch initialStore _) as [w| |] eqn:Hd; try discriminate Hex.
  injection Hex as Hn.
  destruct (update_primitive_properties_merges (current w) (idOf 1) _
              {[ "width" := 2%Q ]} 2 Hn)
    as (s' & merged & Hr & Hk & Hgiven & Hkept & _).
  - reflexivity.
  - exists w, s', merged. split; [reflexivity|]. split; [exact Hr|].
    split; [by rewrite Hk|]. split.
    + apply Hgiven. reflexivity.
    + rewrite Hkept by reflexivity. reflexivity.
Defined.

(** ** UPDATE_NODE *)

(** X12. UPDATE_NODE on an existing node keeps the node under the key it
    had, also when the updates carry another [id], which is written into
    the node; the keys of the nodes, the other nodes and the selection are
    unchanged, and updates that carry neither [type] nor [children] keep a
    well-formed model well-formed. *)
Theorem update_node_keeps_key (state : ModelState) (k : NodeId)
    (n : ModelNode) (u : NodeUpdates) (g : nat) :
  nodes (model state) !! k = Some n →
  ∃ s' n',
    modelReducer state (UPDATE_NODE k u) g = (Ok s', g)
    ∧ nodes (model s') !! k = Some n'
    ∧ nid n' = default (nid n) (u_id u)
    ∧ dom (nodes (model s')) = dom (nodes (model state))
    ∧ (∀ x, x ≠ k → nodes (model s') !! x = nodes (model state) !! x)
    ∧ rootId (model s') = rootId (model state)
    ∧ selection s' = selection state
    ∧ (u_type u = None → u_children u = None →
       wellFormed (model state) → wellFormed (model s')).
Proof.
  intros Hk. eexists. exists (mergeUpdates n u). split.
  { rewrite reducer_significant by done. simpl.
    unfold lift, updateNode. rewrite Hk. reflexivity. }
  rewrite saved_model, saved_selection. simpl.
  split; [by rewrite lookup_insert_eq|]. split; [done|].
  split. { apply dom_insert_lookup_L. by eexists. }
  split. { intros x Hx. by rewrite lookup_insert_ne. }
  do 2 (split; [done|]).
  intros Hty Hch Hwf.
  apply (wellFormed_replace (model state) k n); try done; simpl;
    by rewrite ?Hty, ?Hch.
Qed.

Lemma update_node_keeps_key_witness :
  ∃ s' n',
    modelReducer (current initialStore)
      (UPDATE_NODE (idOf 0)
         {| u_id := Some "other"; u_type := None; u_name := None;
            u_transform := None; u_visible := None;
            u_primitiveType := None; u_properties := None;
            u_color := None; u_children := None |}) 1 = (Ok s', 1)
    ∧ nodes (model s') !! idOf 0 = Some n'
    ∧ nid n' = "other".
Proof.
  destruct (update_node_keeps_key (current initialStore) (idOf 0)
              {| nid := idOf 0; type := assembly; name := "Root";
                 transform := DEFAULT_TRANSFORM; visible := true;
                 primitiveType := None; properties := None; color := None;
                 children := Some [] |}
              {| u_id := Some "other"; u_type := None; u_name := None;
                 u_transform := None; u_visible := None;
                 u_primitiveType := None; u_properties := None;
                 u_color := None; u_children := None |} 1)
    as (s' & n' & Hr & Hn & Hid & _).
  - vm_compute. reflexivity.
  - exists s', n'. split; [exact Hr|]. split; [exact Hn|exact Hid].
Defined.

(** ** History: what UNDO and REDO can and cannot bring back *)

(** X13. A saved action closes the redo branch: whatever entries lay after
    the index are dropped, the index is at the last entry of the history
    afterwards, and a REDO dispatched next returns the state unchanged. *)
Theorem redo_after_action (state : ModelState) (a : ModelAction) (g : nat)
    (s' : ModelState) (g' : nat) :
  historyOk state →
  significant a →
  modelReducer state a g = (Ok s', g') →
  modelReducer s' REDO g' = (Ok s', g')
  ∧ historyIndex s' = (Z.of_nat (length (history s')) - 1)%Z
  ∧ (Z.of_nat (length (history s')) ≤ historyIndex state + 2)%Z.
Proof.
  intros Hok Ha Hr. rewrite reducer_significant in Hr by done.
  destruct (applyAction state a g) as [[ns| |] g1]; try done.
  injection Hr as <- <-.
  destruct (saveToHistory_ok state ns Hok) as [Hok' Hend].
  split. { simpl. unfold lift. by rewrite redo_at_end. }
  split; [done|].
  destruct (saveToHistory_history state ns Hok) as [-> _].
  destruct Hok as [? ?].
  destruct (decide _);
    rewrite ?length_drop, length_app, length_take; simpl; lia.
Qed.

Lemma redo_after_action_witness :
  ∃ s', modelReducer (current initialStore) (RENAME_NODE (idOf 0) "Scene") 1
        = (Ok s', 1)
        ∧ modelReducer s' REDO 1 = (Ok s', 1).
Proof.
  destruct (modelReducer (current initialStore)
              (RENAME_NODE (idOf 0) "Scene") 1) as [[s'| |] g'] eqn:Hr;
    try (exfalso; vm_compute in Hr; discriminate Hr).
  assert (g' = 1) as -> by (vm_compute in Hr; by injection Hr).
  exists s'. split; [reflexivity|].
  refine (proj1 (redo_after_action (current initialStore)
                   (RENAME_NODE (idOf 0) "Scene") 1 s' 1 _ _ Hr)).
  - apply initialStore_historyOk.
  - reflexivity.
Defined.

Lemma undo_then_redo (state : ModelState) :
  historyOk state →
  (0 < historyIndex state)%Z →
  ∃ s1 s2,
    restored state (Z.to_nat (historyIndex state) - 1) = Some s1
    ∧ restored state (Z.to_nat (historyIndex state)) = Some s2
    ∧ undo state = Ok s1
    ∧ redo s1 = Ok s2
    ∧ undo s2 = Ok s1.
Proof.
  intros [Hlen Hidx] Hpos.
  destruct (Z.to_nat (historyIndex state)) as [|i] eqn:Hi; [lia|].
  assert (historyIndex state = Z.of_nat (S i)) as Hi' by lia.
  destruct (lookup_lt_is_Some_2 (history state) i) as [e1 He1]; [lia|].
  destruct (lookup_lt_is_Some_2 (history state) (S i)) as [e2 He2]; [lia|].
  replace (S i - 1) with i by lia.
  eexists. eexists.
  split. { unfold restored. rewrite He1. reflexivity. }
  split. { unfold restored. rewrite He2. reflexivity. }
  split. { rewrite (undo_step _ i Hi'). unfold restored. by rewrite He1. }
  split.
  { rewrite (redo_step _ i); simpl; [|done|lia].
    unfold restored. simpl. by rewrite He2. }
  rewrite (undo_step _ i); simpl; [|lia].
  unfold restored. simpl. by rewrite He1.
Qed.

(** X14. UNDO and REDO are inverse steps along the history. In a state
    whose index is above 0, UNDO returns the entry below the index, REDO
    then returns the entry at the index with the history and the index of
    the start, and a further UNDO returns exactly the state the first UNDO
    gave. *)
Theorem undo_redo_inverse (state : ModelState) (g : nat) :
  historyOk state →
  (0 < historyIndex state)%Z →
  ∃ s1 s2,
    restored state (Z.to_nat (historyIndex state) - 1) = Some s1
    ∧ restored state (Z.to_nat (historyIndex state)) = Some s2
    ∧ modelReducer state UNDO g = (Ok s1, g)
    ∧ modelReducer s1 REDO g = (Ok s2, g)
    ∧ modelReducer s2 UNDO g = (Ok s1, g)
    ∧ history s2 = history state
    ∧ historyIndex s2 = historyIndex state.
Proof.
  intros Hok Hpos.
  destruct (undo_then_redo state Hok Hpos)
    as (s1 & s2 & Hs1 & Hs2 & H1 & H2 & H3).
  exists s1, s2. do 2 (split; [done|]). simpl. unfold lift.
  rewrite H1, H2, H3. do 3 (split; [done|]).
  apply restored_history in Hs2 as [-> ->]. split; [done|lia].
Qed.

Lemma undo_redo_inverse_witness :
  ∃ w s1 s2,
    dispatch initialStore (RENAME_NODE (idOf 0) "Scene") = Ok w
    ∧ modelReducer (current w) UNDO 1 = (Ok s1, 1)
    ∧ modelReducer s1 REDO 1 = (Ok s2, 1)
    ∧ modelReducer s2 UNDO 1 = (Ok s1, 1).
Proof.
  assert ((do* w := dispatch initialStore (RENAME_NODE (idOf 0) "Scene") in
           Ok (historyIndex (current w))) = Ok 1%Z) as Hex
    by (vm_compute; reflexivity).
  destruct (dispatch initialStore _) as [w| |] eqn:Hd; try discriminate Hex.
  injection Hex as Hi.
  destruct (undo_redo_inverse (current w) 1)
    as (s1 & s2 & _ & _ & H1 & H2 & H3 & _).
  - eapply dispatch_historyOk; [apply initialStore_historyOk|exact Hd].
  - rewrite Hi. reflexivity.
  - exists w, s1, s2. split; [reflexivity|]. split; [exact H1|].
    split; [exact H2|exact H3].
Defined.

(** X15. SELECT_NODE is not recorded: it changes [selectedNodeId] alone,
    for any identifier, and leaves model, history and index as they are;
    an UNDO followed by a REDO then returns the selection and the model
    stored in the history entry at the index, whatever was selected. *)
Theorem select_node_not_recorded (state : ModelState) (k : option NodeId)
    (g : nat) :
  historyOk state →
  (0 < historyIndex state)%Z →
  ∃ s0 s1 s2 e,
    modelReducer state (SELECT_NODE k) g = (Ok s0, g)
    ∧ selectedNodeId (selection s0) = k
    ∧ hoveredNodeId (selection s0) = hoveredNodeId (selection state)
    ∧ model s0 = model state
    ∧ history s0 = history state
    ∧ historyIndex s0 = historyIndex state
    ∧ modelReducer s0 UNDO g = (Ok s1, g)
    ∧ modelReducer s1 REDO g = (Ok s2, g)
    ∧ history state !! Z.to_nat (historyIndex state) = Some e
    ∧ selection s2 = selection e
    ∧ model s2 = model e.
Proof.
  intros Hok Hpos.
  assert (historyOk (selectNode state k)) as Hok0 by done.
  destruct (undo_then_redo (selectNode state k) Hok0 Hpos)
    as (s1 & s2 & _ & Hs2 & H1 & H2 & _).
  unfold restored in Hs2. simpl in Hs2.
  destruct (history state !! Z.to_nat (historyIndex state)) as [e|] eqn:He;
    [|done].
  injection Hs2 as <-.
  exists (selectNode state k), s1. eexists. exists e.
  split; [done|]. do 5 (split; [done|]).
  split; [by simpl; unfold lift; rewrite H1|].
  split; [by simpl; unfold lift; rewrite H2|]. done.
Qed.

Lemma select_node_not_recorded_witness :
  ∃ w s0 s1 s2,
    dispatch initialStore (ADD_PRIMITIVE (idOf 0) box "Mesh 1") = Ok w
    ∧ modelReducer (current w) (SELECT_NODE None) 2 = (Ok s0, 2)
    ∧ modelReducer s0 UNDO 2 = (Ok s1, 2)
    ∧ modelReducer s1 REDO 2 = (Ok s2, 2)
    ∧ selectedNodeId (selection s0) = None
    ∧ selectedNodeId (selection s2) = Some (idOf 1).
Proof.
  assert ((do* w := dispatch initialStore
                      (ADD_PRIMITIVE (idOf 0) box "Mesh 1") in
           Ok (historyIndex (current w),
               (λ e, selectedNodeId (selection e))
                 <$> history (current w) !! 1))
          = Ok (1%Z, Some (Some (idOf 1)))) as Hex
    by (vm_compute; reflexivity).
  destruct (dispatch initialStore _) as [w| |] eqn:Hd; try discriminate Hex.
  injection Hex as Hi He.
  destruct (select_node_not_recorded (current w) None 2)
    as (s0 & s1 & s2 & e & H0 & Hsel & _ & _ & _ & _ & H1 & H2 & Hent
        & Hs2 & _).
  - eapply dispatch_historyOk; [apply initialStore_historyOk|exact Hd].
  - rewrite Hi. reflexivity.
  - exists w, s0, s1, s2. split; [reflexivity|]. split; [exact H0|].
    split; [exact H1|]. split; [exact H2|]. split; [exact Hsel|].
    rewrite Hs2. rewrite Hi in Hent.
    change (Z.to_nat 1) with 1 in Hent. rewrite Hent in He.
    by injection He.
Defined.

(** ** What no action does *)

Lemma addToParent_dom newId q (ns ns2 : Nodes) :
  addToParent newId q ns = Ok ns2 → dom ns ⊆ dom ns2.
Proof.
  unfold addToParent. destruct (ns !! q) as [qn|] eqn:Hq.
  - destruct (decide (type qn = assembly)); [|by intros [= <-]].
    destruct (childArray qn); simpl; try done. intros [= <-].
    rewrite dom_insert_L. set_solver.
  - by intros [= <-].
Qed.

Lemma duplicateChildren_dom
    (dup : ChildRef → NodeId → Nodes → Gen (ChildRef * Nodes)) newId :
  (∀ c q (ns : Nodes) g r ns' g',
     dup c q ns g = (Ok (r, ns'), g') → dom ns ⊆ dom ns') →
  ∀ todo acc (ns : Nodes) g rs ns' g',
    duplicateChildren dup newId todo acc ns g = (Ok (rs, ns'), g') →
    dom ns ⊆ dom ns'.
Proof.
  intros Hdup todo.
  induction todo as [|c rest IH]; intros acc ns g rs ns' g'; simpl.
  - unfold ret. by intros [= _ <- _].
  - unfold bind at 1.
    destruct (dup c newId ns g) as [[[d ns1]| |] g1] eqn:Hd; try done.
    intros Hrest. etrans; [by eapply Hdup|by eapply IH].
Qed.

Lemma duplicateNode_dom fuel :
  ∀ c q (ns : Nodes) g r ns' g',
    duplicateNode fuel c q ns g = (Ok (r, ns'), g') → dom ns ⊆ dom ns'.
Proof.
  induction fuel as [|fuel IH]; intros c q ns g r ns' g'; simpl; [done|].
  destruct (ns !! toKey c) as [sn|] eqn:Hs.
  2:{ unfold ret. by intros [= _ <- _]. }
  unfold bind at 1. unfold generateId at 1.
  destruct (type sn).
  - unfold bind, ret, lift.
    destruct (addToParent _ _ _) as [ns2| |] eqn:Ha; try done.
    intros [= _ <- _]. apply addToParent_dom in Ha.
    rewrite dom_insert_L in Ha. set_solver.
  - unfold bind at 1. unfold bind at 1. unfold lift at 1.
    destruct (childArray sn) as [cs| |]; try done.
    unfold bind at 1.
    destruct (duplicateChildren _ _ _ _ _ _) as [[[rs ns1]| |] g1] eqn:Hl;
      try done.
    apply (duplicateChildren_dom _ _ IH) in Hl.
    rewrite dom_insert_L in Hl.
    unfold bind at 1. unfold lift at 1.
    destruct (deref ns1 (idOf g)) as [da| |]; try done.
    unfold ret at 1. unfold bind, lift, ret.
    destruct (addToParent _ _ _) as [ns2| |] eqn:Ha; try done.
    intros [= _ <- _]. apply addToParent_dom in Ha.
    destruct (decide (type da = assembly));
      rewrite ?dom_insert_L in Ha; set_solver.
Qed.


Lemma applyAction_dom state a g newState g' :
  (∀ k, a ≠ DELETE_NODE k) →
  applyAction state a g = (Ok newState, g') →
  dom (nodes (model state)) ⊆ dom (nodes (model newState)).
Proof.
  intros Hnd.
  destruct a; try (by destruct (Hnd nodeId)); simpl;
    try (unfold bind, lift, ret, generateId, addPrimitive, addAssembly,
           updateNode, updateTransform, reorderChildren, moveNode,
           renameNode, toggleVisibility, updatePrimitiveProperties,
           obind, deref, childArray;
         intros H; repeat case_match; simplify_eq; simpl;
         rewrite ?dom_insert_L; set_solver).
  unfold duplicate, bind, lift, ret, deref.
  intros H; repeat case_match; simplify_eq; simpl; try done.
  by eapply duplicateNode_dom.
Qed.



(** X17. Only DELETE_NODE, UNDO and REDO take nodes away: after any other
    action that the reducer completes, in any state, every key of the
    nodes is still a key. *)
Theorem only_delete_removes (state : ModelState) (a : ModelAction) (g : nat)
    (s' : ModelState) (g' : nat) :
  (∀ k, a ≠ DELETE_NODE k) → a ≠ UNDO → a ≠ REDO →
  modelReducer state a g = (Ok s', g') →
  dom (nodes (model state)) ⊆ dom (nodes (model s')).
Proof.
  intros Hd Hu Hr Hred.
  destruct (decide (significant a)) as [Ha|Ha].
  - rewrite reducer_significant in Hred by done.
    destruct (applyAction _ _ _) as [[ns| |] g1] eqn:Hap; try done.
    injection Hred as <- _. rewrite saved_model.
    by eapply applyAction_dom.
  - destruct a; try (by destruct Ha); try done.
    simpl in Hred. unfold ret in Hred. by injection Hred as <- _.
Qed.

Lemma only_delete_removes_witness :
  ∃ w, dispatch initialStore (DUPLICATE_NODE (idOf 0)) = Ok w
       ∧ dom (nodes (model (current initialStore)))
         ⊆ dom (nodes (model (current w))).
Proof.
  destruct (dispatch initialStore (DUPLICATE_NODE (idOf 0))) as [w| |] eqn:Hd;
    try (exfalso; vm_compute in Hd; discriminate Hd).
  exists w. split; [reflexivity|].
  apply (only_delete_removes (current initialStore) (DUPLICATE_NODE (idOf 0))
           (counter initialStore) (current w) (counter w)); try done.
  by apply dispatch_Ok.
Defined.

(** ** REORDER_CHILDREN inside the list *)

Lemma reorder_in_range (cs : list ChildRef) (i j : nat) (x : ChildRef) :
  cs !! i = Some x → j < length cs →
  reorder cs (Z.of_nat i) (Z.of_nat j)
  = take j (delete i cs) ++ x :: drop j (delete i cs).
Proof.
  intros Hx Hj. pose proof (lookup_lt_Some _ _ _ Hx) as Hi.
  unfold reorder, splice.
  rewrite (relativeIndex_in_range (length cs) (Z.of_nat i)) by lia.
  rewrite Nat2Z.id.
  replace (1 `min` (length cs - i)) with 1 by lia.
  assert (take 1 (drop i cs) = [x]) as ->.
  { rewrite <- (take_drop_middle cs i x Hx) at 1.
    rewrite drop_app_length' by (rewrite length_take; lia). done. }
  simpl. replace (i + 1) with (S i) by lia.
  rewrite <- delete_take_drop.
  assert (length (delete i cs) = length cs - 1) as Hld
    by (apply length_delete; by eexists).
  rewrite relativeIndex_in_range by lia.
  rewrite Nat2Z.id, Nat.add_0_r. done.
Qed.

(** X18. REORDER_CHILDREN with both indices inside the children list moves
    the entry at [fromIndex] to [toIndex]: the list afterwards is the old
    one without that entry, with the entry put back at position
    [toIndex]; the other entries keep their order, and nothing else
    changes. *)
Theorem reorder_children_moves (state : ModelState) (p : NodeId)
    (pn : ModelNode) (cs : list ChildRef) (i j : Z) (x : ChildRef)
    (g : nat) :
  nodes (model state) !! p = Some pn →
  type pn = assembly →
  children pn = Some cs →
  (0 ≤ i)%Z → (0 ≤ j < Z.of_nat (length cs))%Z →
  cs !! Z.to_nat i = Some x →
  ∃ s' cs',
    modelReducer state (REORDER_CHILDREN p i j) g = (Ok s', g)
    ∧ nodes (model s') !! p = Some (withChildren pn cs')
    ∧ cs' = take (Z.to_nat j) (delete (Z.to_nat i) cs)
            ++ x :: drop (Z.to_nat j) (delete (Z.to_nat i) cs)
    ∧ cs' !! Z.to_nat j = Some x
    ∧ length cs' = length cs
    ∧ (∀ k, k ≠ p → nodes (model s') !! k = nodes (model state) !! k)
    ∧ selection s' = selection state.
Proof.
  intros Hp Ht Hcs Hi Hj Hx.
  pose proof (lookup_lt_Some _ _ _ Hx) as Hilt.
  assert (reorder cs i j
          = take (Z.to_nat j) (delete (Z.to_nat i) cs)
            ++ x :: drop (Z.to_nat j) (delete (Z.to_nat i) cs)) as Hre.
  { rewrite <- (Z2Nat.id i), <- (Z2Nat.id j) at 1 by lia.
    apply reorder_in_range; [done|lia]. }
  assert (length (take (Z.to_nat j) (delete (Z.to_nat i) cs)) = Z.to_nat j)
    as Hlen.
  { rewrite length_take, length_delete by (by eexists). lia. }
  eexists. eexists. split.
  { rewrite reducer_significant by done. simpl.
    unfold lift, reorderChildren, deref. rewrite Hp. simpl.
    rewrite decide_False by (by intros H; apply H).
    unfold childArray. rewrite Hcs. simpl. rewrite Hre. reflexivity. }
  rewrite saved_model, saved_selection. simpl.
  split; [by rewrite lookup_insert_eq|]. split; [done|].
  split. { rewrite <- Hlen at 3. by rewrite list_lookup_middle. }
  split.
  { rewrite length_app, length_cons, length_take, length_drop,
      length_delete by (by eexists). lia. }
  split; [|done]. intros k Hk. by rewrite lookup_insert_ne.
Qed.

Lemma reorder_children_moves_witness :
  ∃ w s' r,
    dispatchAll initialStore
      [ADD_PRIMITIVE (idOf 0) box "Mesh 1";
       ADD_PRIMITIVE (idOf 0) box "Mesh 2"] = Ok w
    ∧ modelReducer (current w) (REORDER_CHILDREN (idOf 0) 0 1) 3
      = (Ok s', 3)
    ∧ nodes (model s') !! idOf 0
      = Some (withChildren r [Ref (idOf 2); Ref (idOf 1)]).
Proof.
  assert ((do* w := dispatchAll initialStore
                      [ADD_PRIMITIVE (idOf 0) box "Mesh 1";
                       ADD_PRIMITIVE (idOf 0) box "Mesh 2"] in
           Ok ((λ r, (type r, children r))
                 <$> nodes (model (current w)) !! idOf 0))
          = Ok (Some (assembly, Some [Ref (idOf 1); Ref (idOf 2)]))) as Hex
    by (vm_compute; reflexivity).
  destruct (dispatchAll initialStore _) as [w| |] eqn:Hrun;
    try discriminate Hex.
  injection Hex as Hex.
  destruct (nodes (model (current w)) !! idOf 0) as [r|] eqn:Hr;
    [|discriminate Hex].
  injection Hex as Ht Hcs.
  destruct (reorder_children_moves (current w) (idOf 0) r
              [Ref (idOf 1); Ref (idOf 2)] 0 1 (Ref (idOf 1)) 3 Hr Ht Hcs)
    as (s' & cs' & Hred & Hp & -> & _).
  - lia.
  - simpl. lia.
  - reflexivity.
  - exists w, s', r. split; [reflexivity|]. split; [exact Hred|exact Hp].
Defined.

(** ** One step back *)

(** X19. Any saved action can be taken back by one UNDO: after a saved
    action, UNDO returns the model and the selection of the history entry
    that was at the index before the action, also when saving the action
    evicted the oldest entry. *)
Theorem action_then_undo (state : ModelState) (a : ModelAction) (g : nat)
    (s' : ModelState) (g' : nat) (e : ModelState) :
  historyOk state →
  significant a →
  history state !! Z.to_nat (historyIndex state) = Some e →
  modelReducer state a g = (Ok s', g') →
  ∃ s'', modelReducer s' UNDO g' = (Ok s'', g')
         ∧ model s'' = model e
         ∧ selection s'' = selection e
         ∧ history s'' = history s'
         ∧ historyIndex s'' = (historyIndex s' - 1)%Z.
Proof.
  intros Hok Ha He Hr. rewrite reducer_significant in Hr by done.
  destruct (applyAction state a g) as [[ns| |] g1]; try done.
  injection Hr as <- <-.
  destruct (saveToHistory_history state ns Hok) as [Hh Hi].
  destruct Hok as [Hlen Hidx].
  assert (∃ i, historyIndex state = Z.of_nat i
               ∧ i < length (history state)) as (i & Hi0 & Hil).
  { exists (Z.to_nat (historyIndex state)). lia. }
  rewrite Hi0, Nat2Z.id in He.
  assert (Z.to_nat (historyIndex state + 1) = S i) as Hsi by lia.
  rewrite Hsi in Hh, Hi.
  set (pushed := take (S i) (history state) ++ [snapshot ns]) in *.
  assert (length pushed = S (S i)) as Hlp.
  { unfold pushed. rewrite length_app, length_take.
    change (length [snapshot ns]) with 1. lia. }
  assert (pushed !! i = Some e) as Hpi.
  { unfold pushed. rewrite lookup_app_l by (rewrite length_take; lia).
    by rewrite lookup_take_lt by lia. }
  set (s1 := saveToHistory state ns) in *.
  assert (∃ k, historyIndex s1 = Z.of_nat (S k) ∧ history s1 !! k = Some e)
    as (k & Hk & Hek).
  { destruct (decide (50 < length pushed)) as [Hbig|Hsmall].
    - exists 48. split; [by rewrite Hi|]. rewrite Hh, lookup_drop.
      replace (1 + 48) with i by lia. done.
    - exists i. split; [rewrite Hi; lia|]. by rewrite Hh. }
  eexists. split.
  { simpl. unfold lift. rewrite (undo_step _ k Hk). unfold restored.
    rewrite Hek. reflexivity. }
  simpl. do 3 (split; [done|]). lia.
Qed.

Lemma action_then_undo_witness :
  ∃ w s'',
    dispatch initialStore (ADD_PRIMITIVE (idOf 0) box "Mesh 1") = Ok w
    ∧ modelReducer (current w) UNDO (counter w) = (Ok s'', counter w)
    ∧ model s'' = model (snapshot (current initialStore)).
Proof.
  destruct (dispatch initialStore (ADD_PRIMITIVE (idOf 0) box "Mesh 1"))
    as [w| |] eqn:Hd; try (exfalso; vm_compute in Hd; discriminate Hd).
  destruct (action_then_undo (current initialStore)
              (ADD_PRIMITIVE (idOf 0) box "Mesh 1") (counter initialStore)
              (current w) (counter w) (snapshot (current initialStore)))
    as (s'' & Hu & Hm & _).
  - apply initialStore_historyOk.
  - reflexivity.
  - reflexivity.
  - by apply dispatch_Ok.
  - exists w, s''. split; [reflexivity|]. split; [exact Hu|exact Hm].
Defined.

(** ** Invariants of every run *)

















(** ** The selection *)


Lemma applyAction_selection state a g newState g' :
  selects a = false →
  applyAction state a g = (Ok newState, g') →
  selection newState = selection state.
Proof.
  destruct a; try done; intros _; simpl;
    unfold bind, lift, ret, generateId, addAssembly, updateNode,
      updateTransform, reorderChildren, moveNode, renameNode,
      toggleVisibility, updatePrimitiveProperties, obind, deref, childArray;
    intros H; repeat case_match; by simplify_eq.
Qed.

(** X24. The selection is left alone by every action but ADD_PRIMITIVE,
    DELETE_NODE, SELECT_NODE, DUPLICATE_NODE, UNDO and REDO: after
    ADD_ASSEMBLY, UPDATE_NODE, UPDATE_TRANSFORM, REORDER_CHILDREN,
    MOVE_NODE, RENAME_NODE, TOGGLE_VISIBILITY and
    UPDATE_PRIMITIVE_PROPERTIES, in any state, [selectedNodeId] and
    [hoveredNodeId] are what they were. *)
Theorem selection_untouched (state : ModelState) (a : ModelAction) (g : nat)
    (s' : ModelState) (g' : nat) :
  selects a = false →
  modelReducer state a g = (Ok s', g') →
  selection s' = selection state.
Proof.
  intros Hsel Hr.
  assert (significant a) as Ha by (by destruct a).
  rewrite reducer_significant in Hr by done.
  destruct (applyAction _ _ _) as [[ns| |] g1] eqn:Hap; try done.
  injection Hr as <- _. rewrite saved_selection.
  by eapply applyAction_selection.
Qed.

Lemma selection_untouched_witness :
  ∃ s', modelReducer (current initialStore)
          (ADD_ASSEMBLY (idOf 0) "Assembly 1") 1 = (Ok s', 2)
        ∧ selection s' = selection (current initialStore).
Proof.
  destruct (modelReducer (current initialStore)
              (ADD_ASSEMBLY (idOf 0) "Assembly 1") 1) as [[s'| |] g'] eqn:Hr;
    try (exfalso; vm_compute in Hr; discriminate Hr).
  assert (g' = 2) as -> by (vm_compute in Hr; by injection Hr).
  exists s'. split; [reflexivity|].
  by apply (selection_untouched (current initialStore)
              (ADD_ASSEMBLY (idOf 0) "Assembly 1") 1 s' 2).
Defined.



(** * The tree panel *)

(** ** Drag and drop *)

Lemma indexOf_found (l : list ChildRef) (k : NodeId) :
  indexOf l k ≠ (-1)%Z →
  (0 ≤ indexOf l k < Z.of_nat (length l))%Z
  ∧ l !! Z.to_nat (indexOf l k) = Some (Ref k).
Proof.
  unfold indexOf.
  destruct (list_find _ l) as [[i c]|] eqn:Hf; [|done]. intros _.
  apply list_find_Some in Hf as (Hi & -> & _).
  rewrite Nat2Z.id. split; [|done].
  apply lookup_lt_Some in Hi. lia.
Qed.

Lemma truthy_default (o : option NodeId) :
  truthy o = true → o = Some (default "" o).
Proof. by destruct o. Qed.

(** X26. A REORDER_CHILDREN that [handleDragEnd] dispatches has both
    indices inside the children list of the parent it names: the list
    holds the dragged node at [fromIndex] and the node dropped on at
    [toIndex], both nodes have that parent, and the reducer turns the list
    into a permutation of itself, without an [undefined] entry. *)
Theorem drag_reorder_in_range (state : ModelState) (activeId : NodeId)
    (over : option string) (p : NodeId) (i j : Z) :
  handleDragEnd state activeId over = Ok (Some (REORDER_CHILDREN p i j)) →
  ∃ overRaw pn cs,
    over = Some overRaw
    ∧ nodes (model state) !! p = Some pn
    ∧ type pn = assembly
    ∧ children pn = Some cs
    ∧ (0 ≤ i < Z.of_nat (length cs))%Z
    ∧ (0 ≤ j < Z.of_nat (length cs))%Z
    ∧ cs !! Z.to_nat i = Some (Ref activeId)
    ∧ cs !! Z.to_nat j = Some (Ref (overTarget overRaw))
    ∧ findParent activeId (model state) = Some p
    ∧ findParent (overTarget overRaw) (model state) = Some p
    ∧ benign state (REORDER_CHILDREN p i j)
    ∧ reorder cs i j ≡ₚ cs.
Proof.
  unfold handleDragEnd. destruct over as [overRaw|]; [|done].
  destruct (decide (activeId = overRaw)); [done|]. cbv zeta.
  destruct (match nodes (model state) !! overTarget overRaw with
            | Some n => _ | None => _ end) as [a|] eqn:Hmoved.
  { intros [= ->]. repeat case_match; done. }
  clear Hmoved.
  destruct (findParent activeId (model state)) as [pa|] eqn:Hpa; [|done].
  destruct (findParent (overTarget overRaw) (model state)) as [po|] eqn:Hpo.
  2:{ by rewrite andb_false_r. }
  destruct (truthy (Some pa)) eqn:Hta; [|done].
  destruct (truthy (Some po)) eqn:Hto; [|done].
  simpl.
  destruct (bool_decide (Some pa = Some po)) eqn:Heq; [|done].
  apply bool_decide_eq_true in Heq. injection Heq as <-.
  destruct (bool_decide (_ ≠ _)); [|done].
  destruct (bool_decide (_ ≠ _)); [|done]. simpl.
  destruct (nodes (model state) !! pa) as [pn|] eqn:Hpn; [|done].
  destruct (decide (type pn = assembly)) as [Ht|]; [|done].
  unfold childArray. destruct (children pn) as [cs|] eqn:Hcs; [|done].
  simpl. destruct (decide _) as [[Hi Hj]|]; [|done].
  intros [= <- <- <-].
  destruct (indexOf_found _ _ Hi) as [Hi1 Hi2].
  destruct (indexOf_found _ _ Hj) as [Hj1 Hj2].
  exists overRaw, pn, cs. do 10 (split; [done|]).
  assert (cs ≠ []) as Hne by (intros ->; simpl in Hi1; lia).
  split.
  - simpl. intros n' cs' Hn' Hcs'. rewrite Hpn in Hn'.
    injection Hn' as <-. rewrite Hcs in Hcs'. injection Hcs' as <-.
    split; [lia|done].
  - apply reorder_within; [lia|done].
Qed.

Lemma two_siblings :
  (do* w := dispatchAll initialStore
              [ADD_PRIMITIVE (idOf 0) box "Mesh 1";
               ADD_PRIMITIVE (idOf 0) box "Mesh 2"] in
   handleDragEnd (current w) (idOf 1) (Some (idOf 2)))
  = Ok (Some (REORDER_CHILDREN (idOf 0) 0 1)).
Proof. vm_compute. reflexivity. Qed.

Lemma drag_reorder_in_range_witness :
  ∃ w cs,
    dispatchAll initialStore
      [ADD_PRIMITIVE (idOf 0) box "Mesh 1";
       ADD_PRIMITIVE (idOf 0) box "Mesh 2"] = Ok w
    ∧ handleDragEnd (current w) (idOf 1) (Some (idOf 2))
      = Ok (Some (REORDER_CHILDREN (idOf 0) 0 1))
    ∧ reorder cs 0 1 ≡ₚ cs.
Proof.
  pose proof two_siblings as Hex.
  destruct (dispatchAll initialStore _) as [w| |] eqn:Hrun;
    try discriminate Hex.
  simpl in Hex.
  destruct (drag_reorder_in_range (current w) (idOf 1) (Some (idOf 2))
              (idOf 0) 0 1 Hex)
    as (overRaw & pn & cs & _ & _ & _ & _ & _ & _ & _ & _ & _ & _ & _ & Hp).
  exists w, cs. split; [reflexivity|]. split; [exact Hex|exact Hp].
Defined.

(** X27. A MOVE_NODE that [handleDragEnd] dispatches moves the dragged
    node into an existing assembly that is not its parent already and that
    [validateTreeMove] accepts; when the model is well-formed and the
    dragged node exists, the reducer completes the move and the model is
    well-formed afterwards. *)
Theorem drag_move_valid (state : ModelState) (activeId : NodeId)
    (over : option string) (n q : NodeId) :
  handleDragEnd state activeId over = Ok (Some (MOVE_NODE n q)) →
  ∃ overRaw qn,
    over = Some overRaw
    ∧ n = activeId
    ∧ q = overTarget overRaw
    ∧ nodes (model state) !! q = Some qn
    ∧ type qn = assembly
    ∧ findParent n (model state) ≠ Some q
    ∧ validateTreeMove n q (model state) = true
    ∧ (wellFormed (model state) → is_Some (nodes (model state) !! n) →
       ∀ g, ∃ s', modelReducer state (MOVE_NODE n q) g = (Ok s', g)
                  ∧ wellFormed (model s')
                  ∧ selection s' = selection state).
Proof.
  unfold handleDragEnd. destruct over as [overRaw|]; [|done].
  destruct (decide (activeId = overRaw)); [done|]. cbv zeta.
  destruct (nodes (model state) !! overTarget overRaw) as [qn|] eqn:Hq.
  2:{ intros H. unfold obind, childArray in H.
      repeat case_match; simplify_eq. }
  destruct (decide (type qn = assembly)) as [Ht|].
  2:{ intros H. unfold obind, childArray in H.
      repeat case_match; simplify_eq. }
  destruct (decide (findParent activeId (model state)
                    ≠ Some (overTarget overRaw)))
    as [Hpar|].
  2:{ intros H. unfold obind, childArray in H.
      repeat case_match; simplify_eq. }
  destruct (validateTreeMove activeId (overTarget overRaw) (model state))
    eqn:Hv.
  2:{ intros H. unfold obind, childArray in H.
      repeat case_match; simplify_eq. }
  intros [= <- <-]. exists overRaw, qn. do 7 (split; [done|]).
  intros Hwf Hn g.
  unfold validateTreeMove in Hv. apply andb_true_iff in Hv as [Hne Hnd].
  apply bool_decide_eq_true in Hne, Hnd.
  assert (¬ rtc (child (nodes (model state))) activeId
            (overTarget overRaw)) as Hnq.
  { intros [?|Hr]%rtc_tc; [done|].
    by apply Hnd, (getDescendants_spec _ Hwf). }
  destruct (moveNode_valid state activeId _ qn Hwf Hn Hq Ht Hnq)
    as (p & pn & pcs & qcs & Hfp & Hpn & Htp & Hpcs & Hin & Hqcs & Hmv).
  eexists. split.
  { rewrite reducer_significant by done. simpl. unfold lift.
    rewrite Hmv. reflexivity. }
  rewrite saved_model, saved_selection. split; [|done].
  by apply (wellFormed_move (model state) activeId _ p pn pcs qn qcs).
Qed.

Lemma drop_on_root :
  (do* w := dispatchAll initialStore
              [ADD_ASSEMBLY (idOf 0) "Assembly 1";
               ADD_PRIMITIVE (idOf 1) box "Mesh 1"] in
   handleDragEnd (current w) (idOf 2) (Some ("drop-" +:+ idOf 0)))
  = Ok (Some (MOVE_NODE (idOf 2) (idOf 0))).
Proof. vm_compute. reflexivity. Qed.

Lemma drag_move_valid_witness :
  ∃ w s',
    dispatchAll initialStore
      [ADD_ASSEMBLY (idOf 0) "Assembly 1";
       ADD_PRIMITIVE (idOf 1) box "Mesh 1"] = Ok w
    ∧ handleDragEnd (current w) (idOf 2) (Some ("drop-" +:+ idOf 0))
      = Ok (Some (MOVE_NODE (idOf 2) (idOf 0)))
    ∧ modelReducer (current w) (MOVE_NODE (idOf 2) (idOf 0)) (counter w)
      = (Ok s', counter w)
    ∧ wellFormed (model s').
Proof.
  destruct example_state_facts as (w & Hrun & (Hwf & _) & _ & _ & Hd & _).
  pose proof drop_on_root as Hex. rewrite Hrun in Hex. simpl in Hex.
  destruct (drag_move_valid (current w) (idOf 2) (Some ("drop-" +:+ idOf 0))
              (idOf 2) (idOf 0) Hex)
    as (overRaw & qn & _ & _ & _ & _ & _ & _ & _ & Hmove).
  destruct (Hmove Hwf (wf_descendant_exists _ _ _ Hwf Hd) (counter w))
    as (s' & Hred & Hwf' & _).
  exists w, s'. split; [exact Hrun|]. split; [exact Hex|].
  split; [exact Hred|exact Hwf'].
Defined.

(** ** The buttons of the tree panel *)

(** X28. In a well-formed model the parent that [TreeControls] computes is
    an existing assembly, whatever is selected, also when the selected
    node no longer exists; so the ADD_PRIMITIVE and ADD_ASSEMBLY that its
    handlers dispatch never raise: the reducer adds the new node at the
    end of the children of that parent and the model stays well-formed. *)
Theorem tree_controls_add (state : ModelState) (g : nat) :
  wellFormed (model state) →
  nodes (model state) !! idOf g = None →
  ∃ pn cs,
    nodes (model state) !! TreeControls_parentId state = Some pn
    ∧ type pn = assembly
    ∧ children pn = Some cs
    ∧ (∀ pt nm,
         ∃ s', modelReducer state (handleAddPrimitive state pt nm) g
               = (Ok s', S g)
               ∧ is_Some (nodes (model s') !! idOf g)
               ∧ nodes (model s') !! TreeControls_parentId state
                 = Some (withChildren pn (cs ++ [Ref (idOf g)]))
               ∧ wellFormed (model s'))
    ∧ (∀ nm,
         ∃ s', modelReducer state (handleAddAssembly state nm) g
               = (Ok s', S g)
               ∧ is_Some (nodes (model s') !! idOf g)
               ∧ nodes (model s') !! TreeControls_parentId state
                 = Some (withChildren pn (cs ++ [Ref (idOf g)]))
               ∧ wellFormed (model s')).
Proof.
  intros Hwf Hf.
  assert (∃ pn, nodes (model state) !! TreeControls_parentId state = Some pn
                ∧ type pn = assembly) as (pn & Hpn & Ht).
  { unfold TreeControls_parentId.
    destruct (wf_root _ Hwf) as (r & Hr & Htr).
    set (sel := if truthy _ then _ else _).
    destruct (nodes (model state) !! sel) as [sn|] eqn:Hs; [|by exists r].
    destruct (decide (type sn = assembly)); [by exists sn|].
    destruct (findParent sel (model state)) as [p|] eqn:Hfp;
      [|by exists r].
    destruct (truthy (Some p)); [|by exists r]. simpl.
    apply (findParent_Some _ Hwf) in Hfp as (pn & Hpn & Hin).
    exists pn. split; [done|]. by apply childrenOf_assembly in Hin as [? _]. }
  destruct (proj1 (wf_shape _ Hwf _ _ Hpn) Ht) as [cs Hcs].
  assert (idOf g ≠ TreeControls_parentId state) as Hne
    by (intros Heq; rewrite <- Heq in Hpn; congruence).
  exists pn, cs. do 3 (split; [done|]). split.
  - intros pt nm. eexists. split.
    { unfold handleAddPrimitive. rewrite reducer_significant by done. simpl.
      unfold bind, generateId, lift, addPrimitive, deref. rewrite Hpn. simpl.
      rewrite decide_False by (by intros H; apply H).
      unfold childArray. rewrite Hcs. simpl. reflexivity. }
    rewrite saved_model. simpl.
    split. { rewrite lookup_insert_ne by done. by rewrite lookup_insert_eq. }
    split; [by rewrite lookup_insert_eq|].
    apply wellFormed_add; try done; try apply idOf_nonempty.
    simpl. split; [done|by intros [? ?]].
  - intros nm. eexists. split.
    { unfold handleAddAssembly. rewrite reducer_significant by done. simpl.
      unfold bind, generateId, lift, addAssembly, deref. rewrite Hpn. simpl.
      rewrite decide_False by (by intros H; apply H).
      unfold childArray. rewrite Hcs. simpl. reflexivity. }
    rewrite saved_model. simpl.
    split. { rewrite lookup_insert_ne by done. by rewrite lookup_insert_eq. }
    split; [by rewrite lookup_insert_eq|].
    apply wellFormed_add; try done; try apply idOf_nonempty.
    simpl. intros l Hl. by simplify_eq.
Qed.

Lemma tree_controls_add_witness :
  ∃ s', modelReducer (current initialStore)
          (handleAddPrimitive (current initialStore) sphere "Sphere 1") 1
        = (Ok s', 2)
        ∧ wellFormed (model s').
Proof.
  destruct (tree_controls_add (current initialStore) 1)
    as (pn & cs & _ & _ & _ & Hprim & _).
  - apply wellFormed_initial.
  - vm_compute. reflexivity.
  - destruct (Hprim sphere "Sphere 1") as (s' & Hr & _ & _ & Hwf').
    exists s'. split; [exact Hr|exact Hwf'].
Defined.

(** * The colour field of the property panel *)

Lemma hexDigits_weaken lo lo' hi hi' v :
  lo' ≤ lo → hi ≤ hi' → hexDigits lo hi v = true → hexDigits lo' hi' v = true.
Proof.
  unfold hexDigits. intros Hlo Hhi.
  rewrite !andb_true_iff, !Nat.leb_le. intros [[? ?] ?].
  repeat split; [done|lia|lia].
Qed.

(** X29. What the text input of the colour stores. While typing, a text
    of at most six hexadecimal digits is stored as ["#"] followed by the
    digits typed (["#ffffff"] for the empty text), so that a colour of
    fewer than six digits can be in the model; any other text dispatches
    nothing. Leaving the input always dispatches, and stores ["#"]
    followed by exactly six hexadecimal digits. Either way the action is
    an UPDATE_NODE that sets the colour of the node and nothing else, and
    a well-formed model stays well-formed. *)
Theorem colour_text_stores_hex (state : ModelState) (k : NodeId)
    (n : ModelNode) (value : string) (a : ModelAction) (g : nat) :
  nodes (model state) !! k = Some n →
  colorTextChange k value = Some a ∨ colorTextBlur k value = Some a →
  is_Some (colorTextBlur k value)
  ∧ ∃ digits s',
      a = UPDATE_NODE k (colorUpdates ("#" +:+ digits))
      ∧ hexDigits 1 6 digits = true
      ∧ (colorTextBlur k value = Some a → hexDigits 6 6 digits = true)
      ∧ (colorTextChange k value = Some a → value ≠ "" → digits = value)
      ∧ modelReducer state a g = (Ok s', g)
      ∧ nodes (model s') !! k
        = Some {| nid := nid n; type := type n; name := name n;
                  transform := transform n; visible := visible n;
                  primitiveType := primitiveType n;
                  properties := properties n;
                  color := Some ("#" +:+ digits);
                  children := children n |}
      ∧ (∀ x, x ≠ k → nodes (model s') !! x = nodes (model state) !! x)
      ∧ selection s' = selection state
      ∧ (wellFormed (model state) → wellFormed (model s')).
Proof.
  intros Hk Ha. split.
  { unfold colorTextBlur. destruct (hexDigits 6 6 value) eqn:Hv; simpl;
      [|by eexists].
    unfold hexDigits in Hv. rewrite !andb_true_iff, !Nat.leb_le in Hv.
    destruct Hv as [[_ ?] _].
    destruct (Nat.ltb_spec 0 (String.length value)); [by eexists|lia]. }
  assert (∃ digits,
            a = UPDATE_NODE k (colorUpdates ("#" +:+ digits))
            ∧ hexDigits 1 6 digits = true
            ∧ (colorTextBlur k value = Some a → hexDigits 6 6 digits = true)
            ∧ (colorTextChange k value = Some a → value ≠ "" →
               digits = value)) as (digits & -> & Hd & Hb & Hc).
  { assert (hexDigits 6 6 "ffffff" = true) as Hdef by reflexivity.
    destruct Ha as [Ha|Ha].
    - unfold colorTextChange in Ha.
      destruct (hexDigits 0 6 value) eqn:Hv; [|done].
      destruct (Nat.ltb_spec 0 (String.length value)) as [Hpos|Hzero].
      + injection Ha as <-. exists value. split; [done|].
        assert (hexDigits 1 6 value = true) as Hv1.
        { unfold hexDigits in *.
          rewrite !andb_true_iff, !Nat.leb_le in *.
          destruct Hv as [[? _] ?]. repeat split; [done|lia|done]. }
        split; [done|]. split; [|done].
        unfold colorTextBlur.
        destruct (hexDigits 6 6 value) eqn:Hv6; simpl; [done|].
        intros [= Heq]. change ("" +:+ value) with value in Heq.
        rewrite <- Heq in Hv6.
        discriminate Hv6.
      + injection Ha as <-. exists "ffffff".
        split; [done|].
        split; [by apply (hexDigits_weaken 6 1 6 6); [lia|lia|]|].
        split; [done|]. intros _ Hne. destruct value; [done|].
        simpl in Hzero. lia.
    - unfold colorTextBlur in Ha.
      destruct (hexDigits 6 6 value) eqn:Hv; simpl in Ha.
      + destruct (0 <? String.length value); [|done].
        injection Ha as <-. exists value. split; [done|].
        split; [by apply (hexDigits_weaken 6 1 6 6); [lia|lia|]|]. done.
      + injection Ha as <-. exists "ffffff".
        split; [done|].
        split; [by apply (hexDigits_weaken 6 1 6 6); [lia|lia|]|].
        split; [done|].
        unfold colorTextChange.
        destruct (hexDigits 0 6 value) eqn:Hv0; [|done].
        destruct (Nat.ltb_spec 0 (String.length value)) as [Hpos|Hzero].
        * intros [= Heq] _. done.
        * intros _ Hne. destruct value; [done|]. simpl in Hzero. lia. }
  eexists digits, _. do 4 (split; [done|]). split.
  { rewrite reducer_significant by done. simpl.
    unfold lift, updateNode. rewrite Hk. reflexivity. }
  rewrite saved_model, saved_selection. simpl.
  split; [by rewrite lookup_insert_eq|].
  split. { intros x Hx. by rewrite lookup_insert_ne. }
  split; [done|]. intros Hwf.
  by apply (wellFormed_replace (model state) k n).
Qed.

Lemma colour_text_stores_hex_witness :
  ∃ w digits s',
    dispatch initialStore (ADD_PRIMITIVE (idOf 0) box "Mesh 1") = Ok w
    ∧ colorTextChange (idOf 1) "3b8"
      = Some (UPDATE_NODE (idOf 1) (colorUpdates ("#" +:+ digits)))
    ∧ digits = "3b8"
    ∧ modelReducer (current w)
        (UPDATE_NODE (idOf 1) (colorUpdates ("#" +:+ digits))) 2
      = (Ok s', 2)
    ∧ color <$> nodes (model s') !! idOf 1 = Some (Some "#3b8").
Proof.
  assert ((do* w := dispatch initialStore
                      (ADD_PRIMITIVE (idOf 0) box "Mesh 1") in
           Ok (name <$> nodes (model (current w)) !! idOf 1))
          = Ok (Some "Mesh 1")) as Hex by (vm_compute; reflexivity).
  destruct (dispatch initialStore (ADD_PRIMITIVE (idOf 0) box "Mesh 1"))
    as [w| |] eqn:Hd; try discriminate Hex.
  injection Hex as Hex.
  destruct (nodes (model (current w)) !! idOf 1) as [n|] eqn:Hn;
    [|discriminate Hex].
  destruct (colour_text_stores_hex (current w) (idOf 1) n "3b8"
              (UPDATE_NODE (idOf 1) (colorUpdates "#3b8")) 2 Hn)
    as (_ & digits & s' & Ha & _ & _ & Hv & Hr & Hc & _).
  - left. reflexivity.
  - assert (digits = "3b8") as -> by (by apply Hv).
    exists w, "3b8", s'. split; [reflexivity|]. split; [reflexivity|].
    split; [reflexivity|]. split; [exact Hr|]. by rewrite Hc.
Defined.
